(** * Decoding of model output into tool calls: [core/src/utils/parser.ts]

    A shallow embedding of the three decoders [parseCodeContent],
    [parseMcpContent] and [parseComputerContent] together with the parts of
    the JavaScript runtime they call: strings as sequences of UTF-16 code
    units, the regular expressions of the source run by a backtracking
    matcher, [String.prototype.trim/split/replace], [Number], [JSON.parse],
    [JSON.stringify], ordinary objects with their property order, exceptions
    and [try]/[catch]. *)

From Stdlib Require Import String Ascii DecimalString.
From Stdlib Require DecimalFacts DecimalPos DecimalN.
From Stdlib Require Import List NArith ZArith Bool Lia.
Import ListNotations.

Set Implicit Arguments.
Set Warnings "-register-all".

(** ** Strings *)

(** A JavaScript string is a sequence of 16-bit code units. *)
Definition char16 := N.
Bind Scope N_scope with char16.
Definition jsstring := list char16.

(** Source literals. *)
Definition lit (s : string) : jsstring :=
  List.map N_of_ascii (list_ascii_of_string s).

Arguments lit s%_string.

(** Literals of JSON text: a backquote stands for the double quote. *)
Definition jq (s : string) : jsstring :=
  List.map (fun c => if N.eqb c 96 then 34%N else c) (lit s).
Arguments jq s%_string.

Definition str_eqb (a b : jsstring) : bool :=
  if list_eq_dec N.eq_dec a b then true else false.

(** [WhiteSpace] and [LineTerminator] of ECMAScript: what [trim] removes
    and what [\s] matches. *)
Definition is_white_space (c : char16) : bool :=
  (existsb (N.eqb c)
     [9; 10; 11; 12; 13; 32; 160; 5760; 8232; 8233; 8239; 8287; 12288; 65279]
   || ((8192 <=? c) && (c <=? 8202)))%N.

Fixpoint trimStart (s : jsstring) : jsstring :=
  match s with
  | c :: t => if is_white_space c then trimStart t else s
  | [] => []
  end.

Definition trimEnd (s : jsstring) : jsstring := rev (trimStart (rev s)).

(** [String.prototype.trim] *)
Definition trim (s : jsstring) : jsstring := trimEnd (trimStart s).

(** [s.split(sep)] for a separator of one code unit, the only use in the
    source ([' '], [','], ['=']). The result is never empty. *)
Fixpoint split (sep : char16) (s : jsstring) : list jsstring :=
  match s with
  | [] => [[]]
  | c :: t =>
      if N.eqb c sep then [] :: split sep t
      else match split sep t with
           | h :: r => (c :: h) :: r
           | [] => [[c]]
           end
  end.

(** [s.substring(a, b)] for [a <= b]. *)
Definition substring (a b : nat) (s : jsstring) : jsstring :=
  firstn (b - a) (skipn a s).

(** [Some rest] when [p] is a prefix of [s]. *)
Fixpoint strip_prefix (p s : jsstring) : option jsstring :=
  match p, s with
  | [], _ => Some s
  | a :: p', b :: s' => if N.eqb a b then strip_prefix p' s' else None
  | _ :: _, [] => None
  end.

(** ** Exceptions and the local state of a decoder *)

Inductive error := TypeError | SyntaxError.

Inductive Exc (A : Type) : Type :=
| Ok (a : A)
| Throw (e : error).
Arguments Ok {A} a.
Arguments Throw {A} e.

(** ** Regular expressions

    The fragment of ECMAScript patterns the source uses, run by a
    backtracking matcher in continuation-passing style: quantifiers apply to
    one-character classes only, groups are numbered as in the source. *)

Inductive regex :=
| Chars (s : jsstring)              (* a run of literal characters *)
| Class (p : char16 -> bool)        (* one character of a class *)
| Star (p : char16 -> bool)         (* [p*], greedy *)
| Plus (p : char16 -> bool)         (* [p+], greedy *)
| LazyStar (p : char16 -> bool)     (* [p*?] *)
| Group (i : nat) (r : regex)       (* the i-th capturing group *)
| Seq (r1 r2 : regex)
| Alt (r1 r2 : regex)
| Bol                               (* [^] *)
| Eol.                              (* [$] *)

Definition captures := list (nat * jsstring).

Section Matcher.
Variable A : Type.

Fixpoint greedy (p : char16 -> bool) (k : nat -> jsstring -> option A)
         (pos : nat) (inp : jsstring) : option A :=
  match inp with
  | c :: t =>
      if p c then
        match greedy p k (S pos) t with
        | Some r => Some r
        | None => k pos inp
        end
      else k pos inp
  | [] => k pos inp
  end.

Fixpoint lazy (p : char16 -> bool) (k : nat -> jsstring -> option A)
         (pos : nat) (inp : jsstring) : option A :=
  match k pos inp with
  | Some r => Some r
  | None =>
      match inp with
      | c :: t => if p c then lazy p k (S pos) t else None
      | [] => None
      end
  end.

(** [run r pos inp cs k]: match [r] against [inp], which starts at index
    [pos] of the subject, then continue with [k]. *)
Fixpoint run (r : regex) (pos : nat) (inp : jsstring) (cs : captures)
         (k : nat -> jsstring -> captures -> option A) : option A :=
  match r with
  | Chars s =>
      match strip_prefix s inp with
      | Some rest => k (pos + length s) rest cs
      | None => None
      end
  | Class p =>
      match inp with
      | c :: t => if p c then k (S pos) t cs else None
      | [] => None
      end
  | Star p => greedy p (fun pos' inp' => k pos' inp' cs) pos inp
  | Plus p =>
      match inp with
      | c :: t =>
          if p c then greedy p (fun pos' inp' => k pos' inp' cs) (S pos) t
          else None
      | [] => None
      end
  | LazyStar p => lazy p (fun pos' inp' => k pos' inp' cs) pos inp
  | Group i r' =>
      run r' pos inp cs
          (fun pos' inp' cs' => k pos' inp' ((i, firstn (pos' - pos) inp) :: cs'))
  | Seq r1 r2 =>
      run r1 pos inp cs (fun pos' inp' cs' => run r2 pos' inp' cs' k)
  | Alt r1 r2 =>
      match run r1 pos inp cs k with
      | Some x => Some x
      | None => run r2 pos inp cs k
      end
  | Bol => if Nat.eqb pos 0 then k pos inp cs else None
  | Eol => match inp with [] => k pos inp cs | _ :: _ => None end
  end.
End Matcher.

(** The match array: [index], element 0 and the groups. *)
Record MatchResult := {
  index : nat;
  whole : jsstring;
  groups : captures
}.

Definition accept (e : nat) (_ : jsstring) (cs : captures) : option (nat * captures) :=
  Some (e, cs).

(** One attempt at index [pos]. *)
Definition match_at (r : regex) (pos : nat) (inp : jsstring) : option MatchResult :=
  match run r pos inp [] accept with
  | Some (e, cs) =>
      Some {| index := pos; whole := firstn (e - pos) inp; groups := cs |}
  | None => None
  end.

(** The leftmost match at or after [pos]. *)
Fixpoint search (r : regex) (pos : nat) (inp : jsstring) : option MatchResult :=
  match match_at r pos inp with
  | Some m => Some m
  | None =>
      match inp with
      | _ :: t => search r (S pos) t
      | [] => None
      end
  end.

(** [s.match(r)] for [r] without the [g] flag. *)
Definition String_match (r : regex) (s : jsstring) : option MatchResult :=
  search r 0 s.

(** [m[i]]: [None] is [undefined]. *)
Fixpoint capture (i : nat) (cs : captures) : option jsstring :=
  match cs with
  | (j, s) :: t => if Nat.eqb i j then Some s else capture i t
  | [] => None
  end.

Definition group (m : MatchResult) (i : nat) : option jsstring :=
  match i with
  | 0 => Some (whole m)
  | _ => capture i (groups m)
  end.

(** [s.matchAll(r)] for [r] with the [g] flag: the successive matches, each
    search starting where the previous match ended, one further after an
    empty match. [skip] counts the characters still covered by the previous
    match. *)
Fixpoint scan (r : regex) (skip pos : nat) (inp : jsstring) : list MatchResult :=
  match skip with
  | S n =>
      match inp with
      | _ :: t => scan r n (S pos) t
      | [] => []
      end
  | 0 =>
      match match_at r pos inp with
      | Some m =>
          m :: match inp with
               | _ :: t => scan r (Nat.pred (length (whole m))) (S pos) t
               | [] => []
               end
      | None =>
          match inp with
          | _ :: t => scan r 0 (S pos) t
          | [] => []
          end
      end
  end.

Definition String_matchAll (r : regex) (s : jsstring) : list MatchResult :=
  scan r 0 0 s.

(** [s.replace(r, '')] for [r] without the [g] flag: the first match is
    removed. *)
Definition String_replace_first (r : regex) (s : jsstring) : jsstring :=
  match String_match r s with
  | Some m => firstn (index m) s ++ skipn (index m + length (whole m)) s
  | None => s
  end.

(** [s.replace(r, '')] for [r] with the [g] flag: every match is removed. *)
Fixpoint erase (r : regex) (skip pos : nat) (inp : jsstring) : jsstring :=
  match skip with
  | S n =>
      match inp with
      | _ :: t => erase r n (S pos) t
      | [] => []
      end
  | 0 =>
      match match_at r pos inp with
      | Some m =>
          match inp with
          | c :: t =>
              match length (whole m) with
              | 0 => c :: erase r 0 (S pos) t
              | S n => erase r n (S pos) t
              end
          | [] => []
          end
      | None =>
          match inp with
          | c :: t => c :: erase r 0 (S pos) t
          | [] => []
          end
      end
  end.

Definition String_replace_all (r : regex) (s : jsstring) : jsstring :=
  erase r 0 0 s.

(** Character classes of the source. *)
Definition any_char (_ : char16) : bool := true.             (* [\s\S] *)
Definition not_char (x : char16) (c : char16) : bool := negb (N.eqb c x).
Definition is_word_char (c : char16) : bool :=               (* \w *)
  (((48 <=? c) && (c <=? 57)) || ((65 <=? c) && (c <=? 90))
   || ((97 <=? c) && (c <=? 122)) || (c =? 95))%N.
(** A single or a double quote. *)
Definition is_quote (c : char16) : bool := ((c =? 39) || (c =? 34))%N.

(** [/<tag>([\s\S]*?)<\/tag>/] *)
Definition tag_regex (open close : jsstring) : regex :=
  Seq (Chars open) (Seq (Group 1 (LazyStar any_char)) (Chars close)).

Definition think_open : jsstring :=
  lit "<think_never_used_51bce0c785ca2f68081bfa7d91973934>".
Definition think_close : jsstring :=
  lit "</think_never_used_51bce0c785ca2f68081bfa7d91973934>".

Definition think_regex : regex := tag_regex think_open think_close.
Definition answer_regex : regex := tag_regex (lit "<answer>") (lit "</answer>").

(** ** Numbers *)

(** A Number as far as the decoders can observe it: integers of the safe
    range are evaluated, the two zeros apart; any other finite non-zero
    double is kept as the literal that denotes it, its floating-point value
    is not computed. *)
Inductive number :=
| Int (z : Z)                 (* the integer z, |z| <= 2^53; 0 is +0 *)
| NegZero                     (* -0 *)
| NaN
| Infinity (negative : bool)
| Float (src : jsstring).     (* the double nearest to the value of src *)

Definition is_digit (c : char16) : bool := ((48 <=? c) && (c <=? 57))%N.

Fixpoint span (p : char16 -> bool) (s : jsstring) : jsstring * jsstring :=
  match s with
  | c :: t => if p c then let (a, b) := span p t in (c :: a, b) else ([], s)
  | [] => ([], [])
  end.

Definition digits_value (base : Z) (digit : char16 -> Z) (ds : jsstring) : Z :=
  fold_left (fun a c => base * a + digit c)%Z ds 0%Z.

Definition decimal_digit (c : char16) : Z := Z.of_N (c - 48).

(** The parts of an unsigned decimal literal. *)
Record decimal := {
  d_int : jsstring;
  d_dot : bool;
  d_frac : jsstring;
  d_exp : option (bool * jsstring)       (* sign is minus, digits *)
}.

(** An optional sign: whether it is a minus, and what follows it. *)
Definition split_sign (s : jsstring) : bool * jsstring :=
  match s with
  | c :: u =>
      if (c =? 43)%N then (false, u)
      else if (c =? 45)%N then (true, u)
      else (false, s)
  | [] => (false, s)
  end.

Definition scan_exponent (s : jsstring) : option (option (bool * jsstring)) :=
  match s with
  | [] => Some None
  | c :: t =>
      if ((c =? 101) || (c =? 69))%N then
        let (neg, u) := split_sign t in
        let (ds, rest) := span is_digit u in
        match ds, rest with
        | _ :: _, [] => Some (Some (neg, ds))
        | _, _ => None
        end
      else None
  end.

(** digits [. digits] [e [+-] digits], all of the input. *)
Definition scan_decimal (s : jsstring) : option decimal :=
  let (i, r1) := span is_digit s in
  let '(dot, f, r2) :=
    match r1 with
    | c :: u =>
        if (c =? 46)%N
        then let (f, r2) := span is_digit u in (true, f, r2)
        else (false, [], r1)
    | [] => (false, [], r1)
    end in
  match scan_exponent r2 with
  | Some e => Some {| d_int := i; d_dot := dot; d_frac := f; d_exp := e |}
  | None => None
  end.

(** The double nearest to [D * 10^E], with the sign [neg], as a [number].
    A value of at most half the least subnormal rounds to the zero of its
    sign, one of at least [2^1024 - 2^970] to an infinity. *)
Definition classify (neg : bool) (src : jsstring) (D E : Z) : number :=
  let num := (D * 10 ^ Z.max E 0)%Z in
  let den := (10 ^ Z.max (- E) 0)%Z in
  if ((num =? 0) || (num * 2 ^ 1075 <=? den))%Z then (if neg then NegZero else Int 0)
  else if ((2 ^ 1024 - 2 ^ 970) * den <=? num)%Z then Infinity neg
  else if ((num mod den =? 0) && (num / den <=? 2 ^ 53))%Z
       then Int (if neg then - (num / den) else num / den)
       else Float src.

Definition decimal_value (neg : bool) (src : jsstring) (d : decimal) : number :=
  let x := match d_exp d with
           | Some (true, ds) => (- digits_value 10 decimal_digit ds)%Z
           | Some (false, ds) => digits_value 10 decimal_digit ds
           | None => 0%Z
           end in
  classify neg src (digits_value 10 decimal_digit (d_int d ++ d_frac d))
           (x - Z.of_nat (length (d_frac d))).

(** [0x], [0o] and [0b] literals of [StringToNumber]. *)
Definition hex_value (c : char16) : option Z :=
  if is_digit c then Some (Z.of_N (c - 48))
  else if ((97 <=? c) && (c <=? 102))%N then Some (Z.of_N (c - 87))
  else if ((65 <=? c) && (c <=? 70))%N then Some (Z.of_N (c - 55))
  else None.

Definition radix_digit (base : Z) (c : char16) : bool :=
  match hex_value c with
  | Some v => (v <? base)%Z
  | None => false
  end.

Definition non_decimal (s : jsstring) : option number :=
  match s with
  | z :: p :: ds =>
      let base :=
        if negb (z =? 48)%N then None
        else if ((p =? 120) || (p =? 88))%N then Some 16%Z
        else if ((p =? 111) || (p =? 79))%N then Some 8%Z
        else if ((p =? 98) || (p =? 66))%N then Some 2%Z
        else None in
      match base, ds with
      | Some b, _ :: _ =>
          if forallb (radix_digit b) ds
          then Some (classify false s
                       (digits_value b (fun c => match hex_value c with
                                                 | Some v => v
                                                 | None => 0%Z
                                                 end) ds) 0)
          else Some NaN
      | Some _, [] => Some NaN
      | None, _ => None
      end
  | _ => None
  end.

(** [Number(s)] on a string: [StringToNumber]. *)
Definition Number (s : jsstring) : number :=
  let t := trim s in
  match t with
  | [] => Int 0
  | _ =>
      match non_decimal t with
      | Some n => n
      | None =>
          let (neg, u) := split_sign t in
          if str_eqb u (lit "Infinity") then Infinity neg
          else
            match scan_decimal u with
            | Some d =>
                match d_int d, d_frac d with
                | [], [] => NaN
                | _, _ => decimal_value neg t d
                end
            | None => NaN
            end
      end
  end.

(** A number of the JSON grammar: an optional minus, an integer part
    without a superfluous leading zero, an optional fraction with at least
    one digit, an optional exponent. *)
Definition JSON_number (s : jsstring) : option number :=
  let (neg, u) :=
    match s with
    | c :: u => if (c =? 45)%N then (true, u) else (false, s)
    | [] => (false, s)
    end in
  match scan_decimal u with
  | Some d =>
      let int_ok :=
        match d_int d with
        | [] => false
        | [_] => true
        | c :: _ => negb (c =? 48)%N
        end in
      let frac_ok :=
        match d_dot d, d_frac d with
        | true, [] => false
        | _, _ => true
        end in
      if int_ok && frac_ok then Some (decimal_value neg s d) else None
  | None => None
  end.

(** Decimal digits of a natural number. *)
Definition decimal_digits (n : N) : jsstring :=
  lit (NilZero.string_of_uint (N.to_uint n)).

(** ** Values and objects *)

Inductive jsval :=
| VUndefined
| VNull
| VBool (b : bool)
| VNumber (n : number)
| VString (s : jsstring)
| VArray (l : list jsval)
| VObject (props : list (jsstring * jsval)).  (* own properties, in key order *)

Definition props := list (jsstring * jsval).

(** An array index: the canonical decimal form of an integer below
    [2^32 - 1]. Such keys come first in an object, in numeric order. *)
Definition array_index (k : jsstring) : option Z :=
  match k with
  | [] => None
  | c :: t =>
      if forallb is_digit k
         && (negb (c =? 48)%N || match t with [] => true | _ :: _ => false end)
      then
        let n := digits_value 10 decimal_digit k in
        if (n <=? 4294967294)%Z then Some n else None
      else None
  end.

Fixpoint has_prop (k : jsstring) (o : props) : bool :=
  match o with
  | (k', _) :: t => str_eqb k k' || has_prop k t
  | [] => false
  end.

Fixpoint update_prop (k : jsstring) (v : jsval) (o : props) : props :=
  match o with
  | (k', v') :: t =>
      if str_eqb k k' then (k', v) :: t else (k', v') :: update_prop k v t
  | [] => []
  end.

Fixpoint insert_prop (k : jsstring) (v : jsval) (o : props) : props :=
  match o with
  | [] => [(k, v)]
  | (k', v') :: t =>
      match array_index k, array_index k' with
      | Some n, Some n' =>
          if (n <? n')%Z then (k, v) :: o else (k', v') :: insert_prop k v t
      | Some _, None => (k, v) :: o
      | None, _ => (k', v') :: insert_prop k v t
      end
  end.

(** [CreateDataProperty]: an existing property keeps its place. *)
Definition define_prop (k : jsstring) (v : jsval) (o : props) : props :=
  if has_prop k o then update_prop k v o else insert_prop k v o.

(** [o[k] = v] on an object made by an object literal: the key [__proto__]
    reaches the setter of [Object.prototype], which adds no own property. *)
Definition obj_set (o : props) (k : jsstring) (v : jsval) : props :=
  if str_eqb k (lit "__proto__") then o else define_prop k v o.

Fixpoint lookup_prop (k : jsstring) (o : props) : jsval :=
  match o with
  | (k', v) :: t => if str_eqb k k' then v else lookup_prop k t
  | [] => VUndefined
  end.

(** [v.k] for a key that no built-in prototype defines and that is neither
    an index nor [length]: reading from [null] or [undefined] throws. *)
Definition get_prop (v : jsval) (k : jsstring) : Exc jsval :=
  match v with
  | VUndefined | VNull => Throw TypeError
  | VObject o => Ok (lookup_prop k o)
  | _ => Ok VUndefined
  end.

(** [ToBoolean] *)
Definition truthy (v : jsval) : bool :=
  match v with
  | VUndefined | VNull => false
  | VBool b => b
  | VNumber (Int z) => negb (z =? 0)%Z
  | VNumber NegZero | VNumber NaN => false
  | VNumber _ => true
  | VString [] => false
  | VString _ => true
  | VArray _ | VObject _ => true
  end.

(** ** JSON *)

(** [Number::toString] of an integer below [10^21] in magnitude. *)
Definition Number_toString_int (z : Z) : jsstring :=
  if (z <? 0)%Z then 45%N :: decimal_digits (Z.to_N (- z))
  else decimal_digits (Z.to_N z).

Definition hex_digit (n : N) : char16 :=
  (if n <? 10 then 48 + n else 87 + n)%N.

(** A backslash, [u] and four lower-case hexadecimal digits. *)
Definition unicode_escape (c : char16) : jsstring :=
  [92; 117; hex_digit (c / 4096 mod 16); hex_digit (c / 256 mod 16);
   hex_digit (c / 16 mod 16); hex_digit (c mod 16)]%N.

Definition is_high_surrogate (c : char16) : bool := ((55296 <=? c) && (c <=? 56319))%N.
Definition is_low_surrogate (c : char16) : bool := ((56320 <=? c) && (c <=? 57343))%N.

Definition escape_char (c : char16) : jsstring :=
  (if c =? 8 then [92; 98]
   else if c =? 9 then [92; 116]
   else if c =? 10 then [92; 110]
   else if c =? 12 then [92; 102]
   else if c =? 13 then [92; 114]
   else if c =? 34 then [92; 34]
   else if c =? 92 then [92; 92]
   else if (c <? 32) || is_high_surrogate c || is_low_surrogate c
        then unicode_escape c
        else [c])%N.

Fixpoint quote_chars (s : jsstring) : jsstring :=
  match s with
  | [] => []
  | c :: t =>
      match t with
      | d :: t' =>
          if is_high_surrogate c && is_low_surrogate d
          then c :: d :: quote_chars t'
          else escape_char c ++ quote_chars t
      | [] => escape_char c
      end
  end.

(** [QuoteJSONString] *)
Definition QuoteJSONString (s : jsstring) : jsstring :=
  34%N :: quote_chars s ++ [34%N].

Fixpoint join (sep : jsstring) (l : list jsstring) : jsstring :=
  match l with
  | [] => []
  | [a] => a
  | a :: t => a ++ sep ++ join sep t
  end.

Section Stringify.
(** [Number::toString] of a double that the model does not evaluate,
    given by the literal that denotes it: floating point, left to the
    host. *)
Variable float_toString : jsstring -> jsstring.

Definition Number_toString (n : number) : jsstring :=
  match n with
  | Int z => Number_toString_int z
  | NegZero => lit "0"
  | NaN => lit "NaN"
  | Infinity false => lit "Infinity"
  | Infinity true => lit "-Infinity"
  | Float src => float_toString src
  end.

(** [SerializeJSONProperty]: [None] is [undefined]. *)
Fixpoint serialize (v : jsval) : option jsstring :=
  match v with
  | VUndefined => None
  | VNull => Some (lit "null")
  | VBool true => Some (lit "true")
  | VBool false => Some (lit "false")
  | VNumber (Int z) => Some (Number_toString_int z)
  | VNumber NegZero => Some (lit "0")
  | VNumber (Float src) => Some (float_toString src)
  | VNumber _ => Some (lit "null")
  | VString s => Some (QuoteJSONString s)
  | VArray l =>
      Some (lit "[" ++
            join (lit ",")
              (List.map (fun x => match serialize x with
                                  | Some s => s
                                  | None => lit "null"
                                  end) l)
            ++ lit "]")
  | VObject o =>
      Some (lit "{" ++
            join (lit ",")
              (List.flat_map
                 (fun kv => match serialize (snd kv) with
                            | Some s => [QuoteJSONString (fst kv) ++ lit ":" ++ s]
                            | None => []
                            end) o)
            ++ lit "}")
  end.

(** [JSON.stringify(v)] *)
Definition JSON_stringify (v : jsval) : jsval :=
  match serialize v with
  | Some s => VString s
  | None => VUndefined
  end.
End Stringify.

(** *** [JSON.parse]: a lexer and a pushdown parser, one character and one
    token at a time *)

Inductive token :=
| TLBrace | TRBrace | TLBracket | TRBracket | TColon | TComma
| TString (s : jsstring)
| TValue (v : jsval).            (* a number, [true], [false] or [null] *)

Inductive lexmode :=
| LDefault
| LString (acc : jsstring)                  (* characters read, reversed *)
| LEscape (acc : jsstring)                  (* after a backslash *)
| LUnicode (acc : jsstring) (hex : list Z)  (* after backslash u *)
| LNumber (acc : jsstring)
| LWord (acc : jsstring).

Definition is_json_ws (c : char16) : bool :=
  ((c =? 9) || (c =? 10) || (c =? 13) || (c =? 32))%N.

Definition is_number_char (c : char16) : bool :=
  (is_digit c || (c =? 43) || (c =? 45) || (c =? 46) || (c =? 69) || (c =? 101))%N.

Definition is_lower (c : char16) : bool := ((97 <=? c) && (c <=? 122))%N.

Definition lex_default (toks : list token) (c : char16) : option (lexmode * list token) :=
  (if is_json_ws c then Some (LDefault, toks)
   else if c =? 123 then Some (LDefault, TLBrace :: toks)
   else if c =? 125 then Some (LDefault, TRBrace :: toks)
   else if c =? 91 then Some (LDefault, TLBracket :: toks)
   else if c =? 93 then Some (LDefault, TRBracket :: toks)
   else if c =? 58 then Some (LDefault, TColon :: toks)
   else if c =? 44 then Some (LDefault, TComma :: toks)
   else if c =? 34 then Some (LString [], toks)
   else if (c =? 45) || is_digit c then Some (LNumber [c], toks)
   else if is_lower c then Some (LWord [c], toks)
   else None)%N.

Definition word_token (w : jsstring) : option token :=
  if str_eqb w (lit "true") then Some (TValue (VBool true))
  else if str_eqb w (lit "false") then Some (TValue (VBool false))
  else if str_eqb w (lit "null") then Some (TValue VNull)
  else None.

(** The token that ends where the lexer stands. *)
Definition flush (m : lexmode) (toks : list token) : option (list token) :=
  match m with
  | LDefault => Some toks
  | LNumber acc =>
      match JSON_number (rev acc) with
      | Some n => Some (TValue (VNumber n) :: toks)
      | None => None
      end
  | LWord acc =>
      match word_token (rev acc) with
      | Some t => Some (t :: toks)
      | None => None
      end
  | _ => None
  end.

Definition unescape (c : char16) : option char16 :=
  (if (c =? 34) || (c =? 92) || (c =? 47) then Some c
   else if c =? 98 then Some 8
   else if c =? 102 then Some 12
   else if c =? 110 then Some 10
   else if c =? 114 then Some 13
   else if c =? 116 then Some 9
   else None)%N.

Definition lex_step (st : lexmode * list token) (c : char16) : option (lexmode * list token) :=
  let (m, toks) := st in
  match m with
  | LDefault => lex_default toks c
  | LString acc =>
      (if c =? 34 then Some (LDefault, TString (rev acc) :: toks)
       else if c =? 92 then Some (LEscape acc, toks)
       else if c <? 32 then None
       else Some (LString (c :: acc), toks))%N
  | LEscape acc =>
      match unescape c with
      | Some x => Some (LString (x :: acc), toks)
      | None => if (c =? 117)%N then Some (LUnicode acc [], toks) else None
      end
  | LUnicode acc hs =>
      match hex_value c with
      | Some h =>
          match hs with
          | [a; b; d] =>
              Some (LString (Z.to_N (((a * 16 + b) * 16 + d) * 16 + h) :: acc), toks)
          | _ => Some (LUnicode acc (hs ++ [h]), toks)
          end
      | None => None
      end
  | LNumber acc =>
      if is_number_char c then Some (LNumber (c :: acc), toks)
      else match flush m toks with
           | Some toks' => lex_default toks' c
           | None => None
           end
  | LWord acc =>
      if is_lower c then Some (LWord (c :: acc), toks)
      else match flush m toks with
           | Some toks' => lex_default toks' c
           | None => None
           end
  end.

Fixpoint lex_from (st : lexmode * list token) (s : jsstring) : option (list token) :=
  match s with
  | [] => option_map (@rev token) (flush (fst st) (snd st))
  | c :: t =>
      match lex_step st c with
      | Some st' => lex_from st' t
      | None => None
      end
  end.

Definition lex (s : jsstring) : option (list token) := lex_from (LDefault, []) s.

(** An open array with its elements so far (reversed), or an open object
    with its properties so far and the key whose value is being read. *)
Inductive frame :=
| FArray (items : list jsval)
| FObject (o : props) (key : jsstring).

Inductive pstate :=
| PValue (stack : list frame)                    (* a value must follow *)
| PArrayStart (stack : list frame)               (* after [[] *)
| PArrayNext (items : list jsval) (stack : list frame)
| PObjectStart (stack : list frame)              (* after the opening brace *)
| PKey (o : props) (stack : list frame)          (* after a comma in an object *)
| PColon (o : props) (key : jsstring) (stack : list frame)
| PObjectNext (o : props) (stack : list frame)
| PDone (v : jsval).

(** A value is complete: it goes into the innermost open container. *)
Definition reduce (v : jsval) (stack : list frame) : pstate :=
  match stack with
  | [] => PDone v
  | FArray items :: st => PArrayNext (v :: items) st
  | FObject o key :: st => PObjectNext (define_prop key v o) st
  end.

Definition begin_value (tok : token) (stack : list frame) : option pstate :=
  match tok with
  | TValue v => Some (reduce v stack)
  | TString s => Some (reduce (VString s) stack)
  | TLBracket => Some (PArrayStart stack)
  | TLBrace => Some (PObjectStart stack)
  | _ => None
  end.

Definition parse_step (st : pstate) (tok : token) : option pstate :=
  match st with
  | PValue stack => begin_value tok stack
  | PArrayStart stack =>
      match tok with
      | TRBracket => Some (reduce (VArray []) stack)
      | _ => begin_value tok (FArray [] :: stack)
      end
  | PArrayNext items stack =>
      match tok with
      | TComma => Some (PValue (FArray items :: stack))
      | TRBracket => Some (reduce (VArray (rev items)) stack)
      | _ => None
      end
  | PObjectStart stack =>
      match tok with
      | TRBrace => Some (reduce (VObject []) stack)
      | TString k => Some (PColon [] k stack)
      | _ => None
      end
  | PKey o stack =>
      match tok with
      | TString k => Some (PColon o k stack)
      | _ => None
      end
  | PColon o k stack =>
      match tok with
      | TColon => Some (PValue (FObject o k :: stack))
      | _ => None
      end
  | PObjectNext o stack =>
      match tok with
      | TComma => Some (PKey o stack)
      | TRBrace => Some (reduce (VObject o) stack)
      | _ => None
      end
  | PDone _ => None
  end.

Fixpoint parse_from (st : pstate) (toks : list token) : option jsval :=
  match toks with
  | [] => match st with PDone v => Some v | _ => None end
  | t :: ts =>
      match parse_step st t with
      | Some st' => parse_from st' ts
      | None => None
      end
  end.

(** [JSON.parse(s)] *)
Definition JSON_parse (s : jsstring) : Exc jsval :=
  match lex s with
  | Some toks =>
      match parse_from (PValue []) toks with
      | Some v => Ok v
      | None => Throw SyntaxError
      end
  | None => Throw SyntaxError
  end.

(** ** The decoders *)

Record FunctionCall := {
  name : jsval;
  arguments : jsval
}.

(** [ChatCompletionMessageToolCall] *)
Record ToolCall := {
  id : jsstring;
  type : jsstring;
  function : FunctionCall
}.

Record ParsedContent := {
  think : jsstring;
  answer : jsstring;
  tools : option (list ToolCall)       (* [None]: the field is absent *)
}.

(** What the decoders take from outside: the clock and the random source.
    [Date_now k] is the value of [Date.now()] and [Math_random_toString36 k]
    the text of [Math.random().toString(36)] at the k-th identifier made by a
    call. *)
Record Entropy := {
  Date_now : nat -> Z;
  Math_random_toString36 : nat -> jsstring
}.

Definition is_radix36_digit (c : char16) : bool := is_digit c || is_lower c.

(** [Math.random()] lies in [[0, 1)]: in radix 36 it reads [0], or [0.]
    followed by at least one digit. *)
Definition is_radix36_fraction (s : jsstring) : bool :=
  match s with
  | [c] => (c =? 48)%N
  | c :: d :: ((_ :: _) as ds) =>
      (c =? 48)%N && (d =? 46)%N && forallb is_radix36_digit ds
  | _ => false
  end.

(** The local variable [tools] of a decoder and the number of identifiers
    it has made; both survive an exception. *)
Record Locals := {
  pushed : list ToolCall;
  made : nat
}.

Definition M (A : Type) : Type := Locals -> Exc A * Locals.

Definition ret {A} (a : A) : M A := fun st => (Ok a, st).

Definition bind {A B} (m : M A) (f : A -> M B) : M B :=
  fun st =>
    match m st with
    | (Ok a, st') => f a st'
    | (Throw e, st') => (Throw e, st')
    end.

Notation "x <- m ;; f" := (bind m (fun x => f))
  (at level 61, m at next level, right associativity).
Notation "m ;;; f" := (bind m (fun _ => f))
  (at level 61, right associativity).

Definition throw {A} (e : error) : M A := fun st => (Throw e, st).

Definition lift {A} (x : Exc A) : M A := fun st => (x, st).

(** [try { body } catch (error) { console.error(...) }] *)
Definition try_catch (body : M unit) : M unit :=
  fun st =>
    match body st with
    | (Ok u, st') => (Ok u, st')
    | (Throw _, st') => (Ok tt, st')
    end.

(** [for (const x of l) { body }] *)
Fixpoint for_of {A} (l : list A) (body : A -> M unit) : M unit :=
  match l with
  | [] => ret tt
  | x :: t => body x ;;; for_of t body
  end.

(** [tools.push(t)] *)
Definition push (t : ToolCall) : M unit :=
  fun st => (Ok tt, {| pushed := pushed st ++ [t]; made := made st |}).

Definition read_tools : M (list ToolCall) := fun st => (Ok (pushed st), st).

(** The receiver of a method call: calling a method of [undefined] throws. *)
Definition receiver (o : option jsstring) : M jsstring :=
  match o with
  | Some s => ret s
  | None => throw TypeError
  end.

Definition to_val (o : option jsstring) : jsval :=
  match o with
  | Some s => VString s
  | None => VUndefined
  end.

(** [ToPropertyKey] of a string or [undefined]. *)
Definition to_key (o : option jsstring) : jsstring :=
  match o with
  | Some s => s
  | None => lit "undefined"
  end.

Definition start : Locals := {| pushed := []; made := 0 |}.

(** A call of a decoder: its result, or the exception that leaves it. *)
Definition call {A} (m : M A) : Exc A := fst (m start).

Infix "+++" := Seq (at level 60, right associativity).

Definition code_env_regex : regex :=
  tag_regex (lit "<code_env>") (lit "</code_env>").
Definition function_regex : regex :=
  Chars (lit "<function=") +++ Group 1 (Plus (not_char 62)) +++ Chars (lit ">").
Definition parameter_regex : regex :=
  Chars (lit "<parameter=") +++ Group 1 (Plus (not_char 62)) +++ Chars (lit ">")
  +++ Group 2 (Star (not_char 60)).
Definition mcp_env_regex : regex :=
  tag_regex (lit "<mcp_env>") (lit "</mcp_env>").
Definition function_call_regex : regex :=
  Chars (lit "<|FunctionCallBegin|>[") +++ Group 1 (LazyStar any_char)
  +++ Chars (lit "]<|FunctionCallEnd|>").
Definition computer_env_regex : regex :=
  tag_regex (lit "<computer_env>") (lit "</computer_env>").
Definition action_regex : regex :=
  Chars (lit "Action:") +++ Star is_white_space +++ Group 1 (Plus is_word_char)
  +++ Chars (lit "(") +++ Group 2 (Star (not_char 41)) +++ Chars (lit ")").
Definition point_regex : regex :=
  Chars (lit "point='<point>") +++ Group 1 (Plus (not_char 60))
  +++ Chars (lit "</point>'").
Definition point_erase_regex : regex :=
  Chars (lit "point='<point>") +++ Plus (not_char 60) +++ Chars (lit "</point>'").
Definition quotes_regex : regex :=
  Alt (Bol +++ Class is_quote) (Class is_quote +++ Eol).

(** The loop of [parseCodeContent] over the matches of the parameter
    pattern: [parameters[match[1]] = match[2]], from the empty object. *)
Definition code_parameters (codeEnvContent : jsstring) : props :=
  fold_left
    (fun parameters m => obj_set parameters (to_key (group m 1)) (to_val (group m 2)))
    (String_matchAll parameter_regex codeEnvContent) [].

(** [const [x, y] = l]: a missing element is [undefined]. *)
Definition element {A} (f : A -> jsval) (i : nat) (l : list A) : jsval :=
  match nth_error l i with
  | Some a => f a
  | None => VUndefined
  end.

(** [const [x, y] = p.split(' ').map(Number); parameters.point = { x, y }],
    on the empty object. *)
Definition point_parameter (p : jsstring) : props :=
  let xy := List.map Number (split 32 p) in
  obj_set [] (lit "point")
    (VObject [(lit "x", element VNumber 0 xy); (lit "y", element VNumber 1 xy)]).

(** The body of the loop of [parseComputerContent] over the remaining
    parameters. *)
Definition other_param (parameters : props) (param : jsstring) : props :=
  let trimmed := trim param in
  match trimmed with
  | [] => parameters
  | _ :: _ =>
      let parts := List.map trim (split 61 trimmed) in
      match nth_error parts 0, nth_error parts 1 with
      | Some ((_ :: _) as key), Some ((_ :: _) as value) =>
          obj_set parameters key (VString (String_replace_all quotes_regex value))
      | _, _ => parameters
      end
  end.

(** The loop itself, over the pieces of [actionParams] without its point. *)
Definition other_parameters (parameters : props) (actionParams : jsstring) : props :=
  fold_left other_param
    (split 44 (String_replace_first point_erase_regex actionParams)) parameters.

Section Decoders.
Variable float_toString : jsstring -> jsstring.
Variable entropy : Entropy.

Definition generateToolCallId : M jsstring :=
  fun st =>
    (Ok (lit "call_" ++ Number_toString_int (Date_now entropy (made st))
         ++ lit "_"
         ++ substring 2 11 (Math_random_toString36 entropy (made st))),
     {| pushed := pushed st; made := S (made st) |}).

Definition extractThinkContent (content : jsstring) : M jsstring :=
  match String_match think_regex content with
  | Some thinkMatch =>
      s <- receiver (group thinkMatch 1) ;; ret (trim s)
  | None => ret []
  end.

Definition extractAnswerContent (content : jsstring) : M jsstring :=
  match String_match answer_regex content with
  | Some answerMatch =>
      s <- receiver (group answerMatch 1) ;; ret (trim s)
  | None => ret []
  end.

(** [{ think, answer, ...(tools.length > 0 && { tools }) }] *)
Definition assemble (think answer : jsstring) : M ParsedContent :=
  tools <- read_tools ;;
  ret {| think := think;
         answer := answer;
         tools := match tools with
                  | [] => None
                  | _ :: _ => Some tools
                  end |}.

Definition tool_call (id : jsstring) (name : jsval) (parameters : jsval) : ToolCall :=
  {| id := id;
     type := lit "function";
     function := {| name := name;
                    arguments := JSON_stringify float_toString parameters |} |}.

(** The statements of [parseCodeContent] between the declaration of
    [tools] and the [return]. *)
Definition code_env_calls (content : jsstring) : M unit :=
  match String_match code_env_regex content with
  | Some codeEnvMatch =>
      codeEnvContent <- receiver (group codeEnvMatch 1) ;;
      match String_match function_regex codeEnvContent with
      | Some functionMatch =>
          let functionName := to_val (group functionMatch 1) in
          let parameters := code_parameters codeEnvContent in
          id <- generateToolCallId ;;
          push (tool_call id functionName (VObject parameters))
      | None => ret tt
      end
  | None => ret tt
  end.

Definition parseCodeContent (content : jsstring) : M ParsedContent :=
  think <- extractThinkContent content ;;
  answer <- extractAnswerContent content ;;
  code_env_calls content ;;;
  assemble think answer.

(** The body of the loop over the descriptors. *)
Definition mcp_call (c : jsval) : M unit :=
  n <- lift (get_prop c (lit "name")) ;;
  if truthy n then
    p <- lift (get_prop c (lit "parameters")) ;;
    if truthy p then
      id <- generateToolCallId ;;
      push (tool_call id n p)
    else ret tt
  else ret tt.

(** [for (const call of functionCallData)]: iterating a value that is not
    an array or a string throws; a string yields its characters. *)
Definition iterate (v : jsval) (body : jsval -> M unit) : M unit :=
  match v with
  | VArray l => for_of l body
  | VString s => for_of (List.map (fun c => VString [c]) s) body
  | _ => throw TypeError
  end.

Definition mcp_env_calls (content : jsstring) : M unit :=
  match String_match mcp_env_regex content with
  | Some mcpEnvMatch =>
      mcpEnvContent <- receiver (group mcpEnvMatch 1) ;;
      match String_match function_call_regex mcpEnvContent with
      | Some functionCallMatch =>
          try_catch
            (functionCallData <-
               lift (JSON_parse (lit "[" ++ to_key (group functionCallMatch 1)
                                 ++ lit "]")) ;;
             iterate functionCallData mcp_call)
      | None => ret tt
      end
  | None => ret tt
  end.

Definition parseMcpContent (content : jsstring) : M ParsedContent :=
  think <- extractThinkContent content ;;
  answer <- extractAnswerContent content ;;
  mcp_env_calls content ;;;
  assemble think answer.

Definition computer_env_calls (content : jsstring) : M unit :=
  match String_match computer_env_regex content with
  | Some computerEnvMatch =>
      s <- receiver (group computerEnvMatch 1) ;;
      let computerEnvContent := trim s in
      match String_match action_regex computerEnvContent with
      | Some actionMatch =>
          let actionName := to_val (group actionMatch 1) in
          actionParams <- receiver (group actionMatch 2) ;;
          withPoint <-
            match String_match point_regex actionParams with
            | Some pointMatch =>
                p <- receiver (group pointMatch 1) ;;
                ret (point_parameter p)
            | None => ret []
            end ;;
          let parameters := other_parameters withPoint actionParams in
          id <- generateToolCallId ;;
          push (tool_call id actionName (VObject parameters))
      | None => ret tt
      end
  | None => ret tt
  end.

Definition parseComputerContent (content : jsstring) : M ParsedContent :=
  think <- extractThinkContent content ;;
  answer <- extractAnswerContent content ;;
  computer_env_calls content ;;;
  assemble think answer.
End Decoders.

(** * The event loop of [sendStreamingQuery] *)

(** [s.indexOf(p)]: [None] is -1. *)
Fixpoint String_indexOf (p s : jsstring) : option nat :=
  match strip_prefix p s with
  | Some _ => Some 0
  | None =>
      match s with
      | _ :: t => option_map S (String_indexOf p t)
      | [] => None
      end
  end.

(** [s.slice(a, b)] and [s.slice(a)] for indices within the string. *)
Definition slice (a b : nat) (s : jsstring) : jsstring := firstn (b - a) (skipn a s).
Definition slice_from (a : nat) (s : jsstring) : jsstring := skipn a s.

(** [s.startsWith(p)] *)
Definition startsWith (p s : jsstring) : bool :=
  match strip_prefix p s with
  | Some _ => true
  | None => false
  end.

(** [s.substring(a)] *)
Definition substring_from (a : nat) (s : jsstring) : jsstring := skipn a s.

Definition blank_line : jsstring := [10; 10]%N.

Section Streaming.
(** The callback [onEvent] acts on a state of the caller and may throw. *)
Variable World : Type.
Variable onEvent : jsval -> World -> Exc unit * World.

(** The body of the inner loop behind the two [slice]s: an event that
    starts with [data: ] is parsed and handed to the callback; an exception
    of [JSON.parse] or of the callback is caught and logged. *)
Definition dispatch (eventString : jsstring) (st : World) : World :=
  if startsWith (lit "data: ") eventString then
    match JSON_parse (substring_from 6 eventString) with
    | Ok eventData => snd (onEvent eventData st)
    | Throw _ => st
    end
  else st.

(** [while ((eventEndIndex = buffer.indexOf('\n\n')) !== -1)]: the complete
    events of the buffer are processed; what is left is the new buffer. Every
    turn shortens the buffer, so [fuel] above its length is never used up. *)
Fixpoint drain (fuel : nat) (buffer : jsstring) (st : World) : jsstring * World :=
  match fuel with
  | 0 => (buffer, st)
  | S n =>
      match String_indexOf blank_line buffer with
      | Some eventEndIndex =>
          let eventString := slice 0 eventEndIndex buffer in
          drain n (slice_from (eventEndIndex + 2) buffer) (dispatch eventString st)
      | None => (buffer, st)
      end
  end.

(** The outer loop over the chunks that [reader.read()] yields until
    [done], each as the text [decoder.decode(value, { stream: true })]
    returns for it. *)
Fixpoint receive (chunks : list jsstring) (buffer : jsstring) (st : World) : jsstring * World :=
  match chunks with
  | [] => (buffer, st)
  | value :: rest =>
      let buffer' := buffer ++ value in
      let (buffer'', st') := drain (S (length buffer')) buffer' st in
      receive rest buffer'' st'
  end.

End Streaming.

(** * Notions of the statements

    Occurrences of a text in another, what a call of a decoder finds apart
    from the identifiers, the shapes of well-formed inputs, and the sample
    inputs of the statements below. *)

Unset Implicit Arguments.

(** ** Occurrences *)

(** The text before and after the first occurrence of [p] in [s]. *)
Fixpoint cut (p s : jsstring) : option (jsstring * jsstring) :=
  match strip_prefix p s with
  | Some rest => Some ([], rest)
  | None =>
      match s with
      | c :: t =>
          match cut p t with
          | Some (a, b) => Some (c :: a, b)
          | None => None
          end
      | [] => None
      end
  end.

(** [p] occurs in [a ++ p] at the end only: in [a ++ p ++ b] its first
    occurrence is the one after [a]. *)
Definition leftmost (p a : jsstring) : Prop :=
  forall x y, a ++ p = x ++ p ++ y -> x = a.

(** [p] occurs nowhere in [s]. *)
Definition absent (p s : jsstring) : Prop := forall a b, s <> a ++ p ++ b.

(** The text between the first opening tag and the first closing tag after
    it, when there is such a pair. *)
Definition tag_body (open close text : jsstring) : option jsstring :=
  match cut open text with
  | Some (_, rest) =>
      match cut close rest with
      | Some (body, _) => Some body
      | None => None
      end
  | None => None
  end.

(** The tag extractor of the specification: the trimmed content of the
    first [<tag>...</tag>], closed by the first closing tag; empty when there
    is no such pair. *)
Definition tag_content (open close text : jsstring) : jsstring :=
  match tag_body open close text with
  | Some body => trim body
  | None => []
  end.

(** The input is at its end or at a character outside the class. *)
Definition stops (p : char16 -> bool) (s : jsstring) : Prop :=
  match s with
  | [] => True
  | c :: _ => p c = false
  end.

(** The text is at its end or at a [<]. *)
Definition at_lt (s : jsstring) : Prop :=
  match s with
  | [] => True
  | c :: _ => c = 60%N
  end.

(** ** Groups *)

(** [cs'] keeps every group that [cs] has. *)
Definition extends (cs cs' : captures) : Prop :=
  forall j, capture j cs <> None -> capture j cs' <> None.

(** The groups that every match of a pattern sets. *)
Fixpoint binds (r : regex) : list nat :=
  match r with
  | Group i r' => i :: binds r'
  | Seq r1 r2 => binds r1 ++ binds r2
  | _ => []
  end.

(** ** What a call of a decoder finds and pushes *)

(** The identifier made from the k-th reading of the clock and of the
    random source. *)
Definition make_id (ent : Entropy) (k : nat) : jsstring :=
  lit "call_" ++ Number_toString_int (Date_now ent k) ++ lit "_"
  ++ substring 2 11 (Math_random_toString36 ent k).

(** One invocation is pushed: a name and the value of [parameters]. *)
Definition emit ft ent (st : Locals) (r : jsval * jsval) : Locals :=
  {| pushed := pushed st ++ [tool_call ft (make_id ent (made st)) (fst r) (snd r)];
     made := S (made st) |}.

Definition emit_all ft ent (rs : list (jsval * jsval)) (st : Locals) : Locals :=
  fold_left (emit ft ent) rs st.

(** The invocations pushed for a list of names and parameters, the first
    with the k-th identifier. *)
Fixpoint tools_from ft ent (k : nat) (rs : list (jsval * jsval)) : list ToolCall :=
  match rs with
  | [] => []
  | r :: t => tool_call ft (make_id ent k) (fst r) (snd r) :: tools_from ft ent (S k) t
  end.

(** The [tools] field: absent for an empty array. *)
Definition tools_field (l : list ToolCall) : option (list ToolCall) :=
  match l with
  | [] => None
  | _ :: _ => Some l
  end.

(** The invocations of a result. *)
Definition invocations (pc : ParsedContent) : list ToolCall :=
  match tools pc with
  | Some l => l
  | None => []
  end.

(** A result without the identifiers of its invocations. *)
Definition without_ids (pc : ParsedContent) :=
  (think pc, answer pc, option_map (List.map (fun t => (type t, function t))) (tools pc)).

(** The name and the parameters that [parseCodeContent] finds. *)
Definition code_env_found (content : jsstring) : list (jsval * jsval) :=
  match String_match code_env_regex content with
  | Some codeEnvMatch =>
      match group codeEnvMatch 1 with
      | Some codeEnvContent =>
          match String_match function_regex codeEnvContent with
          | Some functionMatch =>
              [(to_val (group functionMatch 1), VObject (code_parameters codeEnvContent))]
          | None => []
          end
      | None => []
      end
  | None => []
  end.

(** The descriptors of an array that the loop of [parseMcpContent] turns
    into invocations: it stops at the first [null], where the read of [name]
    throws. *)
Fixpoint descriptors (l : list jsval) : list (jsval * jsval) :=
  match l with
  | [] => []
  | c :: t =>
      match get_prop c (lit "name"), get_prop c (lit "parameters") with
      | Ok n, Ok p =>
          if truthy n && truthy p then (n, p) :: descriptors t else descriptors t
      | _, _ => []
      end
  end.

(** The names and the parameters that [parseMcpContent] finds. *)
Definition mcp_env_found (content : jsstring) : list (jsval * jsval) :=
  match String_match mcp_env_regex content with
  | Some mcpEnvMatch =>
      match group mcpEnvMatch 1 with
      | Some mcpEnvContent =>
          match String_match function_call_regex mcpEnvContent with
          | Some functionCallMatch =>
              match JSON_parse (lit "[" ++ to_key (group functionCallMatch 1) ++ lit "]") with
              | Ok (VArray l) => descriptors l
              | Ok (VString s) => descriptors (List.map (fun c => VString [c]) s)
              | _ => []
              end
          | None => []
          end
      | None => []
      end
  | None => []
  end.

(** The name and the parameters that [parseComputerContent] finds. *)
Definition computer_env_found (content : jsstring) : list (jsval * jsval) :=
  match String_match computer_env_regex content with
  | Some computerEnvMatch =>
      match group computerEnvMatch 1 with
      | Some s =>
          match String_match action_regex (trim s) with
          | Some actionMatch =>
              match group actionMatch 2 with
              | Some actionParams =>
                  let withPoint :=
                    match String_match point_regex actionParams with
                    | Some pointMatch =>
                        match group pointMatch 1 with
                        | Some p => point_parameter p
                        | None => []
                        end
                    | None => []
                    end in
                  [(to_val (group actionMatch 1),
                    VObject (other_parameters withPoint actionParams))]
              | None => []
              end
          | None => []
          end
      | None => []
      end
  | None => []
  end.

(** The result of a decoder that found [found]. *)
Definition result ft ent (content : jsstring) (found : list (jsval * jsval)) : ParsedContent :=
  {| think := tag_content think_open think_close content;
     answer := tag_content (lit "<answer>") (lit "</answer>") content;
     tools := tools_field (tools_from ft ent 0 found) |}.

(** ** The tool environment *)

(** The sentinels around the payload, with the brackets of the array. *)
Definition call_begin : jsstring := lit "<|FunctionCallBegin|>[".
Definition call_end : jsstring := lit "]<|FunctionCallEnd|>".

(** The value of a property of a descriptor that is not [null]. *)
Definition field (d : jsval) (k : jsstring) : jsval :=
  match d with
  | VObject o => lookup_prop k o
  | _ => VUndefined
  end.

Definition is_nullish (d : jsval) : bool :=
  match d with
  | VNull | VUndefined => true
  | _ => false
  end.

(** The guard [call.name && call.parameters]. *)
Definition accepted (d : jsval) : bool :=
  truthy (field d (lit "name")) && truthy (field d (lit "parameters")).

(** ** The code environment *)

Definition parameter_open : jsstring := lit "<parameter=".

(** A parameter marker followed by its value. *)
Definition marker (kv : jsstring * jsstring) : jsstring :=
  parameter_open ++ fst kv ++ lit ">" ++ snd kv.

(** A key without [>] and a value without [<]. *)
Definition plain (kv : jsstring * jsstring) : bool :=
  match fst kv with [] => false | _ :: _ => true end
  && forallb (not_char 62) (fst kv) && forallb (not_char 60) (snd kv).

(** [parameters[k] = v] for a key [k] and a string [v]. *)
Definition store (o : props) (kv : jsstring * jsstring) : props :=
  obj_set o (fst kv) (VString (snd kv)).

(** The arguments mapping of the specification: the value goes to the place
    of the key if the mapping has it, to the end otherwise. First-seen order,
    the last value of a key. *)
Definition put (o : props) (kv : jsstring * jsstring) : props :=
  if has_prop (fst kv) o then update_prop (fst kv) (VString (snd kv)) o
  else o ++ [(fst kv, VString (snd kv))].

Definition first_seen (kvs : list (jsstring * jsstring)) : props :=
  fold_left put kvs [].

(** Neither an array index nor [__proto__]. *)
Definition ordinary_key (k : jsstring) : bool :=
  negb (str_eqb k (lit "__proto__"))
  && match array_index k with Some _ => false | None => true end.

(** ** The pointer environment *)

(** A text without one quote at its end, if it ends with one. *)
Definition strip_last (w : jsstring) : jsstring :=
  match rev w with
  | d :: t => if is_quote d then rev t else w
  | [] => []
  end.

(** A text without one leading and one trailing quote, where it has them. *)
Definition strip_quotes (v : jsstring) : jsstring :=
  match v with
  | c :: t => if is_quote c then strip_last t else strip_last v
  | [] => []
  end.

(** A non-empty run of decimal digits, and its value. *)
Definition natural_literal (s : jsstring) : option Z :=
  match s with
  | [] => None
  | _ :: _ =>
      if forallb is_digit s then Some (digits_value 10 decimal_digit s) else None
  end.

(** The same behind an optional minus sign. *)
Definition integer_literal (s : jsstring) : option Z :=
  match s with
  | c :: u =>
      if (c =? 45)%N then option_map Z.opp (natural_literal u) else natural_literal s
  | [] => None
  end.

Definition point_open : jsstring := lit "point='<point>".
Definition point_close : jsstring := lit "</point>'".

(** The point argument with the coordinates [X] and [Y] as written. *)
Definition point_argument (X Y : jsstring) : jsstring :=
  point_open ++ (X ++ lit " " ++ Y) ++ point_close.

(** Not empty, no white space at either end. *)
Definition bare (s : jsstring) : bool :=
  match s with
  | [] => false
  | c :: t => negb (is_white_space c) && negb (is_white_space (last t c))
  end.

(** An argument of an action as written between two commas: [K=V], the
    point literal with the text before and behind it, or a text without an
    equals sign. *)
Inductive argument :=
| Assign (K V : jsstring)
| Point (before X Y after : jsstring)
| Positional (T : jsstring).

(** The argument as written. *)
Definition argument_text (a : argument) : jsstring :=
  match a with
  | Assign K V => K ++ lit "=" ++ V
  | Point before X Y after => before ++ point_argument X Y ++ after
  | Positional T => T
  end.

(** The argument holds the point literal. *)
Definition is_point (a : argument) : bool :=
  match a with
  | Point _ _ _ _ => true
  | _ => false
  end.

(** The text holds the opening of a point argument. *)
Definition opens_point (s : jsstring) : bool :=
  match cut point_open s with
  | Some _ => true
  | None => false
  end.

(** A decimal integer of the safe range. *)
Definition safe_integer (s : jsstring) : bool :=
  match integer_literal s with
  | Some z => (Z.abs z <=? 2 ^ 53)%Z
  | None => false
  end.

(** Neither a comma nor an equals sign. *)
Definition unbroken (s : jsstring) : bool :=
  forallb (not_char 44) s && forallb (not_char 61) s.

(** Not only white space. *)
Definition has_text (s : jsstring) : bool :=
  match trim s with
  | [] => false
  | _ :: _ => true
  end.

(** In [K=V] neither side has a comma or a second equals sign, neither is
    blank, the key is neither an array index nor [__proto__], and the text
    does not open a point; the coordinates of a point are decimal integers
    of the safe range, and the text around it has neither a comma nor an
    equals sign; a text without a key has no comma. *)
Definition well_formed (a : argument) : bool :=
  match a with
  | Assign K V =>
      unbroken K && unbroken V && has_text K && has_text V
      && ordinary_key (trim K)
      && negb (opens_point (K ++ lit "=" ++ V))
  | Point before X Y after =>
      unbroken before && unbroken after && safe_integer X && safe_integer Y
  | Positional T => unbroken T
  end.

(** The value of a coordinate as written. *)
Definition coordinate (s : jsstring) : jsval :=
  match integer_literal s with
  | Some z => VNumber (Int z)
  | None => VUndefined
  end.

(** What an argument contributes: a point its two coordinates under
    [point], [K=V] the trimmed value without its quotes under the trimmed
    key, anything else nothing. *)
Definition point_value (a : argument) : props :=
  match a with
  | Point _ X Y _ =>
      [(lit "point", VObject [(lit "x", coordinate X); (lit "y", coordinate Y)])]
  | _ => []
  end.

Definition assigned (a : argument) : list (jsstring * jsstring) :=
  match a with
  | Assign K V => [(trim K, strip_quotes (trim V))]
  | _ => []
  end.

(** The arguments mapping of a list of arguments: the point first, then
    the assignments in first-seen order. *)
Definition decoded_arguments (items : list argument) : props :=
  fold_left put (flat_map assigned items) (flat_map point_value items).

(** The same keys in the same order, with values of the same JSON text. *)
Definition same_text (ft : jsstring -> jsstring) (o1 o2 : props) : Prop :=
  Forall2 (fun a b => fst a = fst b /\ serialize ft (snd a) = serialize ft (snd b)) o1 o2.

(** Empty, or without white space at either end. *)
Definition clipped (s : jsstring) : Prop := s = [] \/ bare s = true.

(** The pointer-environment decoder emits one invocation with the name of
    the action and the JSON text of [parameters] as arguments. *)
Definition decoded_as ft ent (content : jsstring) (am : MatchResult) (parameters : props) : Prop :=
  exists pc t,
    call (parseComputerContent ft ent content) = Ok pc
    /\ invocations pc = [t]
    /\ name (function t) = to_val (group am 1)
    /\ arguments (function t) = JSON_stringify ft (VObject parameters).

(** ** Sample inputs *)

(** In the samples no double needs rendering: the literal stands for
    itself. *)
Definition literal_text (src : jsstring) : jsstring := src.

(** A clock that starts at 1700000000000 and a random source that yields
    0.4fzyo82mvyr in radix 36. *)
Definition sample_entropy : Entropy :=
  {| Date_now := fun k => (1700000000000 + Z.of_nat k)%Z;
     Math_random_toString36 := fun _ => lit "0.4fzyo82mvyr" |}.

(** The same clock with a random source that yields one half: [0.i]. *)
Definition half_entropy : Entropy :=
  {| Date_now := fun k => (1700000000000 + Z.of_nat k)%Z;
     Math_random_toString36 := fun _ => lit "0.i" |}.

(** The code-environment example of the specification. *)
Definition run_ls : jsstring :=
  lit "<code_env><function=run><parameter=cmd>ls -la</code_env>".

Definition run_ls_call : ToolCall :=
  {| id := lit "call_1700000000000_4fzyo82mv";
     type := lit "function";
     function := {| name := VString (lit "run");
                    arguments := VString (jq "{`cmd`:`ls -la`}") |} |}.

Definition run_ls_result : ParsedContent :=
  {| think := []; answer := []; tools := Some [run_ls_call] |}.

(** The result of the code-environment decoder with one call of [run]. *)
Definition code_call (args : jsstring) : ParsedContent :=
  {| think := []; answer := [];
     tools := Some [{| id := lit "call_1700000000000_4fzyo82mv";
                       type := lit "function";
                       function := {| name := VString (lit "run");
                                      arguments := VString args |} |}] |}.

(** Three markers, two of them for the same key. *)
Definition three_markers : list (jsstring * jsstring) :=
  [(lit "cmd", lit " ls -la "); (lit "cwd", lit "/tmp"); (lit "cmd", lit "pwd ")].

Definition three_markers_region : jsstring :=
  lit "<function=run>" ++ concat (List.map marker three_markers).

Definition three_markers_content : jsstring :=
  lit "<code_env>" ++ three_markers_region ++ lit "</code_env>".

(** An input of the tool environment with two descriptors. *)
Definition two_calls : jsstring :=
  jq "<mcp_env><|FunctionCallBegin|>[{`name`:`search`,`parameters`:{`q`:`rocq`}},{`name`:`open`,`parameters`:{`n`:1}}]<|FunctionCallEnd|></mcp_env>".

(** One well-formed descriptor and one without [parameters]. *)
Definition partial_payload : jsstring :=
  jq "{`name`:`search`,`parameters`:{`q`:`rocq`}},{`name`:`open`}".

Definition partial_region : jsstring :=
  lit "<|FunctionCallBegin|>[" ++ partial_payload ++ lit "]<|FunctionCallEnd|>".

Definition partial_success : jsstring :=
  lit "<mcp_env>" ++ partial_region ++ lit "</mcp_env>".

Definition partial_array : list jsval :=
  [VObject [(lit "name", VString (lit "search"));
            (lit "parameters", VObject [(lit "q", VString (lit "rocq"))])];
   VObject [(lit "name", VString (lit "open"))]].

(** A descriptor with both fields, the parameters being the number 0. *)
Definition zero_parameters : jsstring :=
  jq "<mcp_env><|FunctionCallBegin|>[{`name`:`ping`,`parameters`:0}]<|FunctionCallEnd|></mcp_env>".

(** The pointer-environment example of the specification with two
    arguments. *)
Definition type_hello : jsstring :=
  lit "<computer_env>Action: type(point='<point>10 20</point>', text='hello')</computer_env>".

Definition type_hello_region : jsstring :=
  lit "Action: type(point='<point>10 20</point>', text='hello')".

Definition type_hello_args : jsstring :=
  lit "point='<point>10 20</point>', text='hello'".

Definition type_hello_match : MatchResult :=
  {| index := 0;
     whole := type_hello_region;
     groups := [(2, type_hello_args); (1, lit "type")] |}.

(** The result of the pointer-environment decoder with one call. *)
Definition pointer_call (action args : jsstring) : ParsedContent :=
  {| think := []; answer := [];
     tools := Some [{| id := lit "call_1700000000000_4fzyo82mv";
                       type := lit "function";
                       function := {| name := VString action;
                                      arguments := VString args |} |}] |}.

(** The arguments of [type_hello]. *)
Definition type_hello_items : list argument :=
  [Point [] (lit "10") (lit "20") []; Assign (lit " text") (lit "'hello'")].

(** A point behind an assignment, spaces around the equals sign and the
    commas, a negative zero, an argument without a key and a key that is no
    word. *)
Definition mixed_items : list argument :=
  [Assign (lit "text ") (lit " 'hello' "); Point (lit " ") (lit "10") (lit "-0") [];
   Positional (lit " now"); Assign (lit "my-key") (lit "v")].

Definition mixed_arguments : jsstring :=
  lit "<computer_env>Action: type(text = 'hello' , point='<point>10 -0</point>', now,my-key=v)</computer_env>".

(** ** Notions of the further properties *)

(** The three environments and their decoders. *)
Inductive environment := CodeEnv | McpEnv | ComputerEnv.

Definition decoder (env : environment) ft ent : jsstring -> M ParsedContent :=
  match env with
  | CodeEnv => parseCodeContent ft ent
  | McpEnv => parseMcpContent ft ent
  | ComputerEnv => parseComputerContent ft ent
  end.

Definition env_open (env : environment) : jsstring :=
  match env with
  | CodeEnv => lit "<code_env>"
  | McpEnv => lit "<mcp_env>"
  | ComputerEnv => lit "<computer_env>"
  end.

Definition env_close (env : environment) : jsstring :=
  match env with
  | CodeEnv => lit "</code_env>"
  | McpEnv => lit "</mcp_env>"
  | ComputerEnv => lit "</computer_env>"
  end.

Definition env_found (env : environment) : jsstring -> list (jsval * jsval) :=
  match env with
  | CodeEnv => code_env_found
  | McpEnv => mcp_env_found
  | ComputerEnv => computer_env_found
  end.

Definition function_open : jsstring := lit "<function=".

(** Nothing or a text that starts with [<], without the opening of a
    parameter marker. *)
Definition quiet (j : jsstring) : bool :=
  match j with [] => true | c :: _ => (c =? 60)%N end
  && match cut parameter_open j with None => true | Some _ => false end.

(** A marker, its value and the text up to the next marker. *)
Definition segment (s : (jsstring * jsstring) * jsstring) : jsstring :=
  marker (fst s) ++ snd s.

Definition well_marked (s : (jsstring * jsstring) * jsstring) : bool :=
  plain (fst s) && quiet (snd s).

(** [Action:], white space, the name, and the arguments in parentheses. *)
Definition action_line (ws NAME ARGS : jsstring) : jsstring :=
  lit "Action:" ++ ws ++ NAME ++ lit "(" ++ ARGS ++ lit ")".

Definition decimal_step (a : Z) (c : char16) : Z := (10 * a + decimal_digit c)%Z.

(** [k] may stand before [k'] in an object: array indices in numeric
    order, then the other keys. *)
Definition key_before (k k' : jsstring) : Prop :=
  match array_index k, array_index k' with
  | Some n, Some n' => (n <= n')%Z
  | Some _, None => True
  | None, Some _ => False
  | None, None => True
  end.

(** The keys are distinct and in property order. *)
Fixpoint proper (o : props) : Prop :=
  match o with
  | [] => True
  | kv :: t =>
      has_prop (fst kv) t = false
      /\ Forall (fun x => key_before (fst kv) (fst x)) t
      /\ proper t
  end.

Definition string_valued (o : props) : Prop :=
  Forall (fun kv => exists s, snd kv = VString s) o.

Definition key_beforeb (k k' : jsstring) : bool :=
  match array_index k, array_index k' with
  | Some n, Some n' => (n <=? n')%Z
  | Some _, None => true
  | None, Some _ => false
  | None, None => true
  end.

(** The keys are distinct and in property order. *)
Fixpoint properb (o : props) : bool :=
  match o with
  | [] => true
  | kv :: t =>
      negb (has_prop (fst kv) t)
      && forallb (fun x => key_beforeb (fst kv) (fst x)) t
      && properb t
  end.

(** Strings, booleans, [null], integers of the safe range other than the
    negative zero, and arrays and objects of such values, the objects in
    property order. *)
Fixpoint json_clean (v : jsval) : bool :=
  match v with
  | VUndefined => false
  | VNull | VBool _ | VString _ => true
  | VNumber (Int z) => (Z.abs z <=? 2 ^ 53)%Z
  | VNumber _ => false
  | VArray l => forallb json_clean l
  | VObject o => properb o && forallb (fun kv => json_clean (snd kv)) o
  end.

(** Token lists separated by commas. *)
Definition separated (l : list (list token)) : list token :=
  match l with
  | [] => []
  | a :: t => a ++ concat (List.map (fun b => TComma :: b) t)
  end.

(** The tokens of the JSON text of a value. *)
Fixpoint json_tokens (v : jsval) : list token :=
  match v with
  | VString s => [TString s]
  | VArray l => TLBracket :: separated (List.map json_tokens l) ++ [TRBracket]
  | VObject o =>
      TLBrace
      :: separated (List.map (fun kv => TString (fst kv) :: TColon :: json_tokens (snd kv)) o)
      ++ [TRBrace]
  | _ => [TValue v]
  end.

(** The end of the text, or a comma, a closing bracket or a closing brace. *)
Definition delimited (rest : jsstring) : Prop :=
  match rest with
  | [] => True
  | c :: _ => c = 44%N \/ c = 93%N \/ c = 125%N
  end.

(** The text of an element of an array. *)
Definition element_text (ft : jsstring -> jsstring) (x : jsval) : jsstring :=
  match serialize ft x with
  | Some s => s
  | None => lit "null"
  end.

(** The text of a property of an object. *)
Definition member_text (ft : jsstring -> jsstring) (kv : jsstring * jsval) : jsstring :=
  QuoteJSONString (fst kv) ++ lit ":" ++ element_text ft (snd kv).

Definition member_tokens (kv : jsstring * jsval) : list token :=
  TString (fst kv) :: TColon :: json_tokens (snd kv).

(** The lexer turns the text of the value, in front of a delimiter, into
    its tokens. *)
Definition reads_back (ft : jsstring -> jsstring) (v : jsval) : Prop :=
  exists s, serialize ft v = Some s
            /\ forall toks rest,
                delimited rest ->
                lex_from (LDefault, toks) (s ++ rest)
                = lex_from (LDefault, rev (json_tokens v) ++ toks) rest.

(** The parser turns the tokens of a value into that value. *)
Definition parses_back (v : jsval) : Prop :=
  forall stack rest,
    parse_from (PValue stack) (json_tokens v ++ rest) = parse_from (reduce v stack) rest.

(** What [JSON.parse] returns: no [undefined] and no NaN, integers within
    the safe range, objects in property order. *)
Fixpoint json_parsed (v : jsval) : bool :=
  match v with
  | VUndefined => false
  | VNull | VBool _ | VString _ => true
  | VNumber (Int z) => (Z.abs z <=? 2 ^ 53)%Z
  | VNumber NaN => false
  | VNumber _ => true
  | VArray l => forallb json_parsed l
  | VObject o => properb o && forallb (fun kv => json_parsed (snd kv)) o
  end.

(** Every number in the value is an integer of the safe range other than
    the negative zero. *)
Fixpoint integral (v : jsval) : bool :=
  match v with
  | VNumber (Int _) => true
  | VNumber _ => false
  | VArray l => forallb integral l
  | VObject o => forallb (fun kv => integral (snd kv)) o
  | _ => true
  end.

Definition token_ok (t : token) : Prop :=
  match t with
  | TValue v => json_parsed v = true
  | _ => True
  end.

Definition values_ok (o : props) : Prop :=
  Forall (fun kv => json_parsed (snd kv) = true) o.

Definition frame_ok (f : frame) : Prop :=
  match f with
  | FArray items => Forall (fun v => json_parsed v = true) items
  | FObject o _ => proper o /\ values_ok o
  end.

Definition state_ok (st : pstate) : Prop :=
  match st with
  | PValue stack | PArrayStart stack | PObjectStart stack => Forall frame_ok stack
  | PArrayNext items stack =>
      Forall (fun v => json_parsed v = true) items /\ Forall frame_ok stack
  | PKey o stack | PColon o _ stack | PObjectNext o stack =>
      (proper o /\ values_ok o) /\ Forall frame_ok stack
  | PDone v => json_parsed v = true
  end.

(** The object [parameters] of [parseComputerContent] for the arguments of
    an action. *)
Definition pointer_parameters (actionParams : jsstring) : props :=
  other_parameters
    match String_match point_regex actionParams with
    | Some pointMatch =>
        match group pointMatch 1 with
        | Some p => point_parameter p
        | None => []
        end
    | None => []
    end
    actionParams.

(** The arguments hold no point, or a point whose first two coordinates
    are integers of the safe range, neither of them the negative zero. *)
Definition whole_coordinates (actionParams : jsstring) : bool :=
  match String_match point_regex actionParams with
  | Some pointMatch =>
      match group pointMatch 1 with
      | Some p =>
          match List.map Number (split 32 p) with
          | Int x :: Int y :: _ => ((Z.abs x <=? 2 ^ 53) && (Z.abs y <=? 2 ^ 53))%Z
          | _ => false
          end
      | None => true
      end
  | None => true
  end.

Definition clean_props (o : props) : Prop :=
  proper o /\ Forall (fun kv => json_clean (snd kv) = true) o.

(** The buffer and the state after the inner loop. *)
Definition drained {World} (onEvent : jsval -> World -> Exc unit * World)
           (buffer : jsstring) (st : World) : jsstring * World :=
  drain onEvent (S (length buffer)) buffer st.

(** An event followed by the blank line that ends it. *)
Definition event_frame (eventString : jsstring) : jsstring := eventString ++ blank_line.

(** ** Further sample inputs *)

(** An action line behind other text, the name on the next line. *)
Definition scroll_down : jsstring :=
  lit "<computer_env> then Action:" ++ [10; 32]%N
  ++ lit "scroll(direction='down') done </computer_env>".

Definition scroll_down_region : jsstring :=
  lit " then Action:" ++ [10; 32]%N ++ lit "scroll(direction='down') done ".

(** Reasoning, a pointer action without arguments and an answer. *)
Definition look_first : jsstring :=
  think_open ++ lit " look first " ++ think_close
  ++ lit "<computer_env>Action: wait()</computer_env><answer> ok </answer>".

Definition look_first_result : ParsedContent :=
  {| think := lit "look first"; answer := lit "ok";
     tools := Some [{| id := lit "call_1700000000000_4fzyo82mv";
                       type := lit "function";
                       function := {| name := VString (lit "wait");
                                      arguments := VString (lit "{}") |} |}] |}.

(** An answer that holds a second closing tag. *)
Definition answer_twice_closed : jsstring := lit "<answer>a</answer>b</answer>".

(** The example [run_ls] between other texts. *)
Definition run_ls_embedded : jsstring :=
  lit "I will list the files. " ++ run_ls ++ lit " <code_env><function=other></code_env>".

(** A [null] between two descriptors. *)
Definition null_between_payload : jsstring :=
  jq "{`name`:`search`,`parameters`:{`q`:`rocq`}},null,{`name`:`open`,`parameters`:{`n`:1}}".

Definition null_between_region : jsstring :=
  lit "<|FunctionCallBegin|>[" ++ null_between_payload ++ lit "]<|FunctionCallEnd|>".

Definition null_between : jsstring :=
  lit "<mcp_env>" ++ null_between_region ++ lit "</mcp_env>".

Definition search_descriptor : jsval :=
  VObject [(lit "name", VString (lit "search"));
           (lit "parameters", VObject [(lit "q", VString (lit "rocq"))])].

Definition open_descriptor : jsval :=
  VObject [(lit "name", VString (lit "open"));
           (lit "parameters", VObject [(lit "n", VNumber (Int 1))])].

(** Two function markers, a parameter before the first of them, and a
    value that holds a [<]. *)
Definition scattered_region : jsstring :=
  lit "<parameter=path>/tmp<function=read><parameter=mode>r<b><function=write>".

Definition scattered : jsstring :=
  lit "<code_env>" ++ scattered_region ++ lit "</code_env>".

Definition scattered_segments : list ((jsstring * jsstring) * jsstring) :=
  [((lit "path", lit "/tmp"), lit "<function=read>");
   ((lit "mode", lit "r"), lit "<b><function=write>")].

(** An action with positional arguments. *)
Definition hotkey : jsstring :=
  lit "<computer_env>Action: hotkey(ctrl, c)</computer_env>".

Definition hotkey_match : MatchResult :=
  {| index := 0;
     whole := lit "Action: hotkey(ctrl, c)";
     groups := [(2, lit "ctrl, c"); (1, lit "hotkey")] |}.

(** A drag whose first argument is [start_point]. *)
Definition drag_start : jsstring :=
  lit "<computer_env>Action: drag(start_point='<point>10 20</point>')</computer_env>".

Definition drag_start_region : jsstring :=
  lit "Action: drag(start_point='<point>10 20</point>')".

Definition drag_start_match : MatchResult :=
  {| index := 0;
     whole := drag_start_region;
     groups := [(2, lit "start_point='<point>10 20</point>'"); (1, lit "drag")] |}.

(** A point with one coordinate. *)
Definition click_half : jsstring :=
  lit "<computer_env>Action: click(point='<point>100</point>')</computer_env>".

Definition click_half_region : jsstring :=
  lit "Action: click(point='<point>100</point>')".

Definition click_half_match : MatchResult :=
  {| index := 0;
     whole := click_half_region;
     groups := [(2, lit "point='<point>100</point>'"); (1, lit "click")] |}.

(** The two invocations of [two_calls] with the clock of [sample_entropy],
    which advances between them. *)
Definition search_call : ToolCall :=
  {| id := lit "call_1700000000000_4fzyo82mv";
     type := lit "function";
     function := {| name := VString (lit "search");
                    arguments := VString (jq "{`q`:`rocq`}") |} |}.

Definition open_call : ToolCall :=
  {| id := lit "call_1700000000001_4fzyo82mv";
     type := lit "function";
     function := {| name := VString (lit "open");
                    arguments := VString (jq "{`n`:1}") |} |}.

Definition two_calls_result : ParsedContent :=
  {| think := []; answer := []; tools := Some [search_call; open_call] |}.

(** A callback that records the events it is given and rejects the
    number 0. *)
Definition record_event (v : jsval) (seen : list jsval) : Exc unit * list jsval :=
  match v with
  | VNumber (Int 0) => (Throw TypeError, seen)
  | _ => (Ok tt, seen ++ [v])
  end.

(** Four complete events, of which the second is no JSON text, the third
    is rejected by the callback, and an unfinished one, in three chunks that
    cut through an event and through a blank line. *)
Definition stream_events : list jsstring :=
  [jq "data: {`n`:1}"; lit "data: {oops"; lit "data: 0"; lit "data: true"].

Definition stream_chunks : list jsstring :=
  [jq "data: {`n`"; jq ":1}" ++ [10; 10]%N ++ lit "data: {oops" ++ [10]%N;
   [10]%N ++ lit "data: 0" ++ [10; 10]%N ++ lit "data: true" ++ [10; 10]%N
   ++ lit "data: 2"].

(** The region and the payload of [two_calls]. *)
Definition two_calls_payload : jsstring :=
  jq "{`name`:`search`,`parameters`:{`q`:`rocq`}},{`name`:`open`,`parameters`:{`n`:1}}".

Definition two_calls_region : jsstring :=
  lit "<|FunctionCallBegin|>[" ++ two_calls_payload ++ lit "]<|FunctionCallEnd|>".

(** * Properties *)

Lemma str_eqb_eq a b : str_eqb a b = true <-> a = b.
Proof.
  unfold str_eqb. destruct (list_eq_dec N.eq_dec a b); split; congruence.
Qed.

(** ** The matcher *)

Lemma extends_refl cs : extends cs cs.
Proof. intros j H; exact H. Qed.

Lemma extends_trans a b c : extends a b -> extends b c -> extends a c.
Proof. intros H1 H2 j H; auto. Qed.

Lemma extends_cons cs i s : extends cs ((i, s) :: cs).
Proof.
  intros j H. simpl. destruct (Nat.eqb j i); [discriminate | exact H].
Qed.

Lemma strip_prefix_app p s rest :
  strip_prefix p s = Some rest <-> s = p ++ rest.
Proof.
  revert s; induction p as [|a p IH]; intros s; simpl.
  - split; [intros [= ->] | intros ->]; reflexivity.
  - destruct s as [|b s].
    + split; [discriminate | intros [=]].
    + destruct (N.eqb_spec a b) as [->|Hne].
      * rewrite IH. split; [intros -> | intros [= ->]]; reflexivity.
      * split; [discriminate | intros [= E _]; congruence].
Qed.

Lemma strip_prefix_skipn p s rest :
  strip_prefix p s = Some rest -> rest = skipn (length p) s.
Proof.
  intros H. apply strip_prefix_app in H. subst s.
  rewrite skipn_app, skipn_all, Nat.sub_diag. reflexivity.
Qed.

Section MatcherFacts.
Variable A : Type.

Lemma greedy_some p (k : nat -> jsstring -> option A) pos inp x :
  greedy p k pos inp = Some x ->
  exists n, n <= length inp /\ forallb p (firstn n inp) = true
            /\ k (pos + n) (skipn n inp) = Some x.
Proof.
  revert pos; induction inp as [|c t IH]; intros pos; simpl.
  - intros H. exists 0. rewrite Nat.add_0_r. auto.
  - destruct (p c) eqn:Hp.
    + destruct (greedy p k (S pos) t) eqn:Hg.
      * intros [= ->]. destruct (IH _ Hg) as (n & Hn & Hall & Hk).
        exists (S n). simpl. rewrite Hp, Hall.
        replace (pos + S n) with (S pos + n) by lia.
        repeat split; [lia | exact Hk].
      * intros H. exists 0. rewrite Nat.add_0_r. simpl. repeat split; [lia | exact H].
    + intros H. exists 0. rewrite Nat.add_0_r. simpl. repeat split; [lia | exact H].
Qed.

Lemma lazy_some p (k : nat -> jsstring -> option A) pos inp x :
  lazy p k pos inp = Some x ->
  exists n, n <= length inp /\ forallb p (firstn n inp) = true
            /\ k (pos + n) (skipn n inp) = Some x.
Proof.
  revert pos; induction inp as [|c t IH]; intros pos; simpl.
  - destruct (k pos []) eqn:Hk; [|discriminate].
    intros [= ->]. exists 0. rewrite Nat.add_0_r. auto.
  - destruct (k pos (c :: t)) eqn:Hk.
    + intros [= ->]. exists 0. rewrite Nat.add_0_r. simpl.
      repeat split; [lia | exact Hk].
    + destruct (p c) eqn:Hp; [|discriminate].
      intros H. destruct (IH _ H) as (n & Hn & Hall & Hk').
      exists (S n). simpl. rewrite Hp, Hall.
      replace (pos + S n) with (S pos + n) by lia.
      repeat split; [lia | exact Hk'].
Qed.

(** A successful run consumed a prefix of the input, kept the groups it
    was given and set the groups the pattern binds. *)
Lemma run_some r : forall pos inp cs (k : nat -> jsstring -> captures -> option A) x,
  run r pos inp cs k = Some x ->
  exists n cs', n <= length inp /\ extends cs cs'
                /\ (forall i, In i (binds r) -> capture i cs' <> None)
                /\ k (pos + n) (skipn n inp) cs' = Some x.
Proof.
  induction r as [s|p|p|p|p|i r IH|r1 IH1 r2 IH2|r1 IH1 r2 IH2| |];
    intros pos inp cs k x; simpl.
  - destruct (strip_prefix s inp) as [rest|] eqn:Hs; [|discriminate].
    intros H. pose proof (strip_prefix_skipn _ _ _ Hs) as Hr.
    apply strip_prefix_app in Hs.
    exists (length s), cs. rewrite <- Hr.
    split; [|split; [|split]]; auto using extends_refl.
    rewrite Hs, length_app. lia.
  - destruct inp as [|c t]; [discriminate|].
    destruct (p c); [|discriminate]. intros H.
    exists 1, cs. replace (pos + 1) with (S pos) by lia. simpl.
    split; [|split; [|split]]; auto using extends_refl; lia.
  - intros H. destruct (greedy_some _ _ _ _ _ H) as (n & Hn & _ & Hk).
    exists n, cs.
    split; [|split; [|split]]; auto using extends_refl.
  - destruct inp as [|c t]; [discriminate|].
    destruct (p c); [|discriminate]. intros H.
    destruct (greedy_some _ _ _ _ _ H) as (n & Hn & _ & Hk).
    exists (S n), cs. replace (pos + S n) with (S pos + n) by lia. simpl.
    split; [|split; [|split]]; auto using extends_refl; lia.
  - intros H. destruct (lazy_some _ _ _ _ _ H) as (n & Hn & _ & Hk).
    exists n, cs.
    split; [|split; [|split]]; auto using extends_refl.
  - intros H. destruct (IH _ _ _ _ _ H) as (n & cs' & Hn & Hext & Hb & Hk).
    exists n, ((i, firstn (pos + n - pos) inp) :: cs').
    split; [|split; [|split]]; auto.
    + eapply extends_trans; [exact Hext | apply extends_cons].
    + intros j [<-|Hj]; simpl.
      * rewrite Nat.eqb_refl. discriminate.
      * destruct (Nat.eqb j i); [discriminate | auto].
  - intros H. destruct (IH1 _ _ _ _ _ H) as (n1 & cs1 & Hn1 & Hext1 & Hb1 & Hk1).
    destruct (IH2 _ _ _ _ _ Hk1) as (n2 & cs2 & Hn2 & Hext2 & Hb2 & Hk2).
    rewrite length_skipn in Hn2.
    exists (n1 + n2), cs2. split; [|split; [|split]].
    + lia.
    + eapply extends_trans; eauto.
    + intros i Hi. apply in_app_or in Hi. destruct Hi as [Hi|Hi]; auto.
    + rewrite skipn_skipn in Hk2.
      replace (pos + (n1 + n2)) with (pos + n1 + n2) by lia.
      replace (n1 + n2) with (n2 + n1) by lia. exact Hk2.
  - destruct (run r1 pos inp cs k) eqn:H1.
    + intros [= ->]. destruct (IH1 _ _ _ _ _ H1) as (n & cs' & Hn & Hext & _ & Hk).
      exists n, cs'. split; [|split; [|split]]; auto.
    + intros H. destruct (IH2 _ _ _ _ _ H) as (n & cs' & Hn & Hext & _ & Hk).
      exists n, cs'. split; [|split; [|split]]; auto.
  - destruct (Nat.eqb pos 0); [|discriminate]. intros H.
    exists 0, cs. rewrite Nat.add_0_r. simpl.
    split; [|split; [|split]]; auto using extends_refl; lia.
  - destruct inp; [|discriminate]. intros H.
    exists 0, cs. rewrite Nat.add_0_r. simpl.
    split; [|split; [|split]]; auto using extends_refl.
Qed.
End MatcherFacts.

Lemma match_at_binds r pos inp m i :
  match_at r pos inp = Some m -> In i (binds r) -> capture i (groups m) <> None.
Proof.
  unfold match_at. destruct (run r pos inp [] accept) as [[e cs]|] eqn:H; [|discriminate].
  intros [= <-] Hi. simpl.
  destruct (run_some _ _ _ _ _ _ _ H) as (n & cs' & _ & _ & Hb & Hk).
  unfold accept in Hk. injection Hk as _ <-. auto.
Qed.

Lemma search_binds r i : forall inp pos m,
  search r pos inp = Some m -> In i (binds r) -> capture i (groups m) <> None.
Proof.
  induction inp as [|c t IH]; intros pos m; simpl;
    destruct (match_at r pos _) as [m'|] eqn:Hm.
  - intros [= <-]. eauto using match_at_binds.
  - discriminate.
  - intros [= <-]. eauto using match_at_binds.
  - apply IH.
Qed.

(** Every match of a pattern of the source has the groups the source reads. *)
Lemma String_match_group r s m i :
  String_match r s = Some m -> In (S i) (binds r) ->
  exists g, group m (S i) = Some g.
Proof.
  intros H Hi. pose proof (search_binds _ _ _ _ _ H Hi) as Hc. simpl.
  destruct (capture (S i) (groups m)) as [g|]; [eauto | congruence].
Qed.

(** ** First occurrences *)

Lemma cut_app p : forall s a b, cut p s = Some (a, b) -> s = a ++ p ++ b.
Proof.
  induction s as [|c t IH]; intros a b; simpl.
  - destruct (strip_prefix p []) eqn:Hs; [|discriminate].
    intros [= <- <-]. apply strip_prefix_app in Hs. exact Hs.
  - destruct (strip_prefix p (c :: t)) eqn:Hs.
    + intros [= <- <-]. apply strip_prefix_app in Hs. exact Hs.
    + destruct (cut p t) as [[a' b']|] eqn:Hc; [|discriminate].
      intros [= <- <-]. simpl. f_equal. auto.
Qed.

Lemma cut_none p : forall s, cut p s = None <-> (forall a b, s <> a ++ p ++ b).
Proof.
  induction s as [|c t IH]; simpl.
  - destruct (strip_prefix p []) as [r|] eqn:Hs.
    + apply strip_prefix_app in Hs. split; [discriminate|].
      intros H. exfalso. apply (H [] r). exact Hs.
    + split; [|reflexivity]. intros _ a b E.
      assert (Hp : strip_prefix p [] = Some b).
      { apply strip_prefix_app. destruct a; [exact E | discriminate]. }
      congruence.
  - destruct (strip_prefix p (c :: t)) as [r|] eqn:Hs.
    + apply strip_prefix_app in Hs. split; [discriminate|].
      intros H. exfalso. apply (H [] r). exact Hs.
    + destruct (cut p t) as [[a' b']|] eqn:Hc.
      * split; [discriminate|]. intros H. exfalso.
        apply cut_app in Hc. apply (H (c :: a') b'). simpl. congruence.
      * split; [|reflexivity]. intros _ a b E.
        destruct a as [|c' a].
        -- assert (Hp : strip_prefix p (c :: t) = Some b)
             by (apply strip_prefix_app; exact E).
           congruence.
        -- injection E as _ E. destruct IH as [IH _].
           exact (IH eq_refl a b E).
Qed.

Lemma leftmost_tail p c a : leftmost p (c :: a) -> leftmost p a.
Proof.
  intros H x y E. specialize (H (c :: x) y). simpl in H.
  rewrite E in H. specialize (H eq_refl). congruence.
Qed.

Lemma cut_leftmost p b : forall a, leftmost p a -> cut p (a ++ p ++ b) = Some (a, b).
Proof.
  induction a as [|c a IH]; intros H.
  - simpl app. destruct (p ++ b) as [|c t] eqn:E; simpl.
    + assert (Hs : strip_prefix p [] = Some b) by (apply strip_prefix_app; auto).
      rewrite Hs. reflexivity.
    + assert (Hs : strip_prefix p (c :: t) = Some b) by (apply strip_prefix_app; auto).
      rewrite Hs. reflexivity.
  - simpl. destruct (strip_prefix p (c :: a ++ p ++ b)) as [rest|] eqn:Hs.
    + exfalso. apply strip_prefix_app in Hs.
      change (c :: a ++ p ++ b) with ((c :: a) ++ p ++ b) in Hs.
      rewrite app_assoc in Hs. apply app_eq_app in Hs.
      destruct Hs as (l & [[E1 E2]|[E1 E2]]).
      * specialize (H [] l). simpl in H. specialize (H E1). discriminate.
      * assert (Hl : length ((c :: a) ++ p ++ l) = length p) by (rewrite app_assoc, <- E1; reflexivity).
        rewrite !length_app in Hl. simpl in Hl. lia.
    + rewrite (IH (leftmost_tail _ _ _ H)). reflexivity.
Qed.

(** The lazy star in front of a literal stops at the first occurrence of
    the literal. *)
Lemma lazy_cut A (F : nat -> jsstring -> A) c : forall rest pos,
  lazy any_char
       (fun pos' inp' => match strip_prefix c inp' with
                         | Some r => Some (F pos' r)
                         | None => None
                         end) pos rest
  = match cut c rest with
    | Some (body, post) => Some (F (pos + length body) post)
    | None => None
    end.
Proof.
  induction rest as [|ch t IH]; intros pos; simpl.
  - destruct (strip_prefix c []); [rewrite Nat.add_0_r|]; reflexivity.
  - destruct (strip_prefix c (ch :: t)); [rewrite Nat.add_0_r; reflexivity|].
    unfold any_char at 1. rewrite IH.
    destruct (cut c t) as [[a b]|]; [|reflexivity].
    simpl. do 2 f_equal. lia.
Qed.

Lemma tag_match_at o c pos s :
  match_at (tag_regex o c) pos s
  = match strip_prefix o s with
    | Some rest =>
        match cut c rest with
        | Some (body, post) =>
            Some {| index := pos; whole := o ++ body ++ c; groups := [(1, body)] |}
        | None => None
        end
    | None => None
    end.
Proof.
  unfold match_at, tag_regex. simpl.
  destruct (strip_prefix o s) as [rest|] eqn:Ho; [|reflexivity].
  unfold accept.
  rewrite (lazy_cut _ (fun pos' r =>
             (pos' + length c, [(1, firstn (pos' - (pos + length o)) rest)])) c rest).
  destruct (cut c rest) as [[body post]|] eqn:Hc; [|reflexivity].
  apply cut_app in Hc. apply strip_prefix_app in Ho. subst rest s.
  f_equal. f_equal.
  - replace (pos + length o + length body + length c - pos)
      with (length (o ++ body ++ c)) by (rewrite !length_app; lia).
    rewrite (app_assoc body c post), (app_assoc o (body ++ c) post).
    rewrite firstn_app, Nat.sub_diag, firstn_all. simpl. apply app_nil_r.
  - replace (pos + length o + length body - (pos + length o)) with (length body) by lia.
    rewrite firstn_app, Nat.sub_diag, firstn_all. simpl. rewrite app_nil_r. reflexivity.
Qed.

Lemma cut_none_suffix c x rest : cut c (x ++ rest) = None -> cut c rest = None.
Proof.
  rewrite !cut_none. intros H a b E. apply (H (x ++ a) b).
  rewrite E, app_assoc. reflexivity.
Qed.

(** The first match of a tag pattern: the first opening tag and the first
    closing tag after it. *)
Lemma tag_search o c : forall s pos,
  search (tag_regex o c) pos s
  = match cut o s with
    | Some (a, rest) =>
        match cut c rest with
        | Some (body, post) =>
            Some {| index := pos + length a; whole := o ++ body ++ c;
                    groups := [(1, body)] |}
        | None => None
        end
    | None => None
    end.
Proof.
  induction s as [|ch t IH]; intros pos.
  - simpl search. rewrite tag_match_at. simpl cut.
    destruct (strip_prefix o []) as [rest|]; [|reflexivity].
    destruct (cut c rest) as [[body post]|]; [rewrite Nat.add_0_r|]; reflexivity.
  - simpl search. rewrite tag_match_at. simpl cut.
    destruct (strip_prefix o (ch :: t)) as [rest|] eqn:Ho.
    + destruct (cut c rest) as [[body post]|] eqn:Hc.
      * rewrite Nat.add_0_r. reflexivity.
      * rewrite IH. destruct (cut o t) as [[a rest']|] eqn:Ho'; [|reflexivity].
        apply strip_prefix_app in Ho. apply cut_app in Ho'.
        assert (Hsuf : exists x, rest = x ++ rest').
        { assert (E : o ++ rest = ((ch :: a) ++ o) ++ rest')
            by (rewrite <- Ho, Ho', <- app_assoc; reflexivity).
          apply app_eq_app in E. destruct E as (l & [[E1 E2]|[E1 E2]]).
          - assert (Hl : length o = length (((ch :: a) ++ o) ++ l)) by (rewrite <- E1; reflexivity).
            rewrite !length_app in Hl. simpl in Hl. lia.
          - exists l. exact E2. }
        destruct Hsuf as (x & ->).
        rewrite (cut_none_suffix _ _ _ Hc). reflexivity.
    + rewrite IH. destruct (cut o t) as [[a rest']|]; [|reflexivity].
      destruct (cut c rest') as [[body post]|]; [|reflexivity].
      simpl. do 2 f_equal. lia.
Qed.

(** The first match of a tag pattern captures the body of the tag. *)
Lemma tag_match_body o c text :
  match String_match (tag_regex o c) text with
  | Some m => exists body, group m 1 = Some body /\ tag_body o c text = Some body
  | None => tag_body o c text = None
  end.
Proof.
  unfold String_match, tag_body. rewrite tag_search.
  destruct (cut o text) as [[a rest]|]; [|reflexivity].
  destruct (cut c rest) as [[body post]|]; [|reflexivity].
  exists body. split; reflexivity.
Qed.

Lemma extractThinkContent_tag content :
  extractThinkContent content = ret (tag_content think_open think_close content).
Proof.
  unfold extractThinkContent, tag_content, tag_body, String_match, think_regex.
  rewrite tag_search.
  destruct (cut think_open content) as [[a rest]|]; [|reflexivity].
  destruct (cut think_close rest) as [[body post]|]; reflexivity.
Qed.

Lemma extractAnswerContent_tag content :
  extractAnswerContent content
  = ret (tag_content (lit "<answer>") (lit "</answer>") content).
Proof.
  unfold extractAnswerContent, tag_content, tag_body, String_match, answer_regex.
  rewrite tag_search.
  destruct (cut (lit "<answer>") content) as [[a rest]|]; [|reflexivity].
  destruct (cut (lit "</answer>") rest) as [[body post]|]; reflexivity.
Qed.

Lemma cut_first p : forall s a b, cut p s = Some (a, b) -> leftmost p a.
Proof.
  induction s as [|c t IH]; intros a b; simpl.
  - destruct (strip_prefix p []) eqn:Hs; [|discriminate].
    intros [= <- <-] x y E. simpl in E.
    assert (Hl : length p = length (x ++ p ++ y)) by (rewrite <- E; reflexivity).
    rewrite !length_app in Hl. destruct x; [reflexivity | simpl in Hl; lia].
  - destruct (strip_prefix p (c :: t)) eqn:Hs.
    + intros [= <- <-] x y E. simpl in E.
      assert (Hl : length p = length (x ++ p ++ y)) by (rewrite <- E; reflexivity).
      rewrite !length_app in Hl. destruct x; [reflexivity | simpl in Hl; lia].
    + destruct (cut p t) as [[a' b']|] eqn:Hc; [|discriminate].
      intros [= <- <-] x y E.
      destruct x as [|c' x].
      * exfalso. apply cut_app in Hc. simpl in E.
        assert (Hp : strip_prefix p (c :: t) = Some (y ++ b')).
        { apply strip_prefix_app. rewrite Hc.
          rewrite (app_assoc p y b'), <- E. simpl.
          rewrite <- app_assoc. reflexivity. }
        congruence.
      * injection E as -> E. f_equal. exact (IH _ _ eq_refl _ _ E).
Qed.

Lemma leftmost_absent p a :
  p <> [] -> leftmost p a -> forall x y, a <> x ++ p ++ y.
Proof.
  intros Hp H x y E.
  assert (E' : a ++ p = x ++ p ++ (y ++ p)) by (rewrite E, <- !app_assoc; reflexivity).
  apply H in E'. subst x.
  assert (Hl : length a = length (a ++ p ++ y)) by (rewrite <- E; reflexivity).
  rewrite !length_app in Hl. destruct p; [congruence | simpl in Hl; lia].
Qed.

Lemma trimStart_suffix s : exists a, s = a ++ trimStart s.
Proof.
  induction s as [|c t [a IH]]; simpl.
  - exists []. reflexivity.
  - destruct (is_white_space c).
    + exists (c :: a). simpl. congruence.
    + exists []. reflexivity.
Qed.

(** The trimmed string is a piece of the string. *)
Lemma trim_substring s : exists a b, s = a ++ trim s ++ b.
Proof.
  unfold trim, trimEnd.
  destruct (trimStart_suffix s) as [a Ha].
  destruct (trimStart_suffix (rev (trimStart s))) as [b Hb].
  exists a, (rev b). rewrite <- rev_app_distr, <- Hb, rev_involutive. exact Ha.
Qed.

(** The two halves of a decomposition around the first opening tag. *)
Lemma after_first_open o a rest pre tail :
  leftmost o a -> a ++ o ++ rest = pre ++ o ++ tail -> exists l, rest = l ++ tail.
Proof.
  intros Ha E. rewrite !app_assoc in E. apply app_eq_app in E.
  destruct E as (l & [[E1 E2]|[E1 E2]]).
  - rewrite <- app_assoc in E1. pose proof (Ha _ _ E1) as ->.
    apply app_inv_head in E1.
    assert (l = []).
    { assert (Hl : length o = length (o ++ l)) by (rewrite <- E1; reflexivity).
      rewrite length_app in Hl. destruct l; [reflexivity | simpl in Hl; lia]. }
    subst l. exists []. symmetry. exact E2.
  - exists l. exact E2.
Qed.

(** What the tag extractor returns, in terms of occurrences. *)
Lemma tag_content_spec o c content :
  (exists pre body post,
      content = pre ++ o ++ body ++ c ++ post
      /\ leftmost o pre /\ leftmost c body
      /\ tag_content o c content = trim body)
  \/ ((forall pre body post, content <> pre ++ o ++ body ++ c ++ post)
      /\ tag_content o c content = []).
Proof.
  unfold tag_content, tag_body.
  destruct (cut o content) as [[a rest]|] eqn:Ho.
  - destruct (cut c rest) as [[body post]|] eqn:Hc.
    + left. exists a, body, post.
      pose proof (cut_first _ _ _ _ Ho). pose proof (cut_first _ _ _ _ Hc).
      apply cut_app in Ho, Hc. subst. auto.
    + right. split; [|reflexivity]. intros pre body post E.
      pose proof (cut_first _ _ _ _ Ho) as Ha. apply cut_app in Ho. subst content.
      destruct (after_first_open _ _ _ _ _ Ha E) as (l & ->).
      rewrite cut_none in Hc. apply (Hc (l ++ body) post).
      rewrite <- app_assoc. reflexivity.
  - right. split; [|reflexivity]. intros pre body post.
    rewrite cut_none in Ho. apply Ho.
Qed.

(** C5: tag extraction returns, for every text, the trimmed content between
    the first opening tag and the first closing tag that follows it, and the
    empty string when the text holds no opening tag followed by a closing
    tag; it never throws. Stated for the two extractors of the source. *)
Theorem tag_extraction_first_pair :
  forall content,
    ((exists pre body post,
         content = pre ++ think_open ++ body ++ think_close ++ post
         /\ leftmost think_open pre /\ leftmost think_close body
         /\ call (extractThinkContent content) = Ok (trim body))
     \/ ((forall pre body post,
             content <> pre ++ think_open ++ body ++ think_close ++ post)
         /\ call (extractThinkContent content) = Ok []))
    /\
    ((exists pre body post,
         content = pre ++ lit "<answer>" ++ body ++ lit "</answer>" ++ post
         /\ leftmost (lit "<answer>") pre /\ leftmost (lit "</answer>") body
         /\ call (extractAnswerContent content) = Ok (trim body))
     \/ ((forall pre body post,
             content <> pre ++ lit "<answer>" ++ body ++ lit "</answer>" ++ post)
         /\ call (extractAnswerContent content) = Ok [])).
Proof.
  intros content. split.
  - rewrite extractThinkContent_tag. unfold call, ret. simpl fst.
    destruct (tag_content_spec think_open think_close content)
      as [(pre & body & post & E & H1 & H2 & ->)|[H ->]].
    + left. exists pre, body, post. auto.
    + right. auto.
  - rewrite extractAnswerContent_tag. unfold call, ret. simpl fst.
    destruct (tag_content_spec (lit "<answer>") (lit "</answer>") content)
      as [(pre & body & post & E & H1 & H2 & ->)|[H ->]].
    + left. exists pre, body, post. auto.
    + right. auto.
Qed.

(** An extracted string holds no closing tag. *)
Lemma tag_content_no_close o c content :
  c <> [] -> cut c (tag_content o c content) = None.
Proof.
  intros Hc.
  destruct (tag_content_spec o c content)
    as [(pre & body & post & E & H1 & H2 & ->)|[H ->]].
  - apply cut_none. intros x y E'.
    destruct (trim_substring body) as (a & b & Hb).
    apply (leftmost_absent _ _ Hc H2 (a ++ x) (y ++ b)).
    rewrite Hb at 1. rewrite E', <- !app_assoc. reflexivity.
  - apply cut_none. intros x y E.
    destruct x; [destruct c; [congruence | discriminate] | discriminate].
Qed.

Lemma tag_content_again o c content :
  c <> [] -> tag_content o c (tag_content o c content) = [].
Proof.
  intros Hc. pose proof (tag_content_no_close o c content Hc) as Hn.
  unfold tag_content at 1, tag_body.
  destruct (cut o (tag_content o c content)) as [[a rest]|] eqn:Ho; [|reflexivity].
  apply cut_app in Ho. rewrite Ho, app_assoc in Hn.
  rewrite (cut_none_suffix _ _ _ Hn). reflexivity.
Qed.

(** C6, as the code has it: running the reasoning extraction on a string it
    has produced returns the empty string, since that string holds no closing
    tag; the string comes back unchanged only when it is empty. *)
Theorem extractThinkContent_twice_empty :
  forall content,
    exists r, call (extractThinkContent content) = Ok r
              /\ call (extractThinkContent r) = Ok [].
Proof.
  intros content. exists (tag_content think_open think_close content).
  rewrite !extractThinkContent_tag. unfold call, ret. simpl fst.
  split; [reflexivity|]. f_equal. apply tag_content_again. discriminate.
Qed.

(** C6 as stated fails: the reasoning [plan], extracted from a tagged
    text, is not returned when the extraction runs on it again. *)
Lemma extractThinkContent_not_idempotent :
  call (extractThinkContent (think_open ++ lit "plan" ++ think_close)) = Ok (lit "plan")
  /\ call (extractThinkContent (lit "plan")) = Ok []
  /\ ~ (forall content r,
          call (extractThinkContent content) = Ok r ->
          call (extractThinkContent r) = Ok r).
Proof.
  assert (H1 : call (extractThinkContent (think_open ++ lit "plan" ++ think_close))
               = Ok (lit "plan")) by (vm_compute; reflexivity).
  assert (H2 : call (extractThinkContent (lit "plan")) = Ok []) by (vm_compute; reflexivity).
  split; [exact H1 | split; [exact H2|]].
  intros H. specialize (H _ _ H1). rewrite H2 in H. discriminate.
Qed.

(** ** What a call of a decoder does to its locals *)

Lemma emit_all_pushed ft ent rs : forall st,
  pushed (emit_all ft ent rs st) = pushed st ++ tools_from ft ent (made st) rs.
Proof.
  unfold emit_all. induction rs as [|r t IH]; intros st; simpl.
  - symmetry. apply app_nil_r.
  - rewrite IH. simpl. rewrite <- app_assoc. reflexivity.
Qed.

Lemma tools_from_length ft ent rs : forall k, length (tools_from ft ent k rs) = length rs.
Proof. induction rs; intros k; simpl; auto. Qed.

Lemma generate_push ft ent n p st :
  (id <- generateToolCallId ent ;; push (tool_call ft id n p)) st
  = (Ok tt, emit ft ent st (n, p)).
Proof. reflexivity. Qed.

Ltac group_of H g Hg :=
  let Hin := fresh in
  match type of H with
  | String_match ?r ?s = Some ?m =>
      assert (Hin : exists g, group m 1 = Some g)
        by (apply (String_match_group r s m 0 H); simpl; tauto);
      destruct Hin as [g Hg]
  end.

Lemma code_env_calls_run ft ent content st :
  code_env_calls ft ent content st
  = (Ok tt, emit_all ft ent (code_env_found content) st).
Proof.
  unfold code_env_calls, code_env_found.
  destruct (String_match code_env_regex content) as [m|] eqn:Hm; [|reflexivity].
  group_of Hm body Hbody. rewrite Hbody. unfold receiver, bind, ret.
  destruct (String_match function_regex body) as [fm|]; reflexivity.
Qed.

Lemma mcp_call_run ft ent c st :
  mcp_call ft ent c st
  = match get_prop c (lit "name"), get_prop c (lit "parameters") with
    | Ok n, Ok p =>
        (Ok tt, if truthy n && truthy p then emit ft ent st (n, p) else st)
    | _, _ => (Throw TypeError, st)
    end.
Proof.
  unfold mcp_call, bind, lift.
  destruct c; simpl; try reflexivity.
  destruct (truthy (lookup_prop (lit "name") props0)); [|reflexivity].
  destruct (truthy (lookup_prop (lit "parameters") props0)); reflexivity.
Qed.

Lemma for_of_mcp_call ft ent : forall l st,
  exists r, for_of l (mcp_call ft ent) st = (r, emit_all ft ent (descriptors l) st).
Proof.
  induction l as [|c t IH]; intros st; simpl.
  - exists (Ok tt). reflexivity.
  - unfold bind. rewrite mcp_call_run.
    destruct (get_prop c (lit "name")) as [n|e] eqn:Hn.
    + destruct (get_prop c (lit "parameters")) as [p|e] eqn:Hp.
      * destruct (truthy n && truthy p); apply IH.
      * exists (Throw TypeError). reflexivity.
    + exists (Throw TypeError). reflexivity.
Qed.

Lemma mcp_env_calls_run ft ent content st :
  mcp_env_calls ft ent content st
  = (Ok tt, emit_all ft ent (mcp_env_found content) st).
Proof.
  unfold mcp_env_calls, mcp_env_found.
  destruct (String_match mcp_env_regex content) as [m|] eqn:Hm; [|reflexivity].
  group_of Hm body Hbody. rewrite Hbody. unfold receiver, bind at 1, ret.
  destruct (String_match function_call_regex body) as [fm|]; [|reflexivity].
  unfold try_catch, bind, lift.
  destruct (JSON_parse _) as [v|e]; [|reflexivity].
  destruct v; try reflexivity; unfold iterate.
  - destruct (for_of_mcp_call ft ent (List.map (fun c => VString [c]) s) st) as [r ->].
    destruct r as [[]|]; reflexivity.
  - destruct (for_of_mcp_call ft ent l st) as [r ->]. destruct r as [[]|]; reflexivity.
Qed.

Lemma computer_env_calls_run ft ent content st :
  computer_env_calls ft ent content st
  = (Ok tt, emit_all ft ent (computer_env_found content) st).
Proof.
  unfold computer_env_calls, computer_env_found.
  destruct (String_match computer_env_regex content) as [m|] eqn:Hm; [|reflexivity].
  group_of Hm body Hbody. rewrite Hbody. unfold receiver at 1, bind at 1, ret at 1.
  destruct (String_match action_regex (trim body)) as [am|] eqn:Ham; [|reflexivity].
  assert (Hin : exists g, group am 2 = Some g)
    by (apply (String_match_group action_regex (trim body) am 1 Ham); simpl; tauto).
  destruct Hin as [params Hparams]. rewrite Hparams.
  unfold receiver at 1, bind at 1, ret at 1.
  destruct (String_match point_regex params) as [pm|] eqn:Hpm.
  - group_of Hpm p Hp. rewrite Hp. reflexivity.
  - reflexivity.
Qed.

Lemma decoder_run ft ent content (calls : M unit) found :
  (forall st, calls st = (Ok tt, emit_all ft ent found st)) ->
  (think <- extractThinkContent content ;;
   answer <- extractAnswerContent content ;;
   calls ;;; assemble think answer) start
  = (Ok (result ft ent content found), emit_all ft ent found start).
Proof.
  intros Hcalls.
  rewrite extractThinkContent_tag, extractAnswerContent_tag.
  unfold bind, ret, assemble, read_tools. rewrite Hcalls.
  unfold bind, ret, result, tools_field. rewrite emit_all_pushed. reflexivity.
Qed.

Lemma parseCodeContent_run ft ent content :
  parseCodeContent ft ent content start
  = (Ok (result ft ent content (code_env_found content)),
     emit_all ft ent (code_env_found content) start).
Proof. apply decoder_run. intros st. apply code_env_calls_run. Qed.

Lemma parseMcpContent_run ft ent content :
  parseMcpContent ft ent content start
  = (Ok (result ft ent content (mcp_env_found content)),
     emit_all ft ent (mcp_env_found content) start).
Proof. apply decoder_run. intros st. apply mcp_env_calls_run. Qed.

Lemma parseComputerContent_run ft ent content :
  parseComputerContent ft ent content start
  = (Ok (result ft ent content (computer_env_found content)),
     emit_all ft ent (computer_env_found content) start).
Proof. apply decoder_run. intros st. apply computer_env_calls_run. Qed.

(** ** The decoders as a whole *)




(** A pattern that starts with a literal matches only where the literal
    occurs. *)
Lemma search_literal_absent o r : forall s pos,
  absent o s -> search (Chars o +++ r) pos s = None.
Proof.
  induction s as [|c t IH]; intros pos H; simpl.
  - unfold match_at. simpl.
    destruct (strip_prefix o []) as [rest|] eqn:Hs; [|reflexivity].
    apply strip_prefix_app in Hs. exfalso. exact (H [] rest Hs).
  - unfold match_at. simpl.
    destruct (strip_prefix o (c :: t)) as [rest|] eqn:Hs.
    + apply strip_prefix_app in Hs. exfalso. exact (H [] rest Hs).
    + apply IH. intros a b E. apply (H (c :: a) b). simpl. congruence.
Qed.

Lemma code_env_found_body content :
  code_env_found content
  = match tag_body (lit "<code_env>") (lit "</code_env>") content with
    | Some codeEnvContent =>
        match String_match function_regex codeEnvContent with
        | Some functionMatch =>
            [(to_val (group functionMatch 1), VObject (code_parameters codeEnvContent))]
        | None => []
        end
    | None => []
    end.
Proof.
  unfold code_env_found, code_env_regex.
  pose proof (tag_match_body (lit "<code_env>") (lit "</code_env>") content) as H.
  destruct (String_match _ content) as [m|].
  - destruct H as (body & -> & ->). reflexivity.
  - rewrite H. reflexivity.
Qed.

Lemma mcp_env_found_body content :
  mcp_env_found content
  = match tag_body (lit "<mcp_env>") (lit "</mcp_env>") content with
    | Some mcpEnvContent =>
        match tag_body call_begin call_end mcpEnvContent with
        | Some payload =>
            match JSON_parse (lit "[" ++ payload ++ lit "]") with
            | Ok (VArray l) => descriptors l
            | Ok (VString s) => descriptors (List.map (fun c => VString [c]) s)
            | _ => []
            end
        | None => []
        end
    | None => []
    end.
Proof.
  unfold mcp_env_found, mcp_env_regex.
  pose proof (tag_match_body (lit "<mcp_env>") (lit "</mcp_env>") content) as H.
  destruct (String_match _ content) as [m|].
  - destruct H as (body & -> & ->).
    change function_call_regex with (tag_regex call_begin call_end).
    pose proof (tag_match_body call_begin call_end body) as H'.
    destruct (String_match _ body) as [fm|].
    + destruct H' as (payload & -> & ->). reflexivity.
    + rewrite H'. reflexivity.
  - rewrite H. reflexivity.
Qed.

Lemma computer_env_found_body content :
  computer_env_found content
  = match tag_body (lit "<computer_env>") (lit "</computer_env>") content with
    | Some s =>
        match String_match action_regex (trim s) with
        | Some actionMatch =>
            match group actionMatch 2 with
            | Some actionParams =>
                let withPoint :=
                  match String_match point_regex actionParams with
                  | Some pointMatch =>
                      match group pointMatch 1 with
                      | Some p => point_parameter p
                      | None => []
                      end
                  | None => []
                  end in
                [(to_val (group actionMatch 1),
                  VObject (other_parameters withPoint actionParams))]
            | None => []
            end
        | None => []
        end
    | None => []
    end.
Proof.
  unfold computer_env_found, computer_env_regex.
  pose proof (tag_match_body (lit "<computer_env>") (lit "</computer_env>") content) as H.
  destruct (String_match _ content) as [m|].
  - destruct H as (body & -> & ->). reflexivity.
  - rewrite H. reflexivity.
Qed.

Lemma result_no_tools ft ent content : tools (result ft ent content []) = None.
Proof. reflexivity. Qed.




Lemma invocations_result ft ent content found :
  invocations (result ft ent content found) = tools_from ft ent 0 found.
Proof.
  unfold invocations, result. simpl. destruct (tools_from ft ent 0 found); reflexivity.
Qed.

Lemma tools_field_cases l :
  (l = [] /\ tools_field l = None) \/ (l <> [] /\ tools_field l = Some l).
Proof.
  destruct l; [left | right]; split; try reflexivity. discriminate.
Qed.

Lemma result_field ft ent content found :
  tools (result ft ent content found)
  = tools_field (pushed (emit_all ft ent found start)).
Proof. simpl. rewrite emit_all_pushed. reflexivity. Qed.

(** C10: when the local array [tools] of a decoder is empty at the
    [return], the result has no [tools] field; otherwise the field holds that
    array. The field is never an empty list. *)
Theorem tools_field_absent_when_empty :
  forall ft ent content,
    (exists pc st,
        parseCodeContent ft ent content start = (Ok pc, st)
        /\ ((pushed st = [] /\ tools pc = None)
            \/ (pushed st <> [] /\ tools pc = Some (pushed st))))
    /\
    (exists pc st,
        parseMcpContent ft ent content start = (Ok pc, st)
        /\ ((pushed st = [] /\ tools pc = None)
            \/ (pushed st <> [] /\ tools pc = Some (pushed st))))
    /\
    (exists pc st,
        parseComputerContent ft ent content start = (Ok pc, st)
        /\ ((pushed st = [] /\ tools pc = None)
            \/ (pushed st <> [] /\ tools pc = Some (pushed st)))).
Proof.
  intros ft ent content. split; [|split].
  - eexists. eexists. split; [apply parseCodeContent_run|].
    rewrite result_field. apply tools_field_cases.
  - eexists. eexists. split; [apply parseMcpContent_run|].
    rewrite result_field. apply tools_field_cases.
  - eexists. eexists. split; [apply parseComputerContent_run|].
    rewrite result_field. apply tools_field_cases.
Qed.

(** C9: the code-environment and the pointer-environment decoder emit at
    most one invocation: exactly one when the region is there and holds the
    function marker, respectively matches the action grammar once trimmed,
    none otherwise. The tool-environment decoder can emit more: two for
    [two_calls]. *)
Theorem at_most_one_invocation :
  forall ft ent content,
    (exists pc,
        call (parseCodeContent ft ent content) = Ok pc
        /\ length (invocations pc) <= 1
        /\ (length (invocations pc) = 1 <->
            exists region,
              tag_body (lit "<code_env>") (lit "</code_env>") content = Some region
              /\ String_match function_regex region <> None))
    /\
    (exists pc,
        call (parseComputerContent ft ent content) = Ok pc
        /\ length (invocations pc) <= 1
        /\ (length (invocations pc) = 1 <->
            exists region,
              tag_body (lit "<computer_env>") (lit "</computer_env>") content = Some region
              /\ String_match action_regex (trim region) <> None))
    /\
    (exists pc,
        call (parseMcpContent ft ent two_calls) = Ok pc
        /\ length (invocations pc) = 2).
Proof.
  intros ft ent content. split; [|split].
  - exists (result ft ent content (code_env_found content)).
    unfold call. rewrite parseCodeContent_run. split; [reflexivity|].
    rewrite invocations_result, tools_from_length, code_env_found_body.
    destruct (tag_body _ _ content) as [region|].
    + destruct (String_match function_regex region) as [fm|] eqn:Hf; simpl.
      * split; [lia|]. split; [|reflexivity]. intros _. exists region.
        rewrite Hf. split; [reflexivity | discriminate].
      * split; [lia|]. split; [discriminate|].
        intros (r & [= <-] & H). congruence.
    + simpl. split; [lia|]. split; [discriminate|]. intros (r & [=] & _).
  - exists (result ft ent content (computer_env_found content)).
    unfold call. rewrite parseComputerContent_run. split; [reflexivity|].
    rewrite invocations_result, tools_from_length, computer_env_found_body.
    destruct (tag_body _ _ content) as [region|].
    + destruct (String_match action_regex (trim region)) as [am|] eqn:Ha; simpl.
      * assert (Hin : exists g, group am 2 = Some g)
          by (apply (String_match_group action_regex (trim region) am 1 Ha); simpl; tauto).
        destruct Hin as [params Hp]. simpl in Hp. rewrite Hp. simpl.
        split; [lia|]. split; [|reflexivity]. intros _. exists region.
        rewrite Ha. split; [reflexivity | discriminate].
      * split; [lia|]. split; [discriminate|].
        intros (r & [= <-] & H). congruence.
    + simpl. split; [lia|]. split; [discriminate|]. intros (r & [=] & _).
  - exists (result ft ent two_calls (mcp_env_found two_calls)).
    unfold call. rewrite parseMcpContent_run. split; [reflexivity|].
    rewrite invocations_result, tools_from_length. vm_compute. reflexivity.
Qed.

Lemma tools_from_without_ids ft e1 e2 rs : forall k1 k2,
  List.map (fun t => (type t, function t)) (tools_from ft e1 k1 rs)
  = List.map (fun t => (type t, function t)) (tools_from ft e2 k2 rs).
Proof.
  induction rs as [|r t IH]; intros k1 k2; simpl; [reflexivity|].
  f_equal. apply IH.
Qed.

Lemma result_without_ids ft e1 e2 content found :
  without_ids (result ft e1 content found) = without_ids (result ft e2 content found).
Proof.
  unfold without_ids, result. simpl. f_equal.
  pose proof (tools_from_without_ids ft e1 e2 found 0 0) as H.
  destruct (tools_from ft e1 0 found), (tools_from ft e2 0 found);
    simpl in *; try discriminate; congruence.
Qed.

(** C7: two calls of a decoder on the same text, with any two clocks and
    random sources, return results with the same reasoning, the same answer
    and invocations with the same names and arguments, in the same order:
    they differ in the identifiers at most. *)
Theorem decoding_independent_of_entropy :
  forall ft e1 e2 content,
    (exists pc1 pc2,
        call (parseCodeContent ft e1 content) = Ok pc1
        /\ call (parseCodeContent ft e2 content) = Ok pc2
        /\ without_ids pc1 = without_ids pc2)
    /\
    (exists pc1 pc2,
        call (parseMcpContent ft e1 content) = Ok pc1
        /\ call (parseMcpContent ft e2 content) = Ok pc2
        /\ without_ids pc1 = without_ids pc2)
    /\
    (exists pc1 pc2,
        call (parseComputerContent ft e1 content) = Ok pc1
        /\ call (parseComputerContent ft e2 content) = Ok pc2
        /\ without_ids pc1 = without_ids pc2).
Proof.
  intros ft e1 e2 content. unfold call. split; [|split].
  - rewrite !parseCodeContent_run. do 2 eexists.
    split; [reflexivity | split; [reflexivity | apply result_without_ids]].
  - rewrite !parseMcpContent_run. do 2 eexists.
    split; [reflexivity | split; [reflexivity | apply result_without_ids]].
  - rewrite !parseComputerContent_run. do 2 eexists.
    split; [reflexivity | split; [reflexivity | apply result_without_ids]].
Qed.

(** ** Identifiers *)

Lemma tools_from_nth ft ent rs : forall k i t,
  nth_error (tools_from ft ent k rs) i = Some t -> id t = make_id ent (k + i).
Proof.
  induction rs as [|r rs IH]; intros k i t; simpl.
  - destruct i; discriminate.
  - destruct i as [|i]; simpl.
    + intros [= <-]. rewrite Nat.add_0_r. reflexivity.
    + intros H. apply IH in H. rewrite H. f_equal. lia.
Qed.

Lemma forallb_firstn {A} (p : A -> bool) n : forall l,
  forallb p l = true -> forallb p (firstn n l) = true.
Proof.
  induction n as [|n IH]; intros [|a l]; simpl; auto.
  intros H. apply andb_prop in H. destruct H as [-> H]. simpl. auto.
Qed.

(** The nine characters after [0.], or as many as there are. *)
Lemma suffix_of_fraction r :
  is_radix36_fraction r = true ->
  forallb is_radix36_digit (substring 2 11 r) = true
  /\ length (substring 2 11 r) <= 9
  /\ (11 <= length r -> length (substring 2 11 r) = 9).
Proof.
  unfold substring. simpl Nat.sub.
  intros H. split; [|split].
  - destruct r as [|a [|b [|c ds]]]; try reflexivity.
    simpl in H. apply andb_prop in H. destruct H as [_ H].
    simpl skipn. apply forallb_firstn. exact H.
  - rewrite length_firstn. lia.
  - intros Hl. rewrite length_firstn, length_skipn. lia.
Qed.

(** C8, as the code has it: the identifier of the i-th invocation of a
    result is [call_], the decimal digits of the i-th reading of the clock,
    an underscore, and the characters 2 to 10 of the radix-36 text of the
    i-th random number. For a random number in [0, 1) these are digits and
    lower-case letters, at most nine of them, and nine when the text has
    that many after [0.]. *)
Theorem tool_call_identifier :
  forall ft ent content pc i t,
    call (parseCodeContent ft ent content) = Ok pc
    \/ call (parseMcpContent ft ent content) = Ok pc
    \/ call (parseComputerContent ft ent content) = Ok pc ->
    nth_error (invocations pc) i = Some t ->
    is_radix36_fraction (Math_random_toString36 ent i) = true ->
    exists suffix,
      id t = lit "call_" ++ Number_toString_int (Date_now ent i) ++ lit "_" ++ suffix
      /\ suffix = firstn 9 (skipn 2 (Math_random_toString36 ent i))
      /\ forallb is_radix36_digit suffix = true
      /\ length suffix <= 9
      /\ (11 <= length (Math_random_toString36 ent i) -> length suffix = 9).
Proof.
  intros ft ent content pc i t Hcall Hnth Hr.
  assert (Hid : id t = make_id ent i).
  { unfold call in Hcall.
    rewrite parseCodeContent_run, parseMcpContent_run, parseComputerContent_run in Hcall.
    simpl in Hcall.
    destruct Hcall as [[= <-]|[[= <-]|[= <-]]];
      rewrite invocations_result in Hnth;
      apply tools_from_nth in Hnth; exact Hnth. }
  exists (substring 2 11 (Math_random_toString36 ent i)).
  destruct (suffix_of_fraction _ Hr) as (H1 & H2 & H3).
  split; [exact Hid|]. split; [reflexivity|]. auto.
Qed.

(** The identifier of the call decoded from [run_ls]. *)
Lemma tool_call_identifier_witness :
  call (parseCodeContent literal_text sample_entropy run_ls) = Ok run_ls_result
  /\ exists suffix,
      id run_ls_call
      = lit "call_" ++ Number_toString_int (Date_now sample_entropy 0) ++ lit "_" ++ suffix
      /\ suffix = firstn 9 (skipn 2 (Math_random_toString36 sample_entropy 0))
      /\ forallb is_radix36_digit suffix = true
      /\ length suffix <= 9
      /\ (11 <= length (Math_random_toString36 sample_entropy 0) -> length suffix = 9).
Proof.
  assert (H : call (parseCodeContent literal_text sample_entropy run_ls) = Ok run_ls_result)
    by (vm_compute; reflexivity).
  split; [exact H|].
  apply (tool_call_identifier literal_text sample_entropy run_ls run_ls_result 0 run_ls_call).
  - left. exact H.
  - reflexivity.
  - vm_compute. reflexivity.
Defined.

(** C8 as stated fails: the suffix has no fixed length. With the random
    number one half the identifier ends in the single character [i]; with
    another it ends in nine characters. *)
Lemma identifier_suffix_length_varies :
  fst (generateToolCallId half_entropy start) = Ok (lit "call_1700000000000_i")
  /\ fst (generateToolCallId sample_entropy start) = Ok (lit "call_1700000000000_4fzyo82mv")
  /\ ~ (exists n,
          forall ent,
            is_radix36_fraction (Math_random_toString36 ent 0) = true ->
            exists suffix,
              fst (generateToolCallId ent start)
              = Ok (lit "call_" ++ Number_toString_int (Date_now ent 0) ++ lit "_" ++ suffix)
              /\ length suffix = n).
Proof.
  split; [vm_compute; reflexivity|]. split; [vm_compute; reflexivity|].
  intros (n & H).
  destruct (H half_entropy eq_refl) as (s1 & E1 & L1).
  destruct (H sample_entropy eq_refl) as (s2 & E2 & L2).
  apply (f_equal (fun r => match r with Ok s => length s | Throw _ => 0 end)) in E1, E2.
  cbv beta iota in E1, E2.
  rewrite !length_app, L1 in E1. rewrite !length_app, L2 in E2.
  vm_compute in E1, E2. lia.
Qed.

(** ** The tool environment *)

Lemma get_prop_field d k : is_nullish d = false -> get_prop d k = Ok (field d k).
Proof. destruct d; simpl; intros H; try discriminate; reflexivity. Qed.

Lemma descriptors_filter l :
  forallb (fun d => negb (is_nullish d)) l = true ->
  descriptors l
  = List.map (fun d => (field d (lit "name"), field d (lit "parameters")))
      (filter accepted l).
Proof.
  induction l as [|d l IH]; simpl; [reflexivity|].
  intros H. apply andb_prop in H. destruct H as [Hd Hl].
  apply negb_true_iff in Hd.
  rewrite !get_prop_field by exact Hd. fold (accepted d).
  destruct (accepted d); simpl; rewrite IH by exact Hl; reflexivity.
Qed.

Lemma tools_from_function ft ent rs : forall k,
  List.map function (tools_from ft ent k rs)
  = List.map (fun r => {| name := fst r; arguments := JSON_stringify ft (snd r) |}) rs.
Proof.
  induction rs as [|r rs IH]; intros k; simpl; [reflexivity|].
  f_equal. apply IH.
Qed.

(** C2, as the code has it: when the payload parses to an array without
    [null] elements, the invocations are, in array order, those of the
    descriptors whose [name] and [parameters] are both truthy, each with the
    name of the descriptor and the JSON text of its parameters; a descriptor
    that lacks one of the two, or holds a falsy one, is dropped and the
    decoding goes on with the next. *)
Theorem descriptors_decoded_in_order :
  forall ft ent content region payload l,
    tag_body (lit "<mcp_env>") (lit "</mcp_env>") content = Some region ->
    tag_body call_begin call_end region = Some payload ->
    JSON_parse (lit "[" ++ payload ++ lit "]") = Ok (VArray l) ->
    forallb (fun d => negb (is_nullish d)) l = true ->
    exists pc,
      call (parseMcpContent ft ent content) = Ok pc
      /\ List.map function (invocations pc)
         = List.map (fun d => {| name := field d (lit "name");
                                 arguments := JSON_stringify ft (field d (lit "parameters")) |})
             (filter accepted l).
Proof.
  intros ft ent content region payload l Hregion Hpayload Hparse Hl.
  exists (result ft ent content (mcp_env_found content)).
  unfold call. rewrite parseMcpContent_run. split; [reflexivity|].
  rewrite invocations_result, tools_from_function, mcp_env_found_body.
  rewrite Hregion, Hpayload, Hparse, descriptors_filter by exact Hl.
  rewrite map_map. reflexivity.
Qed.

(** Partial success: of the two descriptors of [partial_success] the
    well-formed one is decoded. *)
Lemma descriptors_decoded_in_order_witness :
  tag_body (lit "<mcp_env>") (lit "</mcp_env>") partial_success = Some partial_region
  /\ tag_body call_begin call_end partial_region = Some partial_payload
  /\ JSON_parse (lit "[" ++ partial_payload ++ lit "]") = Ok (VArray partial_array)
  /\ exists pc,
      call (parseMcpContent literal_text sample_entropy partial_success) = Ok pc
      /\ List.map function (invocations pc)
         = [{| name := VString (lit "search");
               arguments := VString (jq "{`q`:`rocq`}") |}].
Proof.
  assert (H1 : tag_body (lit "<mcp_env>") (lit "</mcp_env>") partial_success
               = Some partial_region) by (vm_compute; reflexivity).
  assert (H2 : tag_body call_begin call_end partial_region = Some partial_payload)
    by (vm_compute; reflexivity).
  assert (H3 : JSON_parse (lit "[" ++ partial_payload ++ lit "]") = Ok (VArray partial_array))
    by (vm_compute; reflexivity).
  split; [exact H1 | split; [exact H2 | split; [exact H3|]]].
  exact (descriptors_decoded_in_order literal_text sample_entropy partial_success
           partial_region partial_payload partial_array H1 H2 H3 eq_refl).
Defined.

(** C2 as stated fails: the descriptor of [zero_parameters] has a name and
    has parameters, and no invocation is emitted for it. *)
Lemma present_but_falsy_dropped :
  JSON_parse (jq "[{`name`:`ping`,`parameters`:0}]")
  = Ok (VArray [VObject [(lit "name", VString (lit "ping"));
                         (lit "parameters", VNumber (Int 0))]])
  /\ has_prop (lit "name")
       [(lit "name", VString (lit "ping")); (lit "parameters", VNumber (Int 0))] = true
  /\ has_prop (lit "parameters")
       [(lit "name", VString (lit "ping")); (lit "parameters", VNumber (Int 0))] = true
  /\ call (parseMcpContent literal_text sample_entropy zero_parameters)
     = Ok {| think := []; answer := []; tools := None |}.
Proof. repeat split; vm_compute; reflexivity. Qed.

(** A [null] among the descriptors ends the loop: the read of [name]
    throws inside the [try] block, and the descriptors after it are not
    decoded. *)
Lemma null_descriptor_ends_loop :
  call (parseMcpContent literal_text sample_entropy
          (jq "<mcp_env><|FunctionCallBegin|>[null,{`name`:`open`,`parameters`:{`n`:1}}]<|FunctionCallEnd|></mcp_env>"))
  = Ok {| think := []; answer := []; tools := None |}.
Proof. vm_compute. reflexivity. Qed.

(** ** Greedy runs and successive matches *)

(** A greedy star followed by a continuation that accepts the longest run
    takes the longest run. *)
Lemma greedy_max A p (K : nat -> jsstring -> option A) rest : forall s pos,
  forallb p s = true -> stops p rest -> K (pos + length s) rest <> None ->
  greedy p K pos (s ++ rest) = K (pos + length s) rest.
Proof.
  induction s as [|c s IH]; intros pos Hs Hrest HK; simpl in *.
  - rewrite Nat.add_0_r in *. destruct rest as [|c t]; simpl; [reflexivity|].
    simpl in Hrest. rewrite Hrest. reflexivity.
  - apply andb_prop in Hs. destruct Hs as [Hc Hs]. rewrite Hc.
    replace (pos + S (length s)) with (S pos + length s) in * by lia.
    rewrite IH by assumption.
    destruct (K (S pos + length s) rest); [reflexivity | congruence].
Qed.

Lemma strip_prefix_cons a p b s :
  strip_prefix (a :: p) (b :: s) = if N.eqb a b then strip_prefix p s else None.
Proof. reflexivity. Qed.

Lemma firstn_prefix {A} (a b : list A) : firstn (length a) (a ++ b) = a.
Proof.
  rewrite firstn_app, Nat.sub_diag, firstn_all. simpl. apply app_nil_r.
Qed.

Lemma strip_prefix_same p r : strip_prefix p (p ++ r) = Some r.
Proof. apply strip_prefix_app. reflexivity. Qed.

Lemma scan_skip r rest : forall s n pos,
  length s = n -> scan r n pos (s ++ rest) = scan r 0 (pos + n) rest.
Proof.
  induction s as [|c s IH]; intros n pos Hn; simpl in Hn; subst n.
  - rewrite Nat.add_0_r. reflexivity.
  - simpl. rewrite IH by reflexivity. f_equal. lia.
Qed.

(** After a non-empty match the scan goes on where the match ended. *)
Lemma scan_match r pos w rest m :
  match_at r pos (w ++ rest) = Some m -> whole m = w -> w <> [] ->
  scan r 0 pos (w ++ rest) = m :: scan r 0 (pos + length w) rest.
Proof.
  intros Hm Hw Hne. destruct w as [|c w]; [congruence|].
  simpl app in *. simpl scan. rewrite Hm, Hw. simpl length. simpl Nat.pred.
  rewrite scan_skip by reflexivity. do 2 f_equal. lia.
Qed.

Lemma scan_no_match r pos c t :
  match_at r pos (c :: t) = None -> scan r 0 pos (c :: t) = scan r 0 (S pos) t.
Proof. intros H. simpl. rewrite H. reflexivity. Qed.

(** A literal without the character [x] that starts in [s] and would end in
    a text that begins with [x] lies in [s]. *)
Lemma strip_prefix_inside x q rest : forall s r,
  forallb (not_char x) q = true ->
  match rest with [] => True | c :: _ => c = x end ->
  strip_prefix q (s ++ rest) = Some r ->
  exists r', strip_prefix q s = Some r'.
Proof.
  induction q as [|a q IH]; intros s r Hq Hrest H; simpl in *.
  - eauto.
  - apply andb_prop in Hq. destruct Hq as [Ha Hq].
    destruct s as [|b s]; simpl in *.
    + destruct rest as [|c t]; [discriminate|]. subst c.
      unfold not_char in Ha. destruct (N.eqb_spec a x); [discriminate|].
      destruct (N.eqb_spec a x); [congruence | discriminate].
    + destruct (a =? b)%N; [|discriminate]. eauto.
Qed.

(** ** The code environment *)

Lemma parameter_match_at pos k v rest :
  k <> [] -> forallb (not_char 62) k = true -> forallb (not_char 60) v = true ->
  stops (not_char 60) rest ->
  match_at parameter_regex pos (marker (k, v) ++ rest)
  = Some {| index := pos; whole := marker (k, v); groups := [(2, v); (1, k)] |}.
Proof.
  intros Hk Hk62 Hv Hrest.
  destruct k as [|c k]; [congruence|]. simpl in Hk62.
  apply andb_prop in Hk62. destruct Hk62 as [Hc Hk62].
  unfold match_at, parameter_regex, marker. simpl fst. simpl snd.
  fold parameter_open. cbn [run].
  rewrite <- !app_assoc. rewrite strip_prefix_same.
  change ((c :: k) ++ lit ">" ++ v ++ rest) with (c :: k ++ lit ">" ++ v ++ rest).
  cbv beta iota. rewrite Hc.
  set (p1 := pos + length parameter_open).
  set (K := fun pos' inp' => _).
  assert (HK : K (S p1 + length k) (lit ">" ++ v ++ rest)
               = Some (S p1 + length k + 1 + length v,
                       [(2, v); (1, c :: k)])).
  { unfold K. rewrite strip_prefix_same.
    rewrite (greedy_max _ (not_char 60)
               (fun pos'' inp'' => accept pos'' inp''
                  ((2, firstn (pos'' - (S p1 + length k + length (lit ">"))) (v ++ rest))
                     :: (1, firstn (S p1 + length k - p1)
                              (c :: k ++ lit ">" ++ v ++ rest)) :: [])))
      by (auto; discriminate).
    unfold accept. change (length (lit ">")) with 1. f_equal. f_equal.
    f_equal.
      + f_equal. replace (S p1 + length k + 1 + length v
                          - (S p1 + length k + 1)) with (length v) by lia.
        rewrite firstn_app, Nat.sub_diag, firstn_all. simpl. apply app_nil_r.
      + f_equal. f_equal.
        replace (S p1 + length k - p1) with (length (c :: k)) by (cbn [length]; lia).
        change (c :: k ++ lit ">" ++ v ++ rest) with ((c :: k) ++ lit ">" ++ v ++ rest).
        rewrite firstn_app, Nat.sub_diag, firstn_all. simpl. rewrite app_nil_r. reflexivity. }
  rewrite (greedy_max _ (not_char 62) K (lit ">" ++ v ++ rest) k (S p1));
    [ | exact Hk62 | reflexivity | rewrite HK; discriminate ].
  rewrite HK. f_equal. f_equal.
  replace (S p1 + length k + 1 + length v - pos)
    with (length (parameter_open ++ (c :: k) ++ lit ">" ++ v)).
  - replace (parameter_open ++ c :: k ++ lit ">" ++ v ++ rest)
      with ((parameter_open ++ (c :: k) ++ lit ">" ++ v) ++ rest)
      by (rewrite <- !app_assoc; reflexivity).
    apply firstn_prefix.
  - rewrite !length_app. cbn [length]. change (length (lit ">")) with 1.
    unfold p1. lia.
Qed.

Lemma at_lt_stops s : at_lt s -> stops (not_char 60) s.
Proof. destruct s as [|c t]; simpl; [auto | intros ->; reflexivity]. Qed.

Lemma markers_at_lt kvs : at_lt (concat (List.map marker kvs)).
Proof. destruct kvs as [|kv kvs]; simpl; [exact I | reflexivity]. Qed.

Lemma scan_markers : forall kvs pos o,
  forallb plain kvs = true ->
  fold_left
    (fun parameters m => obj_set parameters (to_key (group m 1)) (to_val (group m 2)))
    (scan parameter_regex 0 pos (concat (List.map marker kvs))) o
  = fold_left store kvs o.
Proof.
  induction kvs as [|[k v] kvs IH]; intros pos o H.
  - reflexivity.
  - simpl in H. apply andb_prop in H. destruct H as [Hkv H].
    unfold plain in Hkv. simpl in Hkv.
    apply andb_prop in Hkv. destruct Hkv as [Hkv Hv].
    apply andb_prop in Hkv. destruct Hkv as [Hk Hk62].
    assert (Hne : k <> []) by (destruct k; [discriminate | discriminate]).
    change (concat (List.map marker ((k, v) :: kvs)))
      with (marker (k, v) ++ concat (List.map marker kvs)).
    rewrite (scan_match parameter_regex pos (marker (k, v)) _
               {| index := pos; whole := marker (k, v); groups := [(2, v); (1, k)] |}).
    + simpl fold_left. rewrite IH by exact H. reflexivity.
    + apply parameter_match_at; auto. apply at_lt_stops, markers_at_lt.
    + reflexivity.
    + discriminate.
Qed.

Lemma absent_tail p c s : absent p (c :: s) -> absent p s.
Proof. intros H a b E. apply (H (c :: a) b). simpl. congruence. Qed.

Lemma parameter_no_match pos c pre rest :
  absent parameter_open (c :: pre) -> at_lt rest ->
  match_at parameter_regex pos (c :: pre ++ rest) = None.
Proof.
  intros Habs Hrest. unfold match_at, parameter_regex. cbn [run].
  destruct (strip_prefix (lit "<parameter=") (c :: pre ++ rest)) as [r|] eqn:Hs;
    [|reflexivity].
  exfalso. change (lit "<parameter=") with (60%N :: lit "parameter=") in Hs.
  rewrite strip_prefix_cons in Hs. destruct (N.eqb_spec 60 c) as [<-|]; [|discriminate].
  destruct (strip_prefix_inside 60 (lit "parameter=") rest pre r eq_refl Hrest Hs) as [r' Hr'].
  apply strip_prefix_app in Hr'. apply (Habs [] r'). simpl. rewrite Hr'. reflexivity.
Qed.

(** Nothing matches in a text that holds no [<parameter=]. *)
Lemma scan_absent_prefix rest : forall pre pos,
  absent parameter_open pre -> at_lt rest ->
  scan parameter_regex 0 pos (pre ++ rest) = scan parameter_regex 0 (pos + length pre) rest.
Proof.
  induction pre as [|c pre IH]; intros pos Habs Hrest.
  - simpl. rewrite Nat.add_0_r. reflexivity.
  - simpl app. rewrite scan_no_match by (apply parameter_no_match; assumption).
    rewrite IH by (eauto using absent_tail). simpl length. f_equal. lia.
Qed.

Lemma code_parameters_markers pre kvs :
  absent parameter_open pre -> forallb plain kvs = true ->
  code_parameters (pre ++ concat (List.map marker kvs)) = fold_left store kvs [].
Proof.
  intros Hpre Hkvs. unfold code_parameters, String_matchAll.
  rewrite scan_absent_prefix by (auto using markers_at_lt).
  apply scan_markers. exact Hkvs.
Qed.

Lemma insert_prop_append k v : forall o,
  array_index k = None -> insert_prop k v o = o ++ [(k, v)].
Proof.
  intros o Hk. induction o as [|[k' v'] o IH]; simpl; [reflexivity|].
  rewrite Hk, IH. reflexivity.
Qed.

Lemma store_put o kv : ordinary_key (fst kv) = true -> store o kv = put o kv.
Proof.
  unfold ordinary_key, store, put, obj_set, define_prop. intros H.
  apply andb_prop in H. destruct H as [H1 H2].
  apply negb_true_iff in H1. rewrite H1.
  destruct (array_index (fst kv)) eqn:Hi; [discriminate|].
  rewrite insert_prop_append by exact Hi. reflexivity.
Qed.

Lemma fold_store_put kvs : forall o,
  forallb (fun kv => ordinary_key (fst kv)) kvs = true ->
  fold_left store kvs o = fold_left put kvs o.
Proof.
  induction kvs as [|kv kvs IH]; intros o H; simpl; [reflexivity|].
  simpl in H. apply andb_prop in H. destruct H as [Hkv H].
  rewrite store_put by exact Hkv. apply IH. exact H.
Qed.

(** C3, as the code has it: in a region that holds a function marker and
    then, after a text without parameter markers, a sequence of markers
    [<parameter=KEY>] each followed by its value (the keys non-empty and
    free of [>], neither array indices nor [__proto__]; the values free of
    [<]), every key is stored with the text between its marker and the next
    marker or the end of the region as it stands, not trimmed, in first-seen
    key order, a later value of a key taking the place of the earlier. *)
Theorem code_parameters_first_seen :
  forall ft ent content region pre kvs,
    tag_body (lit "<code_env>") (lit "</code_env>") content = Some region ->
    String_match function_regex region <> None ->
    region = pre ++ concat (List.map marker kvs) ->
    absent parameter_open pre ->
    forallb plain kvs = true ->
    forallb (fun kv => ordinary_key (fst kv)) kvs = true ->
    exists pc t,
      call (parseCodeContent ft ent content) = Ok pc
      /\ invocations pc = [t]
      /\ arguments (function t) = JSON_stringify ft (VObject (first_seen kvs)).
Proof.
  intros ft ent content region pre kvs Hregion Hfun -> Hpre Hplain Hord.
  exists (result ft ent content (code_env_found content)).
  unfold call. rewrite parseCodeContent_run.
  rewrite invocations_result, code_env_found_body, Hregion.
  destruct (String_match function_regex _) as [fm|]; [|congruence].
  eexists. split; [reflexivity|]. split; [reflexivity|]. simpl.
  rewrite code_parameters_markers by assumption.
  rewrite fold_store_put by exact Hord. reflexivity.
Qed.

(** The three markers of [three_markers_content]: the second value of
    [cmd] at the place of the first, both untrimmed. *)
Lemma code_parameters_first_seen_witness :
  tag_body (lit "<code_env>") (lit "</code_env>") three_markers_content
  = Some three_markers_region
  /\ three_markers_region
     = lit "<function=run><parameter=cmd> ls -la <parameter=cwd>/tmp<parameter=cmd>pwd "
  /\ exists pc t,
      call (parseCodeContent literal_text sample_entropy three_markers_content) = Ok pc
      /\ invocations pc = [t]
      /\ arguments (function t) = VString (jq "{`cmd`:`pwd `,`cwd`:`/tmp`}").
Proof.
  assert (H1 : tag_body (lit "<code_env>") (lit "</code_env>") three_markers_content
               = Some three_markers_region) by (vm_compute; reflexivity).
  assert (H2 : String_match function_regex three_markers_region <> None)
    by (vm_compute; discriminate).
  assert (H3 : absent parameter_open (lit "<function=run>"))
    by exact (proj1 (cut_none parameter_open (lit "<function=run>")) eq_refl).
  split; [exact H1|]. split; [vm_compute; reflexivity|].
  exact (code_parameters_first_seen literal_text sample_entropy three_markers_content
           three_markers_region (lit "<function=run>") three_markers
           H1 H2 eq_refl H3 eq_refl eq_refl).
Defined.

(** C3 as stated fails. The value of a marker is stored with its
    surrounding white space; it ends at the first [<], marker or not; and a
    key that is an array index goes before the keys seen earlier. *)
Lemma parameter_value_not_trimmed :
  call (parseCodeContent literal_text sample_entropy
          (lit "<code_env><function=run><parameter=cmd> ls -la </code_env>"))
  = Ok (code_call (jq "{`cmd`:` ls -la `}"))
  /\ call (parseCodeContent literal_text sample_entropy
             (lit "<code_env><function=run><parameter=expr>a<b</code_env>"))
     = Ok (code_call (jq "{`expr`:`a`}"))
  /\ call (parseCodeContent literal_text sample_entropy
             (lit "<code_env><function=run><parameter=b>x<parameter=1>y</code_env>"))
     = Ok (code_call (jq "{`1`:`y`,`b`:`x`}")).
Proof. repeat split; vm_compute; reflexivity. Qed.

(** ** Trimming and splitting *)

(** The visible ASCII characters are no white space. *)
Lemma graphic_not_white_space c :
  (33 <= c <= 126)%N -> is_white_space c = false.
Proof.
  intros H. unfold is_white_space. simpl existsb.
  repeat match goal with
         | |- context [N.eqb c ?k] => destruct (N.eqb_spec c k); [lia|]
         end.
  simpl. apply andb_false_iff. left. apply N.leb_gt. lia.
Qed.

Lemma trimStart_id c s : is_white_space c = false -> trimStart (c :: s) = c :: s.
Proof. intros H. simpl. rewrite H. reflexivity. Qed.

Lemma trimEnd_id s d : is_white_space d = false -> trimEnd (s ++ [d]) = s ++ [d].
Proof.
  intros H. unfold trimEnd. rewrite rev_app_distr.
  change (rev [d] ++ rev s) with (d :: rev s).
  rewrite trimStart_id by exact H.
  change (d :: rev s) with ([d] ++ rev s). rewrite rev_app_distr, rev_involutive.
  reflexivity.
Qed.

(** A text that neither starts nor ends with white space is its own trim,
    also behind one space. *)
Lemma trim_id c s1 s2 d :
  c :: s1 = s2 ++ [d] -> is_white_space c = false -> is_white_space d = false ->
  trim (c :: s1) = c :: s1 /\ trim (32%N :: c :: s1) = c :: s1.
Proof.
  intros E Hc Hd. unfold trim.
  change (trimStart (32%N :: c :: s1)) with (trimStart (c :: s1)).
  rewrite trimStart_id by exact Hc. rewrite E, trimEnd_id by exact Hd. auto.
Qed.

Lemma split_no_separator sep : forall s,
  forallb (not_char sep) s = true -> split sep s = [s].
Proof.
  induction s as [|c s IH]; simpl; [reflexivity|].
  intros H. apply andb_prop in H. destruct H as [Hc Hs].
  unfold not_char in Hc. apply negb_true_iff in Hc. rewrite Hc, IH by exact Hs.
  reflexivity.
Qed.

Lemma split_at_separator sep rest : forall s,
  forallb (not_char sep) s = true ->
  split sep (s ++ sep :: rest) = s :: split sep rest.
Proof.
  induction s as [|c s IH]; simpl.
  - rewrite N.eqb_refl. reflexivity.
  - intros H. apply andb_prop in H. destruct H as [Hc Hs].
    unfold not_char in Hc. apply negb_true_iff in Hc. rewrite Hc, IH by exact Hs.
    reflexivity.
Qed.

(** ** Delimited matches *)

(** A literal, a non-empty run of a class that the next literal ends, and
    that literal. *)
Lemma delimited_match_at L C p i pos P R :
  P <> [] -> forallb p P = true -> stops p (C ++ R) ->
  match_at (Chars L +++ Group i (Plus p) +++ Chars C) pos (L ++ P ++ C ++ R)
  = Some {| index := pos; whole := L ++ P ++ C; groups := [(i, P)] |}.
Proof.
  intros HP Hp Hstop. destruct P as [|c P]; [congruence|].
  simpl in Hp. apply andb_prop in Hp. destruct Hp as [Hc Hp].
  unfold match_at. cbn [run]. rewrite strip_prefix_same.
  change ((c :: P) ++ C ++ R) with (c :: P ++ C ++ R).
  cbv beta iota. rewrite Hc.
  set (p1 := pos + length L).
  set (K := fun pos' inp' => _).
  assert (HK : K (S p1 + length P) (C ++ R)
               = Some (S p1 + length P + length C, [(i, c :: P)])).
  { unfold K. rewrite strip_prefix_same. unfold accept. do 4 f_equal.
    replace (S p1 + length P - p1) with (length (c :: P)) by (cbn [length]; lia).
    change (c :: P ++ C ++ R) with ((c :: P) ++ C ++ R). apply firstn_prefix. }
  rewrite (greedy_max _ p K (C ++ R) P (S p1));
    [ | exact Hp | exact Hstop | rewrite HK; discriminate ].
  rewrite HK. do 2 f_equal.
  replace (S p1 + length P + length C - pos) with (length (L ++ (c :: P) ++ C))
    by (rewrite !length_app; cbn [length]; unfold p1; lia).
  replace (L ++ c :: P ++ C ++ R) with ((L ++ (c :: P) ++ C) ++ R)
    by (rewrite <- !app_assoc; reflexivity).
  apply firstn_prefix.
Qed.

(** The same without the group. *)
Lemma delimited_erase_match_at L C p pos P R :
  P <> [] -> forallb p P = true -> stops p (C ++ R) ->
  match_at (Chars L +++ Plus p +++ Chars C) pos (L ++ P ++ C ++ R)
  = Some {| index := pos; whole := L ++ P ++ C; groups := [] |}.
Proof.
  intros HP Hp Hstop. destruct P as [|c P]; [congruence|].
  simpl in Hp. apply andb_prop in Hp. destruct Hp as [Hc Hp].
  unfold match_at. cbn [run]. rewrite strip_prefix_same.
  change ((c :: P) ++ C ++ R) with (c :: P ++ C ++ R).
  cbv beta iota. rewrite Hc.
  set (p1 := pos + length L).
  set (K := fun pos' inp' => _).
  assert (HK : K (S p1 + length P) (C ++ R) = Some (S p1 + length P + length C, [])).
  { unfold K. rewrite strip_prefix_same. reflexivity. }
  rewrite (greedy_max _ p K (C ++ R) P (S p1));
    [ | exact Hp | exact Hstop | rewrite HK; discriminate ].
  rewrite HK. do 2 f_equal.
  replace (S p1 + length P + length C - pos) with (length (L ++ (c :: P) ++ C))
    by (rewrite !length_app; cbn [length]; unfold p1; lia).
  replace (L ++ c :: P ++ C ++ R) with ((L ++ (c :: P) ++ C) ++ R)
    by (rewrite <- !app_assoc; reflexivity).
  apply firstn_prefix.
Qed.

Lemma search_here r pos inp m : match_at r pos inp = Some m -> search r pos inp = Some m.
Proof. intros H. destruct inp; simpl; rewrite H; reflexivity. Qed.

(** ** The quotes around a value *)

Lemma strip_last_cons c d w :
  strip_last (c :: d :: w) = c :: strip_last (d :: w).
Proof.
  unfold strip_last. cbn [rev].
  destruct (rev w ++ [d]) as [|e t] eqn:E.
  - destruct (rev w); discriminate.
  - change ((e :: t) ++ [c]) with (e :: (t ++ [c])). cbv iota.
    destruct (is_quote e); [|reflexivity].
    rewrite rev_app_distr. reflexivity.
Qed.

Lemma quotes_no_match_inside n c t :
  t <> [] -> match_at quotes_regex (S n) (c :: t) = None.
Proof.
  intros Ht. unfold match_at, quotes_regex. cbn [run]. simpl Nat.eqb.
  destruct (is_quote c); [|reflexivity].
  destruct t; [congruence | reflexivity].
Qed.

Lemma quotes_match_last n q :
  is_quote q = true ->
  match_at quotes_regex (S n) [q] = Some {| index := S n; whole := [q]; groups := [] |}.
Proof.
  intros Hq. unfold match_at, quotes_regex. cbn [run]. simpl Nat.eqb.
  rewrite Hq. unfold accept.
  replace (S (S n) - S n) with 1 by lia. reflexivity.
Qed.

Lemma quotes_match_first q t :
  is_quote q = true ->
  match_at quotes_regex 0 (q :: t) = Some {| index := 0; whole := [q]; groups := [] |}.
Proof.
  intros Hq. unfold match_at, quotes_regex. cbn [run]. simpl Nat.eqb.
  rewrite Hq. reflexivity.
Qed.

Lemma quotes_no_match c n t :
  is_quote c = false -> match_at quotes_regex n (c :: t) = None.
Proof.
  intros Hc. unfold match_at, quotes_regex. cbn [run].
  destruct (Nat.eqb n 0); rewrite Hc; reflexivity.
Qed.

(** After the first character only a quote at the very end matches. *)
Lemma erase_after_start : forall w n,
  erase quotes_regex 0 (S n) w = strip_last w.
Proof.
  induction w as [|c w IH]; intros n; [reflexivity|].
  destruct w as [|d w].
  - simpl erase. destruct (is_quote c) eqn:Hc.
    + rewrite quotes_match_last by exact Hc. unfold strip_last. simpl. rewrite Hc.
      reflexivity.
    + rewrite quotes_no_match by exact Hc. unfold strip_last. simpl. rewrite Hc.
      reflexivity.
  - rewrite strip_last_cons, <- (IH (S n)).
    simpl erase at 1. rewrite quotes_no_match_inside by discriminate. reflexivity.
Qed.

(** [value.replace(...)] with the pattern of the two quotes. *)
Lemma String_replace_all_quotes v :
  String_replace_all quotes_regex v = strip_quotes v.
Proof.
  unfold String_replace_all, strip_quotes. destruct v as [|c t]; [reflexivity|].
  simpl erase. destruct (is_quote c) eqn:Hc.
  - rewrite quotes_match_first by exact Hc. cbn [whole length]. apply erase_after_start.
  - rewrite quotes_no_match by exact Hc. rewrite erase_after_start.
    destruct t as [|d t].
    + unfold strip_last. simpl. rewrite Hc. reflexivity.
    + symmetry. apply strip_last_cons.
Qed.

(** ** Integers in decimal notation *)

Lemma natural_literal_digits s z :
  natural_literal s = Some z ->
  s <> [] /\ forallb is_digit s = true /\ z = digits_value 10 decimal_digit s.
Proof.
  unfold natural_literal. destruct s as [|c u]; [discriminate|].
  destruct (forallb is_digit (c :: u)); [|discriminate].
  intros [= <-]. repeat split. discriminate.
Qed.

Lemma is_digit_range c : is_digit c = true -> (48 <= c <= 57)%N.
Proof.
  unfold is_digit. intros H. apply andb_prop in H. destruct H as [H1 H2].
  apply N.leb_le in H1, H2. lia.
Qed.

Lemma digits_end s :
  s <> [] -> forallb is_digit s = true ->
  exists s' d, s = s' ++ [d] /\ is_white_space d = false.
Proof.
  intros Hne Hs. destruct (exists_last Hne) as (s' & d & ->).
  exists s', d. split; [reflexivity|].
  rewrite forallb_app in Hs. apply andb_prop in Hs. destruct Hs as [_ Hd].
  simpl in Hd. rewrite andb_true_r in Hd. apply is_digit_range in Hd.
  apply graphic_not_white_space. lia.
Qed.

Lemma span_digits : forall s, forallb is_digit s = true -> span is_digit s = (s, []).
Proof.
  induction s as [|c s IH]; simpl; [reflexivity|].
  intros H. apply andb_prop in H. destruct H as [Hc Hs].
  rewrite Hc, IH by exact Hs. reflexivity.
Qed.

Lemma scan_decimal_digits s :
  forallb is_digit s = true ->
  scan_decimal s = Some {| d_int := s; d_dot := false; d_frac := []; d_exp := None |}.
Proof.
  intros H. unfold scan_decimal. rewrite span_digits by exact H. reflexivity.
Qed.

Lemma digits_value_nonneg s : (0 <= digits_value 10 decimal_digit s)%Z.
Proof.
  unfold digits_value.
  assert (H : forall a, (0 <= a)%Z ->
                (0 <= fold_left (fun a c => 10 * a + decimal_digit c) s a)%Z).
  { induction s as [|c s IH]; intros a Ha; cbn [fold_left]; [exact Ha|].
    apply IH. unfold decimal_digit. lia. }
  apply H. lia.
Qed.

(** An integer of the safe range is its own double, a zero behind a minus
    sign the negative zero. *)
Lemma classify_integer neg src D :
  (0 <= D <= 2 ^ 53)%Z ->
  classify neg src D 0
  = if (D =? 0)%Z && neg then NegZero else Int (if neg then - D else D).
Proof.
  intros HD. unfold classify.
  change (Z.max 0 0) with 0%Z. change (Z.max (- 0) 0) with 0%Z.
  change (10 ^ 0)%Z with 1%Z. rewrite Z.mul_1_r.
  assert (Hs : (1 < 2 ^ 1075)%Z) by (apply Z.pow_gt_1; lia).
  assert (Hb : (2 ^ 53 < 2 ^ 1024 - 2 ^ 970)%Z) by (vm_compute; reflexivity).
  set (small := (2 ^ 1075)%Z) in *. set (huge := (2 ^ 1024 - 2 ^ 970)%Z) in *.
  set (safe := (2 ^ 53)%Z) in *.
  destruct (Z.eqb_spec D 0) as [->|Hnz].
  - rewrite orb_true_l. destruct neg; reflexivity.
  - rewrite orb_false_l, andb_false_l.
    replace (D * small <=? 1)%Z with false by (symmetry; apply Z.leb_gt; nia).
    rewrite Z.mul_1_r.
    replace (huge <=? D)%Z with false by (symmetry; apply Z.leb_gt; lia).
    rewrite Z.mod_1_r, Z.div_1_r, Z.eqb_refl, andb_true_l.
    replace (D <=? safe)%Z with true by (symmetry; apply Z.leb_le; lia).
    reflexivity.
Qed.

Lemma digits_not_infinity s :
  forallb is_digit s = true -> str_eqb s (lit "Infinity") = false.
Proof.
  intros H. destruct (str_eqb s (lit "Infinity")) eqn:E; [|reflexivity].
  apply str_eqb_eq in E. subst s. discriminate.
Qed.

Lemma non_decimal_digits c u :
  (c =? 48)%N = false \/ forallb is_digit u = true ->
  non_decimal (c :: u) = None.
Proof.
  intros H. unfold non_decimal. destruct u as [|p ds]; [reflexivity|].
  destruct H as [H|H].
  - rewrite H. reflexivity.
  - simpl in H. apply andb_prop in H. destruct H as [Hp _].
    apply is_digit_range in Hp.
    destruct (negb (c =? 48)%N); [reflexivity|].
    repeat match goal with
           | |- context [N.eqb p ?k] => destruct (N.eqb_spec p k); [lia|]
           end.
    reflexivity.
Qed.

(** [Number] of the digits of an integer of the safe range, with or without
    a minus sign, is that integer; of a zero behind a minus sign it is the
    negative zero. *)
Lemma Number_integer_literal s z :
  integer_literal s = Some z -> (Z.abs z <= 2 ^ 53)%Z ->
  Number s = Int z \/ (z = 0%Z /\ Number s = NegZero).
Proof.
  unfold integer_literal. destruct s as [|c u]; [discriminate|].
  destruct (N.eqb_spec c 45) as [->|Hc].
  - destruct (natural_literal u) as [D|] eqn:HD; [|discriminate].
    intros [= <-] Hz. apply natural_literal_digits in HD.
    destruct HD as (Hne & Hdig & ->).
    destruct (digits_end u Hne Hdig) as (u' & d & Hu & Hd).
    unfold Number.
    destruct (trim_id 45 u (45%N :: u') d) as [-> _];
      [rewrite Hu; reflexivity | reflexivity | exact Hd |].
    rewrite non_decimal_digits by (left; reflexivity).
    change (split_sign (45%N :: u)) with (true, u). cbv beta iota.
    rewrite digits_not_infinity, scan_decimal_digits by exact Hdig.
    cbn [d_int d_frac]. destruct u as [|c0 u0]; [congruence|].
    unfold decimal_value. cbn [d_int d_frac d_exp]. rewrite app_nil_r.
    change (0 - Z.of_nat (length (@nil char16)))%Z with 0%Z.
    pose proof (digits_value_nonneg (c0 :: u0)).
    rewrite classify_integer by lia. rewrite andb_true_r.
    destruct (Z.eqb_spec (digits_value 10 decimal_digit (c0 :: u0)) 0) as [E|E];
      [right; rewrite E; auto | left; reflexivity].
  - intros HD Hz. apply natural_literal_digits in HD.
    destruct HD as (Hne & Hdig & ->).
    destruct (digits_end (c :: u) Hne Hdig) as (u' & d & Hu & Hd).
    assert (Hcd : is_digit c = true)
      by (simpl in Hdig; apply andb_prop in Hdig; tauto).
    pose proof (is_digit_range c Hcd) as Hr.
    unfold Number.
    destruct (trim_id c u u' d) as [-> _];
      [exact Hu | apply graphic_not_white_space; lia | exact Hd |].
    rewrite non_decimal_digits
      by (right; simpl in Hdig; apply andb_prop in Hdig; tauto).
    assert (Hsign : split_sign (c :: u) = (false, c :: u)).
    { unfold split_sign.
      destruct (N.eqb_spec c 43); [lia|]. destruct (N.eqb_spec c 45); [lia|].
      reflexivity. }
    rewrite Hsign. cbv beta iota.
    rewrite digits_not_infinity, scan_decimal_digits by exact Hdig.
    cbn [d_int d_frac].
    unfold decimal_value. cbn [d_int d_frac d_exp]. rewrite app_nil_r.
    change (0 - Z.of_nat (length (@nil char16)))%Z with 0%Z.
    pose proof (digits_value_nonneg (c :: u)).
    rewrite classify_integer by lia. rewrite andb_false_r. left. reflexivity.
Qed.

(** ** The pointer environment *)

Lemma forallb_weaken {A} (p q : A -> bool) l :
  (forall a, p a = true -> q a = true) -> forallb p l = true -> forallb q l = true.
Proof.
  intros Hpq. induction l as [|a l IH]; simpl; [reflexivity|].
  intros H. apply andb_prop in H. destruct H as [Ha Hl].
  rewrite (Hpq a Ha), IH by exact Hl. reflexivity.
Qed.

Lemma forallb_on_map {A B} (p : B -> bool) (f : A -> B) l :
  forallb p (List.map f l) = forallb (fun a => p (f a)) l.
Proof. induction l as [|a l IH]; simpl; [reflexivity | rewrite IH; reflexivity]. Qed.

Lemma is_word_char_range c :
  is_word_char c = true ->
  ((48 <= c <= 57) \/ (65 <= c <= 90) \/ (97 <= c <= 122) \/ c = 95)%N.
Proof.
  unfold is_word_char. intros H.
  repeat (apply orb_prop in H; destruct H as [H|H]);
    try (apply andb_prop in H; destruct H as [H1 H2]; apply N.leb_le in H1, H2; lia).
  apply N.eqb_eq in H. lia.
Qed.

Lemma not_char_of_range x c : c <> x -> not_char x c = true.
Proof. intros H. unfold not_char. apply negb_true_iff, N.eqb_neq. exact H. Qed.

Lemma word_not_char x k :
  (x = 32 \/ x = 44 \/ x = 61 \/ x = 60)%N ->
  forallb is_word_char k = true -> forallb (not_char x) k = true.
Proof.
  intros Hx. apply forallb_weaken. intros c Hc.
  apply is_word_char_range in Hc. apply not_char_of_range. lia.
Qed.

Lemma integer_literal_chars s z :
  integer_literal s = Some z ->
  s <> [] /\ forallb (not_char 60) s = true /\ forallb (not_char 32) s = true.
Proof.
  unfold integer_literal. destruct s as [|c u]; [discriminate|].
  assert (Hd : forall x w, (x = 60 \/ x = 32)%N ->
                 forallb is_digit w = true -> forallb (not_char x) w = true).
  { intros x w Hx. apply forallb_weaken. intros a Ha.
    apply is_digit_range in Ha. apply not_char_of_range. lia. }
  destruct (N.eqb_spec c 45) as [->|Hc].
  - destruct (natural_literal u) as [D|] eqn:HD; [|discriminate].
    intros _. apply natural_literal_digits in HD. destruct HD as (_ & Hdig & _).
    split; [discriminate|]. simpl. rewrite !Hd by auto. auto.
  - intros HD. apply natural_literal_digits in HD. destruct HD as (_ & Hdig & _).
    split; [discriminate|]. rewrite !Hd by auto. auto.
Qed.

Lemma skipn_prefix {A} (a b : list A) : skipn (length a) (a ++ b) = b.
Proof. rewrite skipn_app, skipn_all, Nat.sub_diag. reflexivity. Qed.

(** *** White space around a text *)

Lemma bare_ends s :
  bare s = true ->
  exists c t s' d,
    s = c :: t /\ s = s' ++ [d]
    /\ is_white_space c = false /\ is_white_space d = false.
Proof.
  unfold bare. destruct s as [|c t]; [discriminate|].
  intros H. apply andb_prop in H. destruct H as [Hc Hd].
  apply negb_true_iff in Hc, Hd.
  destruct (@exists_last _ (c :: t)) as (s' & d & E); [discriminate|].
  assert (Hl : last (c :: t) c = last t c) by (destruct t; reflexivity).
  rewrite <- Hl, E, last_last in Hd.
  exists c, t, s', d. repeat split; auto.
Qed.

Lemma trimStart_blank l : forall s,
  forallb is_white_space l = true -> trimStart (l ++ s) = trimStart s.
Proof.
  induction l as [|c l IH]; intros s H; [reflexivity|].
  simpl in H. apply andb_prop in H. destruct H as [Hc Hl].
  simpl. rewrite Hc. apply IH. exact Hl.
Qed.

Lemma trimEnd_blank s r :
  forallb is_white_space r = true -> trimEnd (s ++ r) = trimEnd s.
Proof.
  intros H. unfold trimEnd. rewrite rev_app_distr, trimStart_blank; [reflexivity|].
  rewrite forallb_forall in *. intros c Hc. apply H, in_rev. exact Hc.
Qed.

(** A text without white space at its ends is the trim of itself between
    white space. *)
Lemma trim_around l m r :
  forallb is_white_space l = true -> forallb is_white_space r = true ->
  bare m = true -> trim (l ++ m ++ r) = m.
Proof.
  intros Hl Hr Hm.
  destruct (bare_ends m Hm) as (c & t & m' & d & E1 & E2 & Hc & Hd).
  unfold trim. rewrite trimStart_blank by exact Hl.
  rewrite E1. change ((c :: t) ++ r) with (c :: (t ++ r)).
  rewrite trimStart_id by exact Hc.
  change (c :: (t ++ r)) with ((c :: t) ++ r). rewrite trimEnd_blank by exact Hr.
  rewrite <- E1, E2. apply trimEnd_id. exact Hd.
Qed.

Lemma trimStart_head s :
  trimStart s = [] \/ exists c t, trimStart s = c :: t /\ is_white_space c = false.
Proof.
  induction s as [|c s IH]; simpl; [auto|].
  destruct (is_white_space c) eqn:Hc; [exact IH|]. right. eauto.
Qed.

Lemma trimStart_last a d :
  is_white_space d = false -> exists a', trimStart (a ++ [d]) = a' ++ [d].
Proof.
  intros Hd. induction a as [|c a IH]; simpl.
  - rewrite Hd. exists []. reflexivity.
  - destruct (is_white_space c); [exact IH|]. exists (c :: a). reflexivity.
Qed.

Lemma trim_clipped s : clipped (trim s).
Proof.
  unfold clipped, trim, trimEnd.
  destruct (trimStart_head s) as [->|(c & t & -> & Hc)]; [left; reflexivity|].
  right. simpl rev.
  destruct (trimStart_last (rev t) c Hc) as (a' & Ha).
  destruct (trimStart_head (rev t ++ [c])) as [E|(e & u & E & He)].
  - rewrite E in Ha. destruct a'; discriminate.
  - rewrite Ha, rev_app_distr. simpl. rewrite Hc. simpl.
    rewrite Ha in E. apply negb_true_iff.
    destruct a' as [|x a'].
    + simpl. exact Hc.
    + simpl in E. injection E as -> _. simpl rev. rewrite last_last. exact He.
Qed.

Lemma trimStart_white s :
  exists l, s = l ++ trimStart s /\ forallb is_white_space l = true.
Proof.
  induction s as [|c t (l & E & Hl)]; simpl.
  - exists []. auto.
  - destruct (is_white_space c) eqn:Hc.
    + exists (c :: l). simpl. rewrite Hc, Hl. split; [congruence | reflexivity].
    + exists []. auto.
Qed.

(** A text that is not blank: its trim, bare, between white space. *)
Lemma trim_parts s :
  has_text s = true ->
  exists l r, s = l ++ trim s ++ r
              /\ forallb is_white_space l = true /\ forallb is_white_space r = true
              /\ bare (trim s) = true.
Proof.
  unfold has_text. intros H.
  destruct (trimStart_white s) as (l & El & Hl).
  destruct (trimStart_white (rev (trimStart s))) as (r & Er & Hr).
  exists l, (rev r). split; [|split; [exact Hl|split]].
  - unfold trim, trimEnd. rewrite <- rev_app_distr, <- Er, rev_involutive. exact El.
  - rewrite forallb_forall in *. intros c Hc. apply Hr, in_rev. exact Hc.
  - destruct (trim_clipped s) as [E|E]; [rewrite E in H; discriminate | exact E].
Qed.

Lemma bare_between a x b : bare a = true -> bare b = true -> bare (a ++ x ++ b) = true.
Proof.
  intros Ha Hb.
  destruct (bare_ends a Ha) as (c & t & _ & _ & -> & _ & Hc & _).
  destruct (bare_ends b Hb) as (_ & _ & b' & d & _ & -> & _ & Hd).
  change ((c :: t) ++ x ++ b' ++ [d]) with (c :: (t ++ x ++ b' ++ [d])).
  unfold bare. rewrite Hc.
  replace (t ++ x ++ b' ++ [d]) with ((t ++ x ++ b') ++ [d])
    by (rewrite <- !app_assoc; reflexivity).
  rewrite last_last, Hd. reflexivity.
Qed.

Lemma unbroken_parts s :
  unbroken s = true ->
  forallb (not_char 44) s = true /\ forallb (not_char 61) s = true.
Proof. unfold unbroken. intros H. apply andb_prop in H. exact H. Qed.

(** *** The loop over the arguments *)

(** The loop body on [K=V]: the trimmed value goes under the trimmed key
    without its quotes. *)
Lemma other_param_assign o K V :
  unbroken K = true -> unbroken V = true -> has_text K = true -> has_text V = true ->
  other_param o (K ++ lit "=" ++ V) = store o (trim K, strip_quotes (trim V)).
Proof.
  intros HK HV HtK HtV.
  destruct (unbroken_parts K HK) as [_ HK61].
  destruct (unbroken_parts V HV) as [_ HV61].
  destruct (trim_parts K HtK) as (lk & rk & EK & Hlk & Hrk & HbK).
  destruct (trim_parts V HtV) as (lv & rv & EV & Hlv & Hrv & HbV).
  set (mk := trim K) in *. set (mv := trim V) in *.
  rewrite EK, !forallb_app in HK61. rewrite EV, !forallb_app in HV61.
  apply andb_prop in HK61. destruct HK61 as [_ HK61].
  apply andb_prop in HK61. destruct HK61 as [Hmk61 Hrk61].
  apply andb_prop in HV61. destruct HV61 as [Hlv61 HV61].
  apply andb_prop in HV61. destruct HV61 as [Hmv61 _].
  assert (Htrim : trim (K ++ lit "=" ++ V) = mk ++ (rk ++ lit "=" ++ lv) ++ mv).
  { replace (K ++ lit "=" ++ V) with (lk ++ (mk ++ (rk ++ lit "=" ++ lv) ++ mv) ++ rv)
      by (transitivity ((lk ++ mk ++ rk) ++ lit "=" ++ (lv ++ mv ++ rv));
          [rewrite <- !app_assoc; reflexivity | rewrite <- EK, <- EV; reflexivity]).
    apply trim_around; [exact Hlk | exact Hrv | apply bare_between; assumption]. }
  assert (Hsplit : split 61 (mk ++ (rk ++ lit "=" ++ lv) ++ mv) = [mk ++ rk; lv ++ mv]).
  { replace (mk ++ (rk ++ lit "=" ++ lv) ++ mv) with ((mk ++ rk) ++ 61%N :: (lv ++ mv))
      by (rewrite <- !app_assoc; reflexivity).
    rewrite split_at_separator by (rewrite forallb_app, Hmk61, Hrk61; reflexivity).
    rewrite split_no_separator by (rewrite forallb_app, Hlv61, Hmv61; reflexivity).
    reflexivity. }
  assert (Hkey : trim (mk ++ rk) = mk).
  { apply (trim_around [] mk rk); [reflexivity | exact Hrk | exact HbK]. }
  assert (Hval : trim (lv ++ mv) = mv).
  { rewrite <- (app_nil_r mv) at 1.
    apply (trim_around lv mv []); [exact Hlv | reflexivity | exact HbV]. }
  unfold other_param. rewrite Htrim. cbv zeta. rewrite Hsplit.
  cbn [List.map nth_error]. rewrite Hkey, Hval.
  destruct mk as [|c mk']; [discriminate HbK|].
  destruct mv as [|e mv']; [discriminate HbV|].
  cbn [app]. rewrite String_replace_all_quotes. reflexivity.
Qed.

Lemma other_param_no_equals o p :
  forallb (not_char 61) p = true -> other_param o p = o.
Proof.
  intros Hp. unfold other_param.
  destruct (trim p) as [|c t] eqn:E; [reflexivity|].
  assert (Ht : forallb (not_char 61) (c :: t) = true).
  { destruct (trim_substring p) as (a & b & Hab). rewrite E in Hab.
    rewrite Hab, !forallb_app in Hp.
    apply andb_prop in Hp. destruct Hp as [_ Hp].
    apply andb_prop in Hp. destruct Hp as [Hp _]. exact Hp. }
  rewrite split_no_separator by exact Ht. simpl.
  destruct (trim (c :: t)); reflexivity.
Qed.

(** The loop body on an argument that is no point. *)
Lemma other_param_argument o a :
  well_formed a = true -> is_point a = false ->
  other_param o (argument_text a) = fold_left put (assigned a) o.
Proof.
  destruct a as [K V|b X Y a|T]; intros H Hp; [|discriminate|];
    cbn [well_formed] in H; cbn [argument_text assigned fold_left].
  - do 5 (apply andb_prop in H; destruct H as [H ?]).
    rewrite other_param_assign by assumption.
    apply store_put. assumption.
  - apply other_param_no_equals. apply unbroken_parts in H. tauto.
Qed.

Lemma other_params_arguments items : forall o,
  forallb well_formed items = true -> filter is_point items = [] ->
  fold_left other_param (List.map argument_text items) o
  = fold_left put (flat_map assigned items) o.
Proof.
  induction items as [|a items IH]; intros o H Hp; [reflexivity|].
  simpl in H. apply andb_prop in H. destruct H as [Ha H].
  simpl in Hp. destruct (is_point a) eqn:Ea; [discriminate|].
  cbn [List.map fold_left flat_map]. rewrite fold_left_app.
  rewrite other_param_argument by assumption. apply IH; assumption.
Qed.

(** *** The arguments between the commas *)

Lemma join_cons sep a t :
  join sep (a :: t) = a ++ concat (List.map (fun b => sep ++ b) t).
Proof.
  revert a. induction t as [|b t IH]; intros a.
  - simpl. rewrite app_nil_r. reflexivity.
  - change (join sep (a :: b :: t)) with (a ++ sep ++ join sep (b :: t)).
    rewrite IH. cbn [List.map concat]. rewrite <- app_assoc. reflexivity.
Qed.

Lemma join_middle sep pre t post :
  join sep (pre ++ t :: post)
  = concat (List.map (fun s => s ++ sep) pre) ++ t
    ++ concat (List.map (fun s => sep ++ s) post).
Proof.
  induction pre as [|a pre IH].
  - apply join_cons.
  - change ((a :: pre) ++ t :: post) with (a :: (pre ++ t :: post)).
    destruct (pre ++ t :: post) as [|j l] eqn:E; [destruct pre; discriminate|].
    change (join sep (a :: j :: l)) with (a ++ sep ++ join sep (j :: l)).
    rewrite IH. cbn [List.map concat]. rewrite <- !app_assoc. reflexivity.
Qed.

(** Splitting at the commas gives the arguments back; no argument at all
    reads as one empty argument. *)
Lemma split_join texts :
  Forall (fun t => forallb (not_char 44) t = true) texts ->
  split 44 (join (lit ",") texts)
  = match texts with
    | [] => [[]]
    | _ :: _ => texts
    end.
Proof.
  induction texts as [|a [|b t] IH]; intros H.
  - reflexivity.
  - inversion H; subst. apply split_no_separator. assumption.
  - change (join (lit ",") (a :: b :: t)) with (a ++ 44%N :: join (lit ",") (b :: t)).
    inversion H; subst. rewrite split_at_separator by assumption.
    f_equal. apply IH. assumption.
Qed.

(** *** The first point among the arguments *)

Lemma cut_at_start p s rest : strip_prefix p s = Some rest -> cut p s = Some ([], rest).
Proof. intros H. destruct s; simpl; rewrite H; reflexivity. Qed.

Lemma cut_skip p c t :
  strip_prefix p (c :: t) = None ->
  cut p (c :: t) = match cut p t with
                   | Some (a, b) => Some (c :: a, b)
                   | None => None
                   end.
Proof. intros H. simpl. rewrite H. reflexivity. Qed.

(** A pattern that starts with a literal is first tried with success where
    the literal first occurs. *)
Lemma search_first_occurrence o r m : forall s pos a b,
  cut o s = Some (a, b) ->
  match_at (Chars o +++ r) (pos + length a) (o ++ b) = Some m ->
  search (Chars o +++ r) pos s = Some m.
Proof.
  induction s as [|c t IH]; intros pos a b Hcut Hm.
  - simpl in Hcut. destruct (strip_prefix o []) as [rest|] eqn:Hs; [|discriminate].
    injection Hcut as <- <-. apply strip_prefix_app in Hs.
    simpl in Hm. rewrite Nat.add_0_r, <- Hs in Hm. apply search_here. exact Hm.
  - simpl in Hcut. destruct (strip_prefix o (c :: t)) as [rest|] eqn:Hs.
    + injection Hcut as <- <-. apply strip_prefix_app in Hs.
      simpl in Hm. rewrite Nat.add_0_r, <- Hs in Hm. apply search_here. exact Hm.
    + destruct (cut o t) as [[a' b']|] eqn:Hc; [|discriminate].
      injection Hcut as <- <-.
      simpl search. unfold match_at at 1. cbn [run]. rewrite Hs.
      apply (IH (S pos) a' b' eq_refl).
      simpl length in Hm. replace (S pos + length a') with (pos + S (length a')) by lia.
      exact Hm.
Qed.

(** A text without a comma that does not occur in an argument does not
    occur across the comma behind it either. *)
Lemma cut_past_piece q rest : forall t,
  q <> [] -> forallb (not_char 44) q = true -> cut q t = None ->
  cut q (t ++ 44%N :: rest)
  = match cut q rest with
    | Some (a, b) => Some (t ++ 44%N :: a, b)
    | None => None
    end.
Proof.
  intros t Hq Hq44.
  assert (Hinside : forall s r,
             strip_prefix q (s ++ 44%N :: rest) = Some r ->
             exists r', strip_prefix q s = Some r').
  { intros s r. apply (strip_prefix_inside 44 q (44%N :: rest)); [exact Hq44 | reflexivity]. }
  induction t as [|c t IH]; intros Hcut.
  - change ([] ++ 44%N :: rest) with (44%N :: rest).
    rewrite cut_skip; [reflexivity|].
    destruct (strip_prefix q (44%N :: rest)) as [r|] eqn:E;
      [|first [reflexivity | exact E]].
    destruct (Hinside [] r E) as [r' Hr'].
    destruct q; [congruence | discriminate].
  - simpl in Hcut.
    destruct (strip_prefix q (c :: t)) as [r0|] eqn:E0; [discriminate|].
    destruct (cut q t) as [[a0 b0]|] eqn:Et; [discriminate|].
    change ((c :: t) ++ 44%N :: rest) with (c :: (t ++ 44%N :: rest)).
    rewrite cut_skip.
    + rewrite IH by reflexivity. destruct (cut q rest) as [[a b]|]; reflexivity.
    + destruct (strip_prefix q (c :: t ++ 44%N :: rest)) as [r|] eqn:E;
      [|first [reflexivity | exact E]].
      destruct (Hinside (c :: t) r E) as [r' Hr']. congruence.
Qed.

Lemma cut_join_none q texts :
  q <> [] -> forallb (not_char 44) q = true ->
  Forall (fun t => cut q t = None) texts ->
  cut q (join (lit ",") texts) = None.
Proof.
  intros Hq Hq44. induction texts as [|a [|b t] IH]; intros H.
  - destruct q; [congruence | reflexivity].
  - inversion H; subst. assumption.
  - change (join (lit ",") (a :: b :: t)) with (a ++ 44%N :: join (lit ",") (b :: t)).
    inversion H; subst. rewrite cut_past_piece by assumption.
    rewrite IH by assumption. reflexivity.
Qed.

(** The opening of a point argument does not start in a text without an
    equals sign. *)
Lemma point_open_not_in_prefix c W b :
  forallb (not_char 61) (c :: W) = true ->
  strip_prefix point_open ((c :: W) ++ point_open ++ b) = None.
Proof.
  intros H.
  assert (Hc : forall x, not_char 61 x = true -> (61 =? x)%N = false).
  { intros x Hx. unfold not_char in Hx. apply negb_true_iff in Hx.
    rewrite N.eqb_sym. exact Hx. }
  destruct W as [|c2 [|c3 [|c4 [|c5 [|c6 W]]]]]; simpl in H;
    repeat (apply andb_prop in H; destruct H as [? H]);
    cbn -[N.eqb];
    repeat match goal with
           | |- (if N.eqb ?a ?b then _ else None) = None =>
               destruct (N.eqb a b) eqn:?; [|reflexivity]
           end;
    try discriminate; try reflexivity.
  all: repeat match goal with
              | Hx : not_char 61 ?x = true |- _ => apply Hc in Hx
              end; congruence.
Qed.

Lemma cut_point_open : forall W b,
  forallb (not_char 61) W = true ->
  cut point_open (W ++ point_open ++ b) = Some (W, b).
Proof.
  induction W as [|c W IH]; intros b H.
  - change ([] ++ point_open ++ b) with (point_open ++ b).
    apply cut_at_start, (strip_prefix_same point_open b).
  - change ((c :: W) ++ point_open ++ b) with (c :: (W ++ point_open ++ b)).
    rewrite cut_skip by (apply (point_open_not_in_prefix c W b); exact H).
    simpl in H. apply andb_prop in H. destruct H as [_ H].
    rewrite IH by exact H. reflexivity.
Qed.

(** Behind arguments that do not open a point, and a text without an
    equals sign, the first opening of a point is the one that follows. *)
Lemma cut_point_in_arguments b rest : forall pre,
  Forall (fun t => cut point_open t = None) pre ->
  forallb (not_char 61) b = true ->
  cut point_open (concat (List.map (fun s => s ++ lit ",") pre) ++ b ++ point_open ++ rest)
  = Some (concat (List.map (fun s => s ++ lit ",") pre) ++ b, rest).
Proof.
  induction pre as [|a pre IH]; intros H Hb.
  - apply cut_point_open. exact Hb.
  - inversion H; subst. cbn [List.map concat].
    replace ((a ++ lit ",") ++ concat (List.map (fun s => s ++ lit ",") pre))
      with (a ++ 44%N :: concat (List.map (fun s => s ++ lit ",") pre))
      by (rewrite <- app_assoc; reflexivity).
    rewrite <- !app_assoc. cbn [app].
    rewrite cut_past_piece; [|discriminate | reflexivity | assumption].
    rewrite IH by assumption. reflexivity.
Qed.

(** Where the opening of a point first occurs before coordinates and the
    closing, the point pattern matches there; the replacement takes the
    point out. *)
Lemma point_found_at W P R :
  cut point_open (W ++ point_open ++ P ++ point_close ++ R)
  = Some (W, P ++ point_close ++ R) ->
  P <> [] -> forallb (not_char 60) P = true ->
  (exists m, String_match point_regex (W ++ point_open ++ P ++ point_close ++ R) = Some m
             /\ group m 1 = Some P)
  /\ String_replace_first point_erase_regex (W ++ point_open ++ P ++ point_close ++ R)
     = W ++ R.
Proof.
  intros HW HP HP60. split.
  - eexists. split.
    + unfold String_match, point_regex. fold point_open. fold point_close.
      apply (search_first_occurrence _ _ _ _ 0 W (P ++ point_close ++ R) HW).
      apply delimited_match_at; [exact HP | exact HP60 | reflexivity].
    + reflexivity.
  - unfold String_replace_first, String_match.
    change point_erase_regex
      with (Chars point_open +++ Plus (not_char 60) +++ Chars point_close).
    rewrite (search_first_occurrence _ _ _ _ 0 W (P ++ point_close ++ R) HW
               (delimited_erase_match_at point_open point_close (not_char 60)
                  (0 + length W) P R HP HP60 eq_refl)).
    cbn [index whole]. change (0 + length W) with (length W).
    rewrite firstn_prefix. f_equal.
    replace (W ++ point_open ++ P ++ point_close ++ R)
      with ((W ++ point_open ++ P ++ point_close) ++ R)
      by (rewrite <- !app_assoc; reflexivity).
    rewrite <- length_app. apply skipn_prefix.
Qed.

(** Without the opening of a point argument nothing is taken out. *)
Lemma point_argument_absent args :
  absent point_open args ->
  String_match point_regex args = None
  /\ String_replace_first point_erase_regex args = args.
Proof.
  intros H. unfold String_replace_first, String_match.
  change point_regex
    with (Chars point_open +++ (Group 1 (Plus (not_char 60)) +++ Chars point_close)).
  change point_erase_regex
    with (Chars point_open +++ (Plus (not_char 60) +++ Chars point_close)).
  rewrite !search_literal_absent by exact H. auto.
Qed.

Lemma cut_none_absent p s : cut p s = None -> absent p s.
Proof. exact (proj1 (cut_none p s)). Qed.

Lemma no_equals_no_point args :
  forallb (not_char 61) args = true -> absent point_open args.
Proof.
  intros H a b E. subst args. rewrite !forallb_app in H.
  apply andb_prop in H. destruct H as [_ H].
  apply andb_prop in H. destruct H as [H _]. discriminate H.
Qed.

Lemma integer_literal_without x s z :
  integer_literal s = Some z -> is_digit x = false -> x <> 45%N ->
  forallb (not_char x) s = true.
Proof.
  intros Hs Hx Hm.
  assert (Hd : forall w, forallb is_digit w = true -> forallb (not_char x) w = true).
  { intros w. apply forallb_weaken. intros a Ha. apply not_char_of_range. congruence. }
  unfold integer_literal in Hs. destruct s as [|c u]; [discriminate|].
  destruct (N.eqb_spec c 45) as [->|Hc].
  - destruct (natural_literal u) as [D|] eqn:HD; [|discriminate].
    apply natural_literal_digits in HD. destruct HD as (_ & Hdig & _).
    simpl. rewrite (not_char_of_range x 45) by congruence. apply Hd. exact Hdig.
  - apply natural_literal_digits in Hs. destruct Hs as (_ & Hdig & _).
    apply Hd. exact Hdig.
Qed.

Lemma safe_integer_literal s :
  safe_integer s = true ->
  exists z, integer_literal s = Some z /\ (Z.abs z <= 2 ^ 53)%Z.
Proof.
  unfold safe_integer. destruct (integer_literal s) as [z|]; [|discriminate].
  intros H. exists z. split; [reflexivity | apply Z.leb_le; exact H].
Qed.

(** No argument holds a comma. *)
Lemma argument_no_comma a :
  well_formed a = true -> forallb (not_char 44) (argument_text a) = true.
Proof.
  destruct a as [K V|b X Y a|T]; intros H; cbn [well_formed] in H;
    cbn [argument_text].
  - do 5 (apply andb_prop in H; destruct H as [H ?]).
    apply unbroken_parts in H. destruct H as [H _].
    match goal with HV : unbroken V = true |- _ =>
      apply unbroken_parts in HV; destruct HV as [HV _];
      rewrite !forallb_app, H, HV end.
    reflexivity.
  - do 3 (apply andb_prop in H; destruct H as [H ?]).
    match goal with HX : safe_integer X = true |- _ =>
      destruct (safe_integer_literal X HX) as (x & HX' & _) end.
    match goal with HY : safe_integer Y = true |- _ =>
      destruct (safe_integer_literal Y HY) as (y & HY' & _) end.
    apply unbroken_parts in H. destruct H as [Hb44 _].
    match goal with Ha : unbroken a = true |- _ =>
      apply unbroken_parts in Ha; destruct Ha as [Ha44 _] end.
    unfold point_argument. rewrite !forallb_app, Hb44, Ha44.
    rewrite (integer_literal_without 44 X x HX') by (reflexivity || discriminate).
    rewrite (integer_literal_without 44 Y y HY') by (reflexivity || discriminate).
    reflexivity.
  - apply unbroken_parts in H. tauto.
Qed.

(** An argument that is no point does not open one. *)
Lemma argument_no_point a :
  well_formed a = true -> is_point a = false -> cut point_open (argument_text a) = None.
Proof.
  destruct a as [K V|b X Y a|T]; intros H Hp; [|discriminate|];
    cbn [well_formed] in H; cbn [argument_text].
  - apply andb_prop in H. destruct H as [_ H]. apply negb_true_iff in H.
    unfold opens_point in H. destruct (cut point_open _); [discriminate | reflexivity].
  - apply cut_none. apply no_equals_no_point. apply unbroken_parts in H. tauto.
Qed.

(** *** Values of the same text *)

Lemma same_text_refl ft o : same_text ft o o.
Proof. induction o; constructor; auto. Qed.

Lemma same_text_has_prop ft k o1 o2 :
  same_text ft o1 o2 -> has_prop k o1 = has_prop k o2.
Proof.
  induction 1 as [|[k1 v1] [k2 v2] o1 o2 [Hk _] _ IH]; [reflexivity|].
  simpl in *. subst k2. rewrite IH. reflexivity.
Qed.

Lemma same_text_update ft k v o1 o2 :
  same_text ft o1 o2 -> same_text ft (update_prop k v o1) (update_prop k v o2).
Proof.
  induction 1 as [|[k1 v1] [k2 v2] o1 o2 [Hk Hv] H IH]; [constructor|].
  simpl in *. subst k2. destruct (str_eqb k k1).
  - constructor; [split; reflexivity | exact H].
  - constructor; [split; [reflexivity | exact Hv] | exact IH].
Qed.

Lemma same_text_put ft kv o1 o2 :
  same_text ft o1 o2 -> same_text ft (put o1 kv) (put o2 kv).
Proof.
  intros H. unfold put. rewrite (same_text_has_prop ft _ o1 o2 H).
  destruct (has_prop (fst kv) o2).
  - apply same_text_update. exact H.
  - apply Forall2_app; [exact H | apply same_text_refl].
Qed.

Lemma same_text_fold ft kvs : forall o1 o2,
  same_text ft o1 o2 -> same_text ft (fold_left put kvs o1) (fold_left put kvs o2).
Proof.
  induction kvs as [|kv kvs IH]; intros o1 o2 H; [exact H|].
  simpl. apply IH, same_text_put, H.
Qed.

Lemma same_text_serialize ft o1 o2 :
  same_text ft o1 o2 -> serialize ft (VObject o1) = serialize ft (VObject o2).
Proof.
  intros H.
  assert (E : forall o,
             serialize ft (VObject o)
             = Some (lit "{" ++
                     join (lit ",")
                       (flat_map
                          (fun kv => match serialize ft (snd kv) with
                                     | Some s => [QuoteJSONString (fst kv) ++ lit ":" ++ s]
                                     | None => []
                                     end) o)
                     ++ lit "}")) by reflexivity.
  rewrite !E. clear E. set (f := fun kv : jsstring * jsval => _).
  assert (Hf : flat_map f o1 = flat_map f o2).
  { induction H as [|[k1 v1] [k2 v2] o1 o2 [Hk Hv] _ IH]; [reflexivity|].
    cbn [fst snd] in Hk, Hv. subst k2. cbn [flat_map]. rewrite IH.
    unfold f. cbn [fst snd]. rewrite Hv. reflexivity. }
  rewrite Hf. reflexivity.
Qed.

(** The JSON text of [Number] of an integer literal is the text of the
    integer, also for a zero behind a minus sign. *)
Lemma Number_integer_text ft X x :
  integer_literal X = Some x -> (Z.abs x <= 2 ^ 53)%Z ->
  serialize ft (VNumber (Number X)) = serialize ft (VNumber (Int x)).
Proof.
  intros HX Hx.
  destruct (Number_integer_literal X x HX Hx) as [->|[-> ->]]; reflexivity.
Qed.

Lemma coordinate_text ft X :
  safe_integer X = true ->
  serialize ft (VNumber (Number X)) = serialize ft (coordinate X).
Proof.
  intros H. destruct (safe_integer_literal X H) as (x & HX & Hx).
  unfold coordinate. rewrite HX. apply Number_integer_text; assumption.
Qed.

(** At most one point among the arguments: none, or one between arguments
    that are no points. *)
Lemma one_point : forall items,
  length (filter is_point items) <= 1 ->
  filter is_point items = []
  \/ exists pre b X Y a post,
      items = pre ++ Point b X Y a :: post
      /\ filter is_point pre = [] /\ filter is_point post = [].
Proof.
  induction items as [|i items IH]; intros H; [left; reflexivity|].
  simpl in H. destruct i as [K V|b X Y a|T]; cbn [is_point] in H.
  - destruct (IH H) as [E|(pre & b & X & Y & a & post & -> & Hpre & Hpost)].
    + left. simpl. exact E.
    + right. exists (Assign K V :: pre), b, X, Y, a, post. simpl. auto.
  - right. exists [], b, X, Y, a, items. simpl in H.
    destruct (filter is_point items); [auto | simpl in H; lia].
  - destruct (IH H) as [E|(pre & b & X & Y & a & post & -> & Hpre & Hpost)].
    + left. simpl. exact E.
    + right. exists (Positional T :: pre), b, X, Y, a, post. simpl. auto.
Qed.

Lemma no_point_value items :
  filter is_point items = [] -> flat_map point_value items = [].
Proof.
  induction items as [|[K V|b X Y a|T] items IH]; simpl; intros H;
    [reflexivity | auto | discriminate | auto].
Qed.

Lemma point_parameter_coordinates X Y x y :
  integer_literal X = Some x -> integer_literal Y = Some y ->
  point_parameter (X ++ lit " " ++ Y)
  = [(lit "point", VObject [(lit "x", VNumber (Number X)); (lit "y", VNumber (Number Y))])].
Proof.
  intros HX HY. unfold point_parameter.
  change (X ++ lit " " ++ Y) with (X ++ 32%N :: Y).
  rewrite split_at_separator
    by (apply (integer_literal_without 32 X x HX); [reflexivity | discriminate]).
  rewrite split_no_separator
    by (apply (integer_literal_without 32 Y y HY); [reflexivity | discriminate]).
  reflexivity.
Qed.

Lemma arguments_no_comma items :
  forallb well_formed items = true ->
  Forall (fun t => forallb (not_char 44) t = true) (List.map argument_text items).
Proof.
  induction items as [|a items IH]; intros H; [constructor|].
  simpl in H. apply andb_prop in H. destruct H as [Ha H].
  constructor; [apply argument_no_comma; exact Ha | apply IH; exact H].
Qed.

Lemma arguments_no_point items :
  forallb well_formed items = true -> filter is_point items = [] ->
  Forall (fun t => cut point_open t = None) (List.map argument_text items).
Proof.
  induction items as [|a items IH]; intros H Hp; [constructor|].
  simpl in H. apply andb_prop in H. destruct H as [Ha H].
  simpl in Hp. destruct (is_point a) eqn:Ea; [discriminate|].
  constructor; [apply argument_no_point; assumption | apply IH; assumption].
Qed.

(** The loop over the arguments between the commas, none of them a point. *)
Lemma other_parameters_arguments items o :
  forallb well_formed items = true -> filter is_point items = [] ->
  fold_left other_param (split 44 (join (lit ",") (List.map argument_text items))) o
  = fold_left put (flat_map assigned items) o.
Proof.
  intros H Hp. rewrite split_join by (apply arguments_no_comma; exact H).
  destruct items as [|a items]; [reflexivity|].
  apply (other_params_arguments (a :: items)); assumption.
Qed.

(** C4, as the code has it. In a region that matches [Action: NAME(ARGS)],
    let ARGS be arguments separated by commas, each of them [K=V], the
    point literal [point='<point>X Y</point>'], alone or within a text
    without an equals sign, or a text without an equals sign, with at most
    one point among them. Let
    every [K=V] have no comma and no second equals sign, a key and a value
    that are not blank, a key that is neither an array index nor
    [__proto__], and no opening of a point literal in it; let X and Y be
    decimal integers of the safe range. Then the arguments of the one
    invocation are the JSON text of this mapping: [{x: X, y: Y}] under
    [point] if there is a point, wherever it stands, and then in first-seen
    order each trimmed value under its trimmed key, a string without one
    leading and one trailing quote where it has them and otherwise as
    written. An argument without an equals sign contributes nothing. *)
Theorem pointer_arguments_decoded :
  forall ft ent content region am args items,
    tag_body (lit "<computer_env>") (lit "</computer_env>") content = Some region ->
    String_match action_regex (trim region) = Some am ->
    group am 2 = Some args ->
    args = join (lit ",") (List.map argument_text items) ->
    forallb well_formed items = true ->
    length (filter is_point items) <= 1 ->
    decoded_as ft ent content am (decoded_arguments items).
Proof.
  intros ft ent content region am args items Hregion Ham Hargs Eargs Hwf Hone.
  assert (Hrun : forall parameters,
             same_text ft
               (let withPoint :=
                  match String_match point_regex args with
                  | Some pointMatch =>
                      match group pointMatch 1 with
                      | Some p => point_parameter p
                      | None => []
                      end
                  | None => []
                  end in
                other_parameters withPoint args) parameters ->
             decoded_as ft ent content am parameters).
  { intros parameters Hsame.
    exists (result ft ent content (computer_env_found content)).
    unfold call. rewrite parseComputerContent_run.
    rewrite invocations_result, computer_env_found_body, Hregion, Ham, Hargs.
    eexists. split; [reflexivity|]. split; [reflexivity|]. split; [reflexivity|].
    cbv zeta in Hsame. cbn [tools_from]. unfold tool_call, JSON_stringify.
    cbn [function arguments snd]. rewrite (same_text_serialize ft _ _ Hsame).
    reflexivity. }
  apply Hrun. clear Hrun. cbv zeta. unfold other_parameters, decoded_arguments.
  destruct (one_point items Hone)
    as [Hnone|(pre & b & X & Y & a & post & -> & Hpre & Hpost)].
  - assert (Habsent : absent point_open args).
    { apply cut_none_absent. rewrite Eargs.
      apply cut_join_none; [discriminate | reflexivity |].
      apply arguments_no_point; assumption. }
    destruct (point_argument_absent args Habsent) as [-> ->].
    rewrite Eargs, other_parameters_arguments by assumption.
    rewrite no_point_value by exact Hnone. apply same_text_refl.
  - rewrite forallb_app in Hwf. apply andb_prop in Hwf. destruct Hwf as [Hwpre Hwf].
    cbn [forallb] in Hwf. apply andb_prop in Hwf. destruct Hwf as [Hwp Hwpost].
    cbn [well_formed] in Hwp.
    do 3 (apply andb_prop in Hwp; destruct Hwp as [Hwp ?]).
    rename Hwp into Hb. rename H into HY. rename H0 into HX. rename H1 into Ha.
    destruct (unbroken_parts b Hb) as [Hb44 Hb61].
    destruct (unbroken_parts a Ha) as [Ha44 Ha61].
    destruct (safe_integer_literal X HX) as (x & HX' & Hx).
    destruct (safe_integer_literal Y HY) as (y & HY' & Hy).
    set (Wp := concat (List.map (fun s => s ++ lit ",") (List.map argument_text pre))).
    set (Rp := concat (List.map (fun s => lit "," ++ s) (List.map argument_text post))).
    set (P := X ++ lit " " ++ Y).
    assert (E : args = (Wp ++ b) ++ point_open ++ P ++ point_close ++ (a ++ Rp)).
    { rewrite Eargs, map_app. cbn [List.map argument_text]. rewrite join_middle.
      unfold point_argument. fold Wp Rp P. rewrite <- !app_assoc. reflexivity. }
    assert (HP : P <> []) by (unfold P; destruct X; discriminate).
    assert (HP60 : forallb (not_char 60) P = true).
    { unfold P. rewrite !forallb_app.
      rewrite (integer_literal_without 60 X x HX') by (reflexivity || discriminate).
      rewrite (integer_literal_without 60 Y y HY') by (reflexivity || discriminate).
      reflexivity. }
    assert (Hcut : cut point_open ((Wp ++ b) ++ point_open ++ P ++ point_close ++ (a ++ Rp))
                   = Some (Wp ++ b, P ++ point_close ++ (a ++ Rp))).
    { rewrite <- app_assoc. apply cut_point_in_arguments; [|exact Hb61].
      apply arguments_no_point; assumption. }
    destruct (point_found_at _ _ _ Hcut HP HP60) as ((pm & Hpm & Hgroup) & Herase).
    rewrite E, Hpm, Hgroup, Herase.
    assert (E' : (Wp ++ b) ++ a ++ Rp
                 = join (lit ",")
                     (List.map argument_text (pre ++ Positional (b ++ a) :: post))).
    { rewrite map_app. cbn [List.map argument_text]. rewrite join_middle.
      fold Wp Rp. rewrite <- !app_assoc. reflexivity. }
    rewrite E', other_parameters_arguments.
    + rewrite !flat_map_app. cbn [flat_map assigned point_value app].
      rewrite !no_point_value by assumption. cbn [app].
      apply same_text_fold. unfold P.
      rewrite (point_parameter_coordinates X Y x y HX' HY').
      constructor; [|constructor]. split; [reflexivity|]. cbn [snd].
      apply same_text_serialize.
      constructor; [split; [reflexivity | apply coordinate_text; exact HX]|].
      constructor; [split; [reflexivity | apply coordinate_text; exact HY]|].
      constructor.
    + rewrite forallb_app, Hwpre. cbn [forallb well_formed]. rewrite Hwpost.
      unfold unbroken. rewrite !forallb_app, Hb44, Ha44, Hb61, Ha61. reflexivity.
    + rewrite filter_app. cbn [filter is_point]. rewrite Hpre, Hpost. reflexivity.
Qed.

(** The example of the specification with a point and a quoted text. *)
Lemma pointer_arguments_decoded_witness :
  tag_body (lit "<computer_env>") (lit "</computer_env>") type_hello = Some type_hello_region
  /\ String_match action_regex (trim type_hello_region) = Some type_hello_match
  /\ type_hello_args = join (lit ",") (List.map argument_text type_hello_items)
  /\ exists pc t,
      call (parseComputerContent literal_text sample_entropy type_hello) = Ok pc
      /\ invocations pc = [t]
      /\ name (function t) = VString (lit "type")
      /\ arguments (function t)
         = VString (jq "{`point`:{`x`:10,`y`:20},`text`:`hello`}").
Proof.
  assert (H1 : tag_body (lit "<computer_env>") (lit "</computer_env>") type_hello
               = Some type_hello_region) by (vm_compute; reflexivity).
  assert (H2 : String_match action_regex (trim type_hello_region) = Some type_hello_match)
    by (vm_compute; reflexivity).
  assert (H3 : type_hello_args = join (lit ",") (List.map argument_text type_hello_items))
    by (vm_compute; reflexivity).
  split; [exact H1|]. split; [exact H2|]. split; [exact H3|].
  exact (pointer_arguments_decoded literal_text sample_entropy type_hello
           type_hello_region type_hello_match type_hello_args type_hello_items
           H1 H2 eq_refl H3 eq_refl (le_n 1)).
Defined.

(** Arguments in another order and spacing: [mixed_items] is well formed,
    and the decoder returns what [decoded_arguments] says. *)
Example pointer_arguments_mixed :
  forallb well_formed mixed_items = true
  /\ call (parseComputerContent literal_text sample_entropy mixed_arguments)
     = Ok (pointer_call (lit "type")
             (jq "{`point`:{`x`:10,`y`:0},`text`:`hello`,`my-key`:`v`}"))
  /\ JSON_stringify literal_text (VObject (decoded_arguments mixed_items))
     = VString (jq "{`point`:{`x`:10,`y`:0},`text`:`hello`,`my-key`:`v`}").
Proof. repeat split; vm_compute; reflexivity. Qed.

(** Outside the well-formed arguments the decoder does otherwise: a blank
    value and a blank key are dropped; an array index comes first and
    [__proto__] is not stored; a point whose text runs across a comma is
    taken for a point; a second point is stored as a text in the place of
    the first. *)
Lemma pointer_arguments_not_well_formed :
  call (parseComputerContent literal_text sample_entropy
          (lit "<computer_env>Action: type(text=, =v)</computer_env>"))
  = Ok (pointer_call (lit "type") (lit "{}"))
  /\ call (parseComputerContent literal_text sample_entropy
             (lit "<computer_env>Action: type(text='a', 1='b', __proto__=c)</computer_env>"))
     = Ok (pointer_call (lit "type") (jq "{`1`:`b`,`text`:`a`}"))
  /\ call (parseComputerContent literal_text sample_entropy
             (lit "<computer_env>Action: type(point='<point>1, b=2</point>')</computer_env>"))
     = Ok (pointer_call (lit "type") (jq "{`point`:{`x`:null,`y`:null}}"))
  /\ call (parseComputerContent literal_text sample_entropy
             (lit "<computer_env>Action: drag(point='<point>1 2</point>', point='<point>3 4</point>')</computer_env>"))
     = Ok (pointer_call (lit "drag") (jq "{`point`:`<point>3 4</point>`}")).
Proof. repeat split; vm_compute; reflexivity. Qed.

(** C4 as stated fails: the value [a,b] of the argument [text='a,b'] is
    stored as [a], cut at the comma, and so is the value [a=b], cut at the
    equals sign. *)
Lemma pointer_value_cut_at_comma :
  call (parseComputerContent literal_text sample_entropy
          (lit "<computer_env>Action: type(text='a,b')</computer_env>"))
  = Ok (pointer_call (lit "type") (jq "{`text`:`a`}"))
  /\ call (parseComputerContent literal_text sample_entropy
             (lit "<computer_env>Action: type(text='a=b')</computer_env>"))
     = Ok (pointer_call (lit "type") (jq "{`text`:`a`}")).
Proof. repeat split; vm_compute; reflexivity. Qed.

(** ** The examples of the specification *)

Example no_environment_tags :
  call (parseCodeContent literal_text sample_entropy
          (lit "<answer> done </answer> and nothing to run"))
  = Ok {| think := []; answer := lit "done"; tools := None |}.
Proof. vm_compute. reflexivity. Qed.

Example code_environment_round_trip :
  call (parseCodeContent literal_text sample_entropy run_ls) = Ok run_ls_result.
Proof. vm_compute. reflexivity. Qed.

Example tool_environment_malformed_payload :
  call (parseMcpContent literal_text sample_entropy
          (jq "<mcp_env><|FunctionCallBegin|>[{`name`:]<|FunctionCallEnd|></mcp_env>"))
  = Ok {| think := []; answer := []; tools := None |}.
Proof. vm_compute. reflexivity. Qed.

Example pointer_environment_click :
  call (parseComputerContent literal_text sample_entropy
          (lit "<computer_env>Action: click(point='<point>100 200</point>')</computer_env>"))
  = Ok (pointer_call (lit "click") (jq "{`point`:{`x`:100,`y`:200}}")).
Proof. vm_compute. reflexivity. Qed.

Example reasoning_and_answer :
  call (parseComputerContent literal_text sample_entropy
          (think_open ++ lit " look first " ++ think_close
           ++ lit "<computer_env>Action: wait()</computer_env><answer>ok</answer>"))
  = Ok {| think := lit "look first"; answer := lit "ok";
          tools := Some [{| id := lit "call_1700000000000_4fzyo82mv";
                            type := lit "function";
                            function := {| name := VString (lit "wait");
                                           arguments := VString (lit "{}") |} |}] |}.
Proof. vm_compute. reflexivity. Qed.

(** * Further properties *)

(** ** Reasoning, answer and the invocations of a call *)

Lemma decoder_run_env env ft ent content :
  decoder env ft ent content start
  = (Ok (result ft ent content (env_found env content)),
     emit_all ft ent (env_found env content) start).
Proof.
  destruct env; simpl.
  - apply parseCodeContent_run.
  - apply parseMcpContent_run.
  - apply parseComputerContent_run.
Qed.

Lemma decoder_result env ft ent content pc :
  call (decoder env ft ent content) = Ok pc ->
  pc = result ft ent content (env_found env content).
Proof. unfold call. rewrite decoder_run_env. simpl. congruence. Qed.

(** X1: the reasoning and the answer that a decoder returns are empty or
    start and end with a character that is no white space, whatever the
    text between the tags. *)
Theorem reasoning_and_answer_clipped :
  forall env ft ent content pc,
    call (decoder env ft ent content) = Ok pc ->
    clipped (think pc) /\ clipped (answer pc).
Proof.
  intros env ft ent content pc H. apply decoder_result in H. subst pc. simpl.
  unfold tag_content. split.
  - destruct (tag_body think_open think_close content); [apply trim_clipped | left; reflexivity].
  - destruct (tag_body _ _ content); [apply trim_clipped | left; reflexivity].
Qed.

(** The reasoning and the answer of [look_first], both given with spaces
    inside the tags. *)
Lemma reasoning_and_answer_clipped_witness :
  call (decoder ComputerEnv literal_text sample_entropy look_first) = Ok look_first_result
  /\ clipped (think look_first_result) /\ clipped (answer look_first_result).
Proof.
  assert (H : call (decoder ComputerEnv literal_text sample_entropy look_first)
              = Ok look_first_result) by (vm_compute; reflexivity).
  split; [exact H|].
  exact (reasoning_and_answer_clipped ComputerEnv literal_text sample_entropy
           look_first look_first_result H).
Defined.

(** X2: the reasoning that a decoder returns never holds the closing think
    tag and the answer never holds the closing answer tag: the extraction
    stops at the first closing tag. *)
Theorem closing_tag_never_extracted :
  forall env ft ent content pc,
    call (decoder env ft ent content) = Ok pc ->
    absent think_close (think pc) /\ absent (lit "</answer>") (answer pc).
Proof.
  intros env ft ent content pc H. apply decoder_result in H. subst pc. simpl.
  split; intros a b; apply (proj1 (cut_none _ _)), tag_content_no_close; discriminate.
Qed.

(** The answer of [answer_twice_closed] ends before the first closing tag. *)
Lemma closing_tag_never_extracted_witness :
  call (decoder CodeEnv literal_text sample_entropy answer_twice_closed)
  = Ok {| think := []; answer := lit "a"; tools := None |}
  /\ absent think_close [] /\ absent (lit "</answer>") (lit "a").
Proof.
  assert (H : call (decoder CodeEnv literal_text sample_entropy answer_twice_closed)
              = Ok {| think := []; answer := lit "a"; tools := None |})
    by (vm_compute; reflexivity).
  split; [exact H|].
  exact (closing_tag_never_extracted CodeEnv literal_text sample_entropy
           answer_twice_closed _ H).
Defined.

Lemma emit_all_made ft ent rs : forall st,
  made (emit_all ft ent rs st) = made st + length rs.
Proof.
  unfold emit_all. induction rs as [|r rs IH]; intros st; simpl; [lia|].
  rewrite IH. simpl. lia.
Qed.

(** X3: a decoder calls [generateToolCallId] once for each invocation it
    returns and never else, so the clock and the random source are read as
    often as the result has invocations; the invocations of the result are
    those pushed to the local array, in the order of the pushes. *)
Theorem entropy_read_once_per_invocation :
  forall env ft ent content,
    exists pc st,
      decoder env ft ent content start = (Ok pc, st)
      /\ made st = length (invocations pc)
      /\ pushed st = invocations pc.
Proof.
  intros env ft ent content. do 2 eexists. split; [apply decoder_run_env|].
  rewrite emit_all_made, invocations_result, tools_from_length, emit_all_pushed.
  split; reflexivity.
Qed.

Lemma env_found_body env c1 c2 :
  tag_body (env_open env) (env_close env) c1 = tag_body (env_open env) (env_close env) c2 ->
  env_found env c1 = env_found env c2.
Proof.
  destruct env; simpl; intros H.
  - rewrite !code_env_found_body, H. reflexivity.
  - rewrite !mcp_env_found_body, H. reflexivity.
  - rewrite !computer_env_found_body, H. reflexivity.
Qed.

(** X4: the invocations of a decoder depend only on the text between the
    first opening tag of its environment and the first closing tag behind
    it: two texts with the same such region, or both without one, give the
    same [tools] field under the same clock and random source. *)
Theorem invocations_depend_on_first_region :
  forall env ft ent c1 c2,
    tag_body (env_open env) (env_close env) c1 = tag_body (env_open env) (env_close env) c2 ->
    exists pc1 pc2,
      call (decoder env ft ent c1) = Ok pc1
      /\ call (decoder env ft ent c2) = Ok pc2
      /\ tools pc1 = tools pc2.
Proof.
  intros env ft ent c1 c2 H. unfold call. rewrite !decoder_run_env.
  do 2 eexists. split; [reflexivity|]. split; [reflexivity|].
  simpl. rewrite (env_found_body env c1 c2 H). reflexivity.
Qed.

(** [run_ls] alone and between other texts, a second region among them. *)
Lemma invocations_depend_on_first_region_witness :
  tag_body (env_open CodeEnv) (env_close CodeEnv) run_ls
  = tag_body (env_open CodeEnv) (env_close CodeEnv) run_ls_embedded
  /\ exists pc1 pc2,
      call (decoder CodeEnv literal_text sample_entropy run_ls) = Ok pc1
      /\ call (decoder CodeEnv literal_text sample_entropy run_ls_embedded) = Ok pc2
      /\ tools pc1 = tools pc2.
Proof.
  assert (H : tag_body (env_open CodeEnv) (env_close CodeEnv) run_ls
              = tag_body (env_open CodeEnv) (env_close CodeEnv) run_ls_embedded)
    by (vm_compute; reflexivity).
  split; [exact H|].
  exact (invocations_depend_on_first_region CodeEnv literal_text sample_entropy
           run_ls run_ls_embedded H).
Defined.

Lemma descriptors_until_null good d rest :
  is_nullish d = true -> descriptors (good ++ d :: rest) = descriptors good.
Proof.
  intros Hd. induction good as [|c good IH]; simpl.
  - destruct d; try discriminate; reflexivity.
  - destruct (get_prop c (lit "name")); [|reflexivity].
    destruct (get_prop c (lit "parameters")); [|reflexivity].
    rewrite IH. reflexivity.
Qed.

(** X5: when the payload of the tool environment parses to an array with
    a [null] in it, reading [call.name] throws inside the [try]; the
    invocations pushed before stay in the result and no descriptor behind
    the [null] is looked at. *)
Theorem null_descriptor_keeps_earlier_calls :
  forall ft ent content region payload good rest,
    tag_body (lit "<mcp_env>") (lit "</mcp_env>") content = Some region ->
    tag_body call_begin call_end region = Some payload ->
    JSON_parse (lit "[" ++ payload ++ lit "]") = Ok (VArray (good ++ VNull :: rest)) ->
    forallb (fun d => negb (is_nullish d)) good = true ->
    exists pc,
      call (parseMcpContent ft ent content) = Ok pc
      /\ List.map function (invocations pc)
         = List.map (fun d => {| name := field d (lit "name");
                                 arguments := JSON_stringify ft (field d (lit "parameters")) |})
             (filter accepted good).
Proof.
  intros ft ent content region payload good rest Hregion Hpayload Hparse Hgood.
  exists (result ft ent content (mcp_env_found content)).
  unfold call. rewrite parseMcpContent_run. split; [reflexivity|].
  rewrite invocations_result, tools_from_function, mcp_env_found_body.
  rewrite Hregion, Hpayload, Hparse, descriptors_until_null by reflexivity.
  rewrite descriptors_filter by exact Hgood.
  rewrite map_map. reflexivity.
Qed.

(** Of the descriptors of [null_between] the one before the [null] is
    decoded, the one behind it is not. *)
Lemma null_descriptor_keeps_earlier_calls_witness :
  tag_body (lit "<mcp_env>") (lit "</mcp_env>") null_between = Some null_between_region
  /\ tag_body call_begin call_end null_between_region = Some null_between_payload
  /\ JSON_parse (lit "[" ++ null_between_payload ++ lit "]")
     = Ok (VArray ([search_descriptor] ++ VNull :: [open_descriptor]))
  /\ exists pc,
      call (parseMcpContent literal_text sample_entropy null_between) = Ok pc
      /\ List.map function (invocations pc)
         = [{| name := VString (lit "search");
               arguments := VString (jq "{`q`:`rocq`}") |}].
Proof.
  assert (H1 : tag_body (lit "<mcp_env>") (lit "</mcp_env>") null_between
               = Some null_between_region) by (vm_compute; reflexivity).
  assert (H2 : tag_body call_begin call_end null_between_region
               = Some null_between_payload) by (vm_compute; reflexivity).
  assert (H3 : JSON_parse (lit "[" ++ null_between_payload ++ lit "]")
               = Ok (VArray ([search_descriptor] ++ VNull :: [open_descriptor])))
    by (vm_compute; reflexivity).
  split; [exact H1 | split; [exact H2 | split; [exact H3|]]].
  exact (null_descriptor_keeps_earlier_calls literal_text sample_entropy null_between
           null_between_region null_between_payload [search_descriptor] [open_descriptor]
           H1 H2 H3 eq_refl).
Defined.

(** ** The code environment: name and parameters *)

(** X6: the name of the code-environment invocation is the text between
    the first [<function=] of the region and the next [>], when that text
    is not empty. *)
Theorem function_name_of_first_marker :
  forall ft ent content region pre NAME rest,
    tag_body (lit "<code_env>") (lit "</code_env>") content = Some region ->
    cut function_open region = Some (pre, NAME ++ lit ">" ++ rest) ->
    NAME <> [] ->
    forallb (not_char 62) NAME = true ->
    exists pc t,
      call (parseCodeContent ft ent content) = Ok pc
      /\ invocations pc = [t]
      /\ type t = lit "function"
      /\ name (function t) = VString NAME.
Proof.
  intros ft ent content region pre NAME rest Hregion Hcut Hne Hname.
  exists (result ft ent content (code_env_found content)).
  unfold call. rewrite parseCodeContent_run.
  rewrite invocations_result, code_env_found_body, Hregion.
  unfold String_match, function_regex. fold function_open.
  rewrite (search_first_occurrence _ _ _ _ _ _ _ Hcut
             (delimited_match_at function_open (lit ">") (not_char 62) 1
                (0 + length pre) NAME rest Hne Hname eq_refl)).
  eexists. split; [reflexivity|]. split; [reflexivity|]. split; reflexivity.
Qed.

(** The name decoded from [scattered]. *)
Lemma function_name_of_first_marker_witness :
  tag_body (lit "<code_env>") (lit "</code_env>") scattered = Some scattered_region
  /\ cut function_open scattered_region
     = Some (lit "<parameter=path>/tmp",
             lit "read" ++ lit ">" ++ lit "<parameter=mode>r<b><function=write>")
  /\ exists pc t,
      call (parseCodeContent literal_text sample_entropy scattered) = Ok pc
      /\ invocations pc = [t]
      /\ type t = lit "function"
      /\ name (function t) = VString (lit "read").
Proof.
  assert (H1 : tag_body (lit "<code_env>") (lit "</code_env>") scattered
               = Some scattered_region) by (vm_compute; reflexivity).
  assert (H2 : cut function_open scattered_region
               = Some (lit "<parameter=path>/tmp",
                       lit "read" ++ lit ">" ++ lit "<parameter=mode>r<b><function=write>"))
    by (vm_compute; reflexivity).
  assert (H3 : lit "read" <> []) by discriminate.
  split; [exact H1 | split; [exact H2|]].
  exact (function_name_of_first_marker literal_text sample_entropy scattered
           scattered_region _ (lit "read") _ H1 H2 H3 eq_refl).
Defined.

Lemma quiet_spec j : quiet j = true -> at_lt j /\ absent parameter_open j.
Proof.
  unfold quiet. intros H. apply andb_prop in H. destruct H as [H1 H2]. split.
  - destruct j as [|c j]; simpl; [exact I|]. apply N.eqb_eq. exact H1.
  - apply cut_none_absent. destruct (cut parameter_open j); [discriminate | reflexivity].
Qed.

Lemma segments_at_lt segs : at_lt (concat (List.map segment segs)).
Proof. destruct segs as [|s segs]; simpl; [exact I | reflexivity]. Qed.

Lemma at_lt_app j rest : at_lt j -> at_lt rest -> at_lt (j ++ rest).
Proof. destruct j; simpl; auto. Qed.

Lemma scan_segments : forall segs pos o,
  forallb well_marked segs = true ->
  fold_left
    (fun parameters m => obj_set parameters (to_key (group m 1)) (to_val (group m 2)))
    (scan parameter_regex 0 pos (concat (List.map segment segs))) o
  = fold_left store (List.map fst segs) o.
Proof.
  induction segs as [|[[k v] j] segs IH]; intros pos o H.
  - reflexivity.
  - simpl in H. apply andb_prop in H. destruct H as [Hs H].
    unfold well_marked in Hs. simpl in Hs. apply andb_prop in Hs. destruct Hs as [Hkv Hj].
    apply quiet_spec in Hj. destruct Hj as [Hlt Habs].
    unfold plain in Hkv. simpl in Hkv.
    apply andb_prop in Hkv. destruct Hkv as [Hkv Hv].
    apply andb_prop in Hkv. destruct Hkv as [Hk Hk62].
    assert (Hne : k <> []) by (destruct k; [discriminate | discriminate]).
    change (concat (List.map segment (((k, v), j) :: segs)))
      with ((marker (k, v) ++ j) ++ concat (List.map segment segs)).
    rewrite <- app_assoc.
    rewrite (scan_match parameter_regex pos (marker (k, v)) _
               {| index := pos; whole := marker (k, v); groups := [(2, v); (1, k)] |}).
    + rewrite scan_absent_prefix by (auto using segments_at_lt).
      simpl fold_left. rewrite IH by exact H. reflexivity.
    + apply parameter_match_at; auto.
      apply at_lt_stops, at_lt_app; [exact Hlt | apply segments_at_lt].
    + reflexivity.
    + discriminate.
Qed.

(** X7: the parameters of the code-environment invocation are collected
    from the whole region, before, inside and behind the function block
    alike: for a region with a function marker that is a text without
    parameter marker followed by parameter markers, each with a key
    without [>] that is not empty, a value without [<] and a following
    text that is empty or starts with [<] and opens no marker, the
    arguments are the JSON text of the object that receives every marker
    in order. *)
Theorem parameters_of_the_whole_region :
  forall ft ent content region pre segs,
    tag_body (lit "<code_env>") (lit "</code_env>") content = Some region ->
    String_match function_regex region <> None ->
    region = pre ++ concat (List.map segment segs) ->
    cut parameter_open pre = None ->
    forallb well_marked segs = true ->
    exists pc t,
      call (parseCodeContent ft ent content) = Ok pc
      /\ invocations pc = [t]
      /\ arguments (function t)
         = JSON_stringify ft (VObject (fold_left store (List.map fst segs) [])).
Proof.
  intros ft ent content region pre segs Hregion Hfun -> Hpre Hsegs.
  exists (result ft ent content (code_env_found content)).
  unfold call. rewrite parseCodeContent_run.
  rewrite invocations_result, code_env_found_body, Hregion.
  destruct (String_match function_regex _) as [fm|]; [|congruence].
  eexists. split; [reflexivity|]. split; [reflexivity|]. simpl.
  unfold code_parameters, String_matchAll.
  rewrite scan_absent_prefix
    by (auto using segments_at_lt, cut_none_absent).
  rewrite scan_segments by exact Hsegs. reflexivity.
Qed.

(** The markers of [scattered], one before and one behind the function block. *)
Lemma parameters_of_the_whole_region_witness :
  tag_body (lit "<code_env>") (lit "</code_env>") scattered = Some scattered_region
  /\ scattered_region = [] ++ concat (List.map segment scattered_segments)
  /\ exists pc t,
      call (parseCodeContent literal_text sample_entropy scattered) = Ok pc
      /\ invocations pc = [t]
      /\ arguments (function t) = VString (jq "{`path`:`/tmp`,`mode`:`r`}").
Proof.
  assert (H1 : tag_body (lit "<code_env>") (lit "</code_env>") scattered
               = Some scattered_region) by (vm_compute; reflexivity).
  assert (H2 : String_match function_regex scattered_region <> None)
    by (vm_compute; discriminate).
  assert (H3 : scattered_region = [] ++ concat (List.map segment scattered_segments))
    by (vm_compute; reflexivity).
  split; [exact H1 | split; [exact H3|]].
  exact (parameters_of_the_whole_region literal_text sample_entropy scattered
           scattered_region [] scattered_segments H1 H2 H3 eq_refl eq_refl).
Defined.

(** ** The pointer environment: arguments without a key, points *)

Lemma split_pieces_without x sep : forall s,
  forallb (not_char x) s = true ->
  Forall (fun p => forallb (not_char x) p = true) (split sep s).
Proof.
  induction s as [|c s IH]; simpl; intros H.
  - constructor; [reflexivity | constructor].
  - apply andb_prop in H. destruct H as [Hc Hs]. specialize (IH Hs).
    destruct (N.eqb c sep).
    + constructor; [reflexivity | exact IH].
    + destruct (split sep s) as [|h r].
      * constructor; [simpl; rewrite Hc; reflexivity | constructor].
      * inversion IH; subst. constructor; [simpl; rewrite Hc; assumption | assumption].
Qed.

Lemma other_params_no_equals l : forall o,
  Forall (fun p => forallb (not_char 61) p = true) l ->
  fold_left other_param l o = o.
Proof.
  induction l as [|p l IH]; intros o H; [reflexivity|].
  inversion H; subst. simpl. rewrite other_param_no_equals by assumption. auto.
Qed.

(** X8: action arguments without any [=] give the arguments [{}]: a
    positional argument is dropped without an error. *)
Theorem arguments_without_equals_dropped :
  forall ft ent content region am args,
    tag_body (lit "<computer_env>") (lit "</computer_env>") content = Some region ->
    String_match action_regex (trim region) = Some am ->
    group am 2 = Some args ->
    forallb (not_char 61) args = true ->
    exists pc t,
      call (parseComputerContent ft ent content) = Ok pc
      /\ invocations pc = [t]
      /\ name (function t) = to_val (group am 1)
      /\ arguments (function t) = VString (lit "{}").
Proof.
  intros ft ent content region am args Hregion Ham Hargs Hne.
  exists (result ft ent content (computer_env_found content)).
  unfold call. rewrite parseComputerContent_run.
  rewrite invocations_result, computer_env_found_body, Hregion, Ham, Hargs.
  destruct (point_argument_absent _ (no_equals_no_point _ Hne)) as [Hnone Hsame].
  cbv zeta. rewrite Hnone. unfold other_parameters. rewrite Hsame.
  rewrite other_params_no_equals by (apply split_pieces_without; exact Hne).
  eexists. repeat split.
Qed.

(** The positional arguments of [hotkey]. *)
Lemma arguments_without_equals_dropped_witness :
  tag_body (lit "<computer_env>") (lit "</computer_env>") hotkey
  = Some (lit "Action: hotkey(ctrl, c)")
  /\ String_match action_regex (trim (lit "Action: hotkey(ctrl, c)")) = Some hotkey_match
  /\ exists pc t,
      call (parseComputerContent literal_text sample_entropy hotkey) = Ok pc
      /\ invocations pc = [t]
      /\ name (function t) = VString (lit "hotkey")
      /\ arguments (function t) = VString (lit "{}").
Proof.
  assert (H1 : tag_body (lit "<computer_env>") (lit "</computer_env>") hotkey
               = Some (lit "Action: hotkey(ctrl, c)")) by (vm_compute; reflexivity).
  assert (H2 : String_match action_regex (trim (lit "Action: hotkey(ctrl, c)"))
               = Some hotkey_match) by (vm_compute; reflexivity).
  split; [exact H1 | split; [exact H2|]].
  exact (arguments_without_equals_dropped literal_text sample_entropy hotkey
           (lit "Action: hotkey(ctrl, c)") hotkey_match (lit "ctrl, c")
           H1 H2 eq_refl eq_refl).
Defined.

(** The point pattern finds the first point argument behind a text without
    an equals sign; the replacement takes it out. *)
Lemma point_found_behind W P R :
  forallb (not_char 61) W = true -> P <> [] -> forallb (not_char 60) P = true ->
  (exists m, String_match point_regex (W ++ point_open ++ P ++ point_close ++ R) = Some m
             /\ group m 1 = Some P)
  /\ String_replace_first point_erase_regex (W ++ point_open ++ P ++ point_close ++ R)
     = W ++ R.
Proof.
  intros HW HP HP60.
  apply point_found_at; [apply cut_point_open; exact HW | exact HP | exact HP60].
Qed.

(** X9: the point literal is found wherever it stands in the arguments,
    not only in front: behind any text without [=], two integer
    coordinates of the safe range give the object [{point: {x, y}}]. *)
Theorem point_argument_found_anywhere :
  forall ft ent content region am args W X Y x y,
    tag_body (lit "<computer_env>") (lit "</computer_env>") content = Some region ->
    String_match action_regex (trim region) = Some am ->
    group am 2 = Some args ->
    args = W ++ point_argument X Y ->
    forallb (not_char 61) W = true ->
    integer_literal X = Some x -> integer_literal Y = Some y ->
    (Z.abs x <= 2 ^ 53)%Z -> (Z.abs y <= 2 ^ 53)%Z ->
    decoded_as ft ent content am
      [(lit "point", VObject [(lit "x", VNumber (Int x)); (lit "y", VNumber (Int y))])].
Proof.
  intros ft ent content region am args W X Y x y Hregion Ham Hargs -> HW HX HY Hx Hy.
  destruct (integer_literal_chars X x HX) as (HXne & HX60 & HX32).
  destruct (integer_literal_chars Y y HY) as (HYne & HY60 & HY32).
  assert (HP : X ++ lit " " ++ Y <> []) by (destruct X; [congruence | discriminate]).
  assert (HP60 : forallb (not_char 60) (X ++ lit " " ++ Y) = true).
  { rewrite !forallb_app, HX60, HY60. reflexivity. }
  destruct (point_found_behind W _ [] HW HP HP60) as ((pm & Hpm & Hgroup) & Herase).
  assert (E : W ++ point_argument X Y
              = W ++ point_open ++ (X ++ lit " " ++ Y) ++ point_close ++ []).
  { unfold point_argument. rewrite app_nil_r. reflexivity. }
  exists (result ft ent content (computer_env_found content)).
  unfold call. rewrite parseComputerContent_run.
  rewrite invocations_result, computer_env_found_body, Hregion, Ham, Hargs.
  cbv zeta. rewrite E, Hpm, Hgroup. unfold other_parameters. rewrite Herase, app_nil_r.
  rewrite other_params_no_equals by (apply split_pieces_without; exact HW).
  rewrite (point_parameter_coordinates X Y x y HX HY).
  eexists. split; [reflexivity|]. split; [reflexivity|]. split; [reflexivity|].
  cbn [tools_from fold_left]. unfold tool_call, JSON_stringify.
  cbn [function arguments snd].
  erewrite same_text_serialize; [reflexivity|].
  constructor; [|constructor]. split; [reflexivity|]. cbn [snd].
  apply same_text_serialize.
  constructor; [split; [reflexivity | apply Number_integer_text; assumption]|].
  constructor; [split; [reflexivity | apply Number_integer_text; assumption]|].
  constructor.
Qed.

(** The point of [drag_start] behind a positional argument. *)
Lemma point_argument_found_anywhere_witness :
  tag_body (lit "<computer_env>") (lit "</computer_env>") drag_start = Some drag_start_region
  /\ String_match action_regex (trim drag_start_region) = Some drag_start_match
  /\ lit "start_point='<point>10 20</point>'"
     = lit "start_" ++ point_argument (lit "10") (lit "20")
  /\ exists pc t,
      call (parseComputerContent literal_text sample_entropy drag_start) = Ok pc
      /\ invocations pc = [t]
      /\ name (function t) = VString (lit "drag")
      /\ arguments (function t) = VString (jq "{`point`:{`x`:10,`y`:20}}").
Proof.
  assert (H1 : tag_body (lit "<computer_env>") (lit "</computer_env>") drag_start
               = Some drag_start_region) by (vm_compute; reflexivity).
  assert (H2 : String_match action_regex (trim drag_start_region) = Some drag_start_match)
    by (vm_compute; reflexivity).
  assert (H3 : (Z.abs 10 <= 2 ^ 53)%Z) by (vm_compute; discriminate).
  assert (H4 : (Z.abs 20 <= 2 ^ 53)%Z) by (vm_compute; discriminate).
  split; [exact H1 | split; [exact H2 | split; [vm_compute; reflexivity|]]].
  exact (point_argument_found_anywhere literal_text sample_entropy drag_start
           drag_start_region drag_start_match _ (lit "start_") (lit "10") (lit "20")
           10%Z 20%Z H1 H2 eq_refl eq_refl eq_refl eq_refl eq_refl H3 H4).
Defined.

(** X10: a point with one coordinate only leaves [y] undefined, and
    [JSON.stringify] omits it: the arguments hold [x] alone. *)
Theorem point_with_one_coordinate :
  forall ft ent content region am args X x,
    tag_body (lit "<computer_env>") (lit "</computer_env>") content = Some region ->
    String_match action_regex (trim region) = Some am ->
    group am 2 = Some args ->
    args = point_open ++ X ++ point_close ->
    integer_literal X = Some x -> (Z.abs x <= 2 ^ 53)%Z ->
    exists pc t,
      call (parseComputerContent ft ent content) = Ok pc
      /\ invocations pc = [t]
      /\ name (function t) = to_val (group am 1)
      /\ arguments (function t)
         = VString (jq "{`point`:{`x`:" ++ Number_toString_int x ++ lit "}}").
Proof.
  intros ft ent content region am args X x Hregion Ham Hargs -> HX Hx.
  destruct (integer_literal_chars X x HX) as (HXne & HX60 & HX32).
  destruct (point_found_behind [] X [] eq_refl HXne HX60) as ((pm & Hpm & Hgroup) & Herase).
  assert (E : point_open ++ X ++ point_close
              = [] ++ point_open ++ X ++ point_close ++ []).
  { rewrite app_nil_r. reflexivity. }
  exists (result ft ent content (computer_env_found content)).
  unfold call. rewrite parseComputerContent_run.
  rewrite invocations_result, computer_env_found_body, Hregion, Ham, Hargs.
  cbv zeta. rewrite E, Hpm, Hgroup. unfold other_parameters. rewrite Herase.
  unfold point_parameter. rewrite (split_no_separator 32 X HX32).
  simpl List.map. unfold element. simpl nth_error.
  destruct (Number_integer_literal X x HX Hx) as [HN|[-> HN]]; rewrite HN;
    change (split 44 ([] ++ [])) with [@nil char16]; cbn [fold_left];
    change (other_param ?o []) with o;
    (eexists; split; [reflexivity|]; split; [reflexivity|]; split; [reflexivity|]);
    cbn [tools_from tool_call function arguments snd];
    unfold JSON_stringify; cbn [serialize List.flat_map snd fst app join];
    f_equal; change (obj_set [] (lit "point") ?v) with [(lit "point", v)];
    cbn [serialize List.flat_map snd fst app join];
    change (QuoteJSONString (lit "point")) with (jq "`point`");
    change (QuoteJSONString (lit "x")) with (jq "`x`");
    rewrite <- !app_assoc; reflexivity.
Qed.

(** The point of [click_half]. *)
Lemma point_with_one_coordinate_witness :
  tag_body (lit "<computer_env>") (lit "</computer_env>") click_half = Some click_half_region
  /\ String_match action_regex (trim click_half_region) = Some click_half_match
  /\ exists pc t,
      call (parseComputerContent literal_text sample_entropy click_half) = Ok pc
      /\ invocations pc = [t]
      /\ name (function t) = VString (lit "click")
      /\ arguments (function t) = VString (jq "{`point`:{`x`:100}}").
Proof.
  assert (H1 : tag_body (lit "<computer_env>") (lit "</computer_env>") click_half
               = Some click_half_region) by (vm_compute; reflexivity).
  assert (H2 : String_match action_regex (trim click_half_region) = Some click_half_match)
    by (vm_compute; reflexivity).
  assert (H3 : (Z.abs 100 <= 2 ^ 53)%Z) by (vm_compute; discriminate).
  split; [exact H1 | split; [exact H2|]].
  exact (point_with_one_coordinate literal_text sample_entropy click_half
           click_half_region click_half_match _ (lit "100") 100%Z
           H1 H2 eq_refl eq_refl eq_refl H3).
Defined.

(** ** The action line *)

Lemma word_not_white_space c : is_word_char c = true -> is_white_space c = false.
Proof.
  intros H. apply is_word_char_range in H. apply graphic_not_white_space. lia.
Qed.

Lemma action_match_at pos ws NAME ARGS post :
  forallb is_white_space ws = true ->
  NAME <> [] -> forallb is_word_char NAME = true ->
  forallb (not_char 41) ARGS = true ->
  match_at action_regex pos (action_line ws NAME ARGS ++ post)
  = Some {| index := pos;
            whole := action_line ws NAME ARGS;
            groups := [(2, ARGS); (1, NAME)] |}.
Proof.
  intros Hws Hne Hname Hargs.
  destruct NAME as [|c NAME]; [congruence|].
  simpl in Hname. apply andb_prop in Hname. destruct Hname as [Hc Hname].
  unfold match_at, action_regex, action_line. cbn [run].
  rewrite <- !app_assoc. rewrite strip_prefix_same.
  set (e0 := pos + length (lit "Action:")).
  set (inp1 := (c :: NAME) ++ lit "(" ++ ARGS ++ lit ")" ++ post).
  set (inp3 := ARGS ++ lit ")" ++ post).
  set (K3 := fun (pos' : nat) (inp' : jsstring) =>
               match strip_prefix (lit ")") inp' with
               | Some rest =>
                   accept (pos' + length (lit ")")) rest
                     [(2, firstn (pos' - (S (e0 + length ws) + length NAME + length (lit "(")))
                            inp3);
                      (1, firstn (S (e0 + length ws) + length NAME - (e0 + length ws)) inp1)]
               | None => None
               end).
  assert (H3 : greedy (not_char 41) K3
                 (S (e0 + length ws) + length NAME + length (lit "(")) inp3
               = Some (S (e0 + length ws) + length NAME + 1 + length ARGS + 1,
                       [(2, ARGS); (1, c :: NAME)])).
  { unfold inp3.
    assert (HK : K3 (S (e0 + length ws) + length NAME + length (lit "(") + length ARGS)
                   (lit ")" ++ post)
                 = Some (S (e0 + length ws) + length NAME + 1 + length ARGS + 1,
                         [(2, ARGS); (1, c :: NAME)])).
    { unfold K3. rewrite strip_prefix_same. unfold accept. f_equal. f_equal.
      f_equal; [f_equal|].
      - replace (S (e0 + length ws) + length NAME + length (lit "(") + length ARGS
                 - (S (e0 + length ws) + length NAME + length (lit "(")))
          with (length ARGS) by lia.
        unfold inp3. apply firstn_prefix.
      - f_equal. f_equal.
        replace (S (e0 + length ws) + length NAME - (e0 + length ws))
          with (length (c :: NAME)) by (cbn [length]; lia).
        unfold inp1. apply firstn_prefix. }
    rewrite (greedy_max _ (not_char 41) K3 (lit ")" ++ post) ARGS);
      [exact HK | exact Hargs | reflexivity | rewrite HK; discriminate]. }
  set (K2 := fun (pos' : nat) (inp' : jsstring) =>
               match strip_prefix (lit "(") inp' with
               | Some rest =>
                   greedy (not_char 41)
                     (fun pos'' inp'' =>
                        match strip_prefix (lit ")") inp'' with
                        | Some rest' =>
                            accept (pos'' + length (lit ")")) rest'
                              [(2, firstn (pos'' - (pos' + length (lit "("))) rest);
                               (1, firstn (pos' - (e0 + length ws)) inp1)]
                        | None => None
                        end)
                     (pos' + length (lit "(")) rest
               | None => None
               end).
  assert (H2 : K2 (S (e0 + length ws) + length NAME) (lit "(" ++ ARGS ++ lit ")" ++ post)
               = Some (S (e0 + length ws) + length NAME + 1 + length ARGS + 1,
                       [(2, ARGS); (1, c :: NAME)])).
  { unfold K2. rewrite strip_prefix_same. exact H3. }
  assert (H1 : greedy is_word_char K2 (S (e0 + length ws))
                 (NAME ++ lit "(" ++ ARGS ++ lit ")" ++ post)
               = Some (S (e0 + length ws) + length NAME + 1 + length ARGS + 1,
                       [(2, ARGS); (1, c :: NAME)])).
  { rewrite (greedy_max _ is_word_char K2 (lit "(" ++ ARGS ++ lit ")" ++ post) NAME);
      [exact H2 | exact Hname | reflexivity | rewrite H2; discriminate]. }
  set (K1 := fun (pos' : nat) (inp' : jsstring) =>
               match inp' with
               | [] => None
               | c0 :: t =>
                   if is_word_char c0
                   then greedy is_word_char
                          (fun pos'' inp'' =>
                             match strip_prefix (lit "(") inp'' with
                             | Some rest =>
                                 greedy (not_char 41)
                                   (fun pos''' inp''' =>
                                      match strip_prefix (lit ")") inp''' with
                                      | Some rest' =>
                                          accept (pos''' + length (lit ")")) rest'
                                            [(2, firstn (pos''' - (pos'' + length (lit "("))) rest);
                                             (1, firstn (pos'' - pos') inp')]
                                      | None => None
                                      end)
                                   (pos'' + length (lit "(")) rest
                             | None => None
                             end)
                          (S pos') t
                   else None
               end).
  assert (H0 : K1 (e0 + length ws) inp1
               = Some (S (e0 + length ws) + length NAME + 1 + length ARGS + 1,
                       [(2, ARGS); (1, c :: NAME)])).
  { unfold K1, inp1. change ((c :: NAME) ++ ?r) with (c :: (NAME ++ r)).
    cbv iota. rewrite Hc. exact H1. }
  assert (Hg : greedy is_white_space K1 e0 (ws ++ inp1)
               = Some (S (e0 + length ws) + length NAME + 1 + length ARGS + 1,
                       [(2, ARGS); (1, c :: NAME)])).
  { rewrite (greedy_max _ is_white_space K1 inp1 ws);
      [exact H0 | exact Hws | simpl; apply word_not_white_space; exact Hc
      | rewrite H0; discriminate]. }
  match goal with
  | |- match ?g with _ => _ end = _ =>
      change g with (greedy is_white_space K1 e0 (ws ++ inp1))
  end.
  rewrite Hg. f_equal. f_equal. unfold inp1.
  replace (S (e0 + length ws) + length NAME + 1 + length ARGS + 1 - pos)
    with (length (lit "Action:" ++ ws ++ (c :: NAME) ++ lit "(" ++ ARGS ++ lit ")"))
    by (rewrite !length_app; cbn [length]; unfold e0;
        change (length (lit "Action:")) with 7; change (length (lit "(")) with 1;
        change (length (lit ")")) with 1; lia).
  replace (lit "Action:" ++ ws ++ (c :: NAME) ++ lit "(" ++ ARGS ++ lit ")" ++ post)
    with ((lit "Action:" ++ ws ++ (c :: NAME) ++ lit "(" ++ ARGS ++ lit ")") ++ post)
    by (rewrite <- !app_assoc; reflexivity).
  apply firstn_prefix.
Qed.

(** X11: the pointer-environment decoder reads the first [Action:] of the
    trimmed region: behind optional white space a name of word characters,
    an opening parenthesis and the arguments up to the first closing
    parenthesis. Text before [Action:] and behind the closing parenthesis
    is ignored, and a closing parenthesis inside a quoted value ends the
    arguments as well. *)
Theorem action_line_decoded :
  forall ft ent content region pre ws NAME ARGS post,
    tag_body (lit "<computer_env>") (lit "</computer_env>") content = Some region ->
    cut (lit "Action:") (trim region)
    = Some (pre, ws ++ NAME ++ lit "(" ++ ARGS ++ lit ")" ++ post) ->
    forallb is_white_space ws = true ->
    NAME <> [] -> forallb is_word_char NAME = true ->
    forallb (not_char 41) ARGS = true ->
    exists pc t,
      call (parseComputerContent ft ent content) = Ok pc
      /\ invocations pc = [t]
      /\ name (function t) = VString NAME
      /\ arguments (function t) = JSON_stringify ft (VObject (pointer_parameters ARGS)).
Proof.
  intros ft ent content region pre ws NAME ARGS post Hregion Hcut Hws Hne Hname Hargs.
  pose proof (action_match_at (0 + length pre) ws NAME ARGS post Hws Hne Hname Hargs) as Hm.
  unfold action_line in Hm at 1. rewrite <- !app_assoc in Hm.
  pose proof (search_first_occurrence (lit "Action:") _ _ _ 0 _ _ Hcut Hm) as Hs.
  exists (result ft ent content (computer_env_found content)).
  unfold call. rewrite parseComputerContent_run.
  rewrite invocations_result, computer_env_found_body, Hregion.
  unfold String_match. unfold action_regex in Hs |- *. rewrite Hs.
  eexists. repeat split.
Qed.

(** The action of [scroll_down], between other lines. *)
Lemma action_line_decoded_witness :
  tag_body (lit "<computer_env>") (lit "</computer_env>") scroll_down
  = Some scroll_down_region
  /\ cut (lit "Action:") (trim scroll_down_region)
     = Some (lit "then ",
             [10; 32]%N ++ lit "scroll" ++ lit "(" ++ lit "direction='down'" ++ lit ")"
             ++ lit " done")
  /\ exists pc t,
      call (parseComputerContent literal_text sample_entropy scroll_down) = Ok pc
      /\ invocations pc = [t]
      /\ name (function t) = VString (lit "scroll")
      /\ arguments (function t) = VString (jq "{`direction`:`down`}").
Proof.
  assert (H1 : tag_body (lit "<computer_env>") (lit "</computer_env>") scroll_down
               = Some scroll_down_region) by (vm_compute; reflexivity).
  assert (H2 : cut (lit "Action:") (trim scroll_down_region)
               = Some (lit "then ",
                       [10; 32]%N ++ lit "scroll" ++ lit "(" ++ lit "direction='down'"
                       ++ lit ")" ++ lit " done")) by (vm_compute; reflexivity).
  assert (H3 : lit "scroll" <> []) by discriminate.
  split; [exact H1 | split; [exact H2|]].
  exact (action_line_decoded literal_text sample_entropy scroll_down scroll_down_region
           (lit "then ") [10; 32]%N (lit "scroll") (lit "direction='down'") (lit " done")
           H1 H2 eq_refl H3 eq_refl eq_refl).
Defined.

(** ** Decimal digits *)

Lemma string_of_uint_digits d :
  forallb is_digit (lit (NilEmpty.string_of_uint d)) = true.
Proof. induction d; simpl; auto. Qed.

Lemma lit_string_of_uint_digits d :
  forallb is_digit (lit (NilZero.string_of_uint d)) = true.
Proof. destruct d; try apply string_of_uint_digits. reflexivity. Qed.

Lemma digits_value_acc d : forall acc,
  fold_left decimal_step (lit (NilEmpty.string_of_uint d)) (Z.pos acc)
  = Z.pos (Pos.of_uint_acc d acc).
Proof.
  induction d; intros acc; [reflexivity| ..];
    cbn [Pos.of_uint_acc]; rewrite <- IHd;
    cbn [NilEmpty.string_of_uint lit list_ascii_of_string List.map fold_left];
    f_equal; unfold decimal_step, decimal_digit;
    match goal with
    | |- context [Z.of_N ?e] =>
        let v := eval vm_compute in (Z.of_N e) in change (Z.of_N e) with v
    end; lia.
Qed.

Lemma digits_value_of_uint d :
  digits_value 10 decimal_digit (lit (NilZero.string_of_uint d)) = Z.of_N (Pos.of_uint d).
Proof.
  unfold digits_value. change (fun a c => (10 * a + decimal_digit c)%Z) with decimal_step.
  assert (H : fold_left decimal_step (lit (NilEmpty.string_of_uint d)) 0%Z
              = Z.of_N (Pos.of_uint d)); [|destruct d; try exact H; reflexivity].
  induction d; simpl; try reflexivity; try exact IHd;
    apply (digits_value_acc d 1) || apply (digits_value_acc d 2)
    || apply (digits_value_acc d 3) || apply (digits_value_acc d 4)
    || apply (digits_value_acc d 5) || apply (digits_value_acc d 6)
    || apply (digits_value_acc d 7) || apply (digits_value_acc d 8)
    || apply (digits_value_acc d 9).
Qed.

Lemma decimal_digits_are_digits n : forallb is_digit (decimal_digits n) = true.
Proof. apply lit_string_of_uint_digits. Qed.

Lemma decimal_digits_value n :
  digits_value 10 decimal_digit (decimal_digits n) = Z.of_N n.
Proof.
  unfold decimal_digits. rewrite digits_value_of_uint.
  change (Pos.of_uint (N.to_uint n)) with (N.of_uint (N.to_uint n)).
  rewrite DecimalN.Unsigned.of_to. reflexivity.
Qed.

Lemma to_uint_normal n : Decimal.unorm (N.to_uint n) = N.to_uint n.
Proof.
  rewrite <- (DecimalN.Unsigned.of_to n) at 2.
  symmetry. apply DecimalN.Unsigned.to_of.
Qed.

Lemma decimal_digits_nonempty n : decimal_digits n <> [].
Proof.
  unfold decimal_digits. pose proof (DecimalFacts.unorm_nonnil (N.to_uint n)) as H.
  rewrite to_uint_normal in H. destruct (N.to_uint n); [congruence | | | | | | | | | |];
    discriminate.
Qed.

(** No superfluous zero in front. *)
Lemma decimal_digits_leading t n : decimal_digits n = 48%N :: t -> t = [].
Proof.
  unfold decimal_digits. pose proof (to_uint_normal n) as H.
  destruct (N.to_uint n) as [|u|u|u|u|u|u|u|u|u|u]; try discriminate.
  intros E. rewrite DecimalFacts.unorm_D0 in H.
  assert (Hu : u = Decimal.Nil).
  { destruct (Decimal.uint_eq_dec u Decimal.Nil) as [Hu|Hu]; [exact Hu|].
    pose proof (DecimalFacts.nb_digits_unorm u Hu) as Hn.
    rewrite H in Hn. simpl in Hn. lia. }
  subst u. simpl in E. injection E as <-. reflexivity.
Qed.

Lemma decimal_digits_inj n m : decimal_digits n = decimal_digits m -> n = m.
Proof.
  intros H. apply (f_equal (digits_value 10 decimal_digit)) in H.
  rewrite !decimal_digits_value in H. lia.
Qed.

Lemma Number_toString_int_inj z1 z2 :
  Number_toString_int z1 = Number_toString_int z2 -> z1 = z2.
Proof.
  unfold Number_toString_int.
  assert (Hd : forall n t, decimal_digits n <> 45%N :: t).
  { intros n t E. pose proof (decimal_digits_are_digits n) as H.
    rewrite E in H. discriminate. }
  destruct (Z.ltb_spec z1 0), (Z.ltb_spec z2 0); intros E.
  - injection E as E. apply decimal_digits_inj in E. lia.
  - symmetry in E. apply Hd in E. contradiction.
  - apply Hd in E. contradiction.
  - apply decimal_digits_inj in E. lia.
Qed.

Lemma Number_toString_int_chars z :
  forallb (not_char 95) (Number_toString_int z) = true.
Proof.
  assert (Hd : forall n, forallb (not_char 95) (decimal_digits n) = true).
  { intros n. apply (forallb_weaken is_digit); [|apply decimal_digits_are_digits].
    intros a Ha. apply is_digit_range in Ha. apply not_char_of_range. lia. }
  unfold Number_toString_int. destruct (z <? 0)%Z; [simpl; rewrite Hd; reflexivity | apply Hd].
Qed.

Lemma separator_unique x : forall a a' b b',
  forallb (not_char x) a = true -> forallb (not_char x) a' = true ->
  a ++ x :: b = a' ++ x :: b' -> a = a' /\ b = b'.
Proof.
  induction a as [|c a IH]; intros [|c' a'] b b' Ha Ha' E; simpl in *.
  - injection E as <-. auto.
  - injection E as <- _. apply andb_prop in Ha'. destruct Ha' as [Hc _].
    unfold not_char in Hc. rewrite N.eqb_refl in Hc. discriminate.
  - injection E as -> _. apply andb_prop in Ha. destruct Ha as [Hc _].
    unfold not_char in Hc. rewrite N.eqb_refl in Hc. discriminate.
  - injection E as <- E. apply andb_prop in Ha, Ha'.
    destruct Ha as [_ Ha], Ha' as [_ Ha'].
    destruct (IH a' b b' Ha Ha' E) as [-> ->]. auto.
Qed.

Lemma make_id_inj e1 e2 i j :
  make_id e1 i = make_id e2 j
  <-> Date_now e1 i = Date_now e2 j
      /\ substring 2 11 (Math_random_toString36 e1 i)
         = substring 2 11 (Math_random_toString36 e2 j).
Proof.
  unfold make_id. split.
  - intros E. apply app_inv_head in E.
    change (lit "_" ++ ?s) with (95%N :: s) in E.
    apply separator_unique in E; try apply Number_toString_int_chars.
    destruct E as [E1 E2]. apply Number_toString_int_inj in E1. auto.
  - intros [-> ->]. reflexivity.
Qed.

Lemma decoder_nth_id env ft ent content pc i t :
  call (decoder env ft ent content) = Ok pc ->
  nth_error (invocations pc) i = Some t -> id t = make_id ent i.
Proof.
  intros H Hn. apply decoder_result in H. subst pc.
  rewrite invocations_result in Hn. apply tools_from_nth in Hn. exact Hn.
Qed.

(** X12: two invocation identifiers, of one result or of two, are equal
    exactly when the clock readings behind them are equal and the random
    suffixes behind them are equal: the identifier determines both, and
    nothing but the clock and the random source keeps identifiers apart. *)
Theorem identifiers_equal_iff_entropy_equal :
  forall env1 env2 ft1 ft2 ent1 ent2 c1 c2 pc1 pc2 i j t1 t2,
    call (decoder env1 ft1 ent1 c1) = Ok pc1 ->
    call (decoder env2 ft2 ent2 c2) = Ok pc2 ->
    nth_error (invocations pc1) i = Some t1 ->
    nth_error (invocations pc2) j = Some t2 ->
    (id t1 = id t2
     <-> Date_now ent1 i = Date_now ent2 j
         /\ substring 2 11 (Math_random_toString36 ent1 i)
            = substring 2 11 (Math_random_toString36 ent2 j)).
Proof.
  intros env1 env2 ft1 ft2 ent1 ent2 c1 c2 pc1 pc2 i j t1 t2 H1 H2 Hi Hj.
  rewrite (decoder_nth_id _ _ _ _ _ _ _ H1 Hi), (decoder_nth_id _ _ _ _ _ _ _ H2 Hj).
  apply make_id_inj.
Qed.

(** The identifiers of the two invocations of [two_calls] differ with the
    clock. *)
Lemma identifiers_equal_iff_entropy_equal_witness :
  call (decoder McpEnv literal_text sample_entropy two_calls) = Ok two_calls_result
  /\ (id search_call = id open_call
      <-> Date_now sample_entropy 0 = Date_now sample_entropy 1
          /\ substring 2 11 (Math_random_toString36 sample_entropy 0)
             = substring 2 11 (Math_random_toString36 sample_entropy 1)).
Proof.
  assert (H : call (decoder McpEnv literal_text sample_entropy two_calls)
              = Ok two_calls_result) by (vm_compute; reflexivity).
  split; [exact H|].
  exact (identifiers_equal_iff_entropy_equal McpEnv McpEnv literal_text literal_text
           sample_entropy sample_entropy two_calls two_calls
           two_calls_result two_calls_result 0 1 search_call open_call
           H H eq_refl eq_refl).
Defined.

(** ** Reading back what [JSON.stringify] writes *)

Lemma hex_value_hex_digit n :
  (n < 16)%N -> hex_value (hex_digit n) = Some (Z.of_N n).
Proof.
  intros H.
  assert (E : In n [0; 1; 2; 3; 4; 5; 6; 7; 8; 9; 10; 11; 12; 13; 14; 15]%N).
  { simpl. lia. }
  simpl in E. repeat (destruct E as [<-|E]; [reflexivity|]). contradiction.
Qed.

Lemma lex_unicode_digit acc hs toks n :
  (n < 16)%N ->
  lex_step (LUnicode acc hs, toks) (hex_digit n)
  = match hs with
    | [a; b; d] =>
        Some (LString (Z.to_N (((a * 16 + b) * 16 + d) * 16 + Z.of_N n) :: acc), toks)
    | _ => Some (LUnicode acc (hs ++ [Z.of_N n]), toks)
    end.
Proof. intros H. unfold lex_step. rewrite hex_value_hex_digit by exact H. reflexivity. Qed.

Lemma unicode_escape_read c acc toks rest :
  (c < 65536)%N ->
  lex_from (LString acc, toks) (unicode_escape c ++ rest)
  = lex_from (LString (c :: acc), toks) rest.
Proof.
  intros Hc. unfold unicode_escape.
  cbn [app lex_from].
  change (lex_step (LString acc, toks) 92) with (Some (LEscape acc, toks)).
  cbv iota.
  change (lex_step (LEscape acc, toks) 117) with (Some (LUnicode acc [], toks)).
  cbv iota.
  rewrite lex_unicode_digit by (apply N.mod_upper_bound; discriminate). cbn [app].
  rewrite lex_unicode_digit by (apply N.mod_upper_bound; discriminate). cbn [app].
  rewrite lex_unicode_digit by (apply N.mod_upper_bound; discriminate). cbn [app].
  rewrite lex_unicode_digit by (apply N.mod_upper_bound; discriminate).
  assert (E : Z.to_N
               (((Z.of_N ((c / 4096) mod 16) * 16 + Z.of_N ((c / 256) mod 16)) * 16
                 + Z.of_N ((c / 16) mod 16)) * 16 + Z.of_N (c mod 16)) = c).
  { rewrite <- (N2Z.id c) at 5. apply f_equal.
    rewrite !N2Z.inj_mod, !N2Z.inj_div. change (Z.of_N 16) with 16%Z.
    change (Z.of_N 256) with 256%Z. change (Z.of_N 4096) with 4096%Z.
    assert (H : (0 <= Z.of_N c < 65536)%Z) by lia.
    generalize dependent (Z.of_N c). clear Hc. intros z Hz.
    Z.div_mod_to_equations. lia. }
  rewrite E. reflexivity.
Qed.

Lemma raw_char_read c acc toks :
  c <> 34%N -> c <> 92%N -> (32 <= c)%N ->
  lex_step (LString acc, toks) c = Some (LString (c :: acc), toks).
Proof.
  intros H1 H2 H3. unfold lex_step.
  destruct (N.eqb_spec c 34); [contradiction|].
  destruct (N.eqb_spec c 92); [contradiction|].
  destruct (N.ltb_spec c 32); [lia | reflexivity].
Qed.

Lemma escape_char_read c acc toks rest :
  lex_from (LString acc, toks) (escape_char c ++ rest)
  = lex_from (LString (c :: acc), toks) rest.
Proof.
  unfold escape_char.
  repeat match goal with
         | |- context [N.eqb c ?k] => destruct (N.eqb_spec c k); [subst c; reflexivity|]
         end.
  destruct ((c <? 32)%N || is_high_surrogate c || is_low_surrogate c) eqn:E.
  - apply unicode_escape_read.
    unfold is_high_surrogate, is_low_surrogate in E.
    repeat (apply orb_prop in E; destruct E as [E|E]).
    + apply N.ltb_lt in E. lia.
    + apply andb_prop in E. destruct E as [_ E]. apply N.leb_le in E. lia.
    + apply andb_prop in E. destruct E as [_ E]. apply N.leb_le in E. lia.
  - cbn [app lex_from]. rewrite raw_char_read; auto.
    apply orb_false_iff in E. destruct E as [E _].
    apply orb_false_iff in E. destruct E as [E _]. apply N.ltb_ge in E. exact E.
Qed.

Lemma quote_chars_read : forall n s acc toks rest,
  length s <= n ->
  lex_from (LString acc, toks) (quote_chars s ++ 34%N :: rest)
  = lex_from (LDefault, TString (rev acc ++ s) :: toks) rest.
Proof.
  induction n as [|n IH]; intros s acc toks rest Hn.
  - destruct s; [|simpl in Hn; lia]. simpl. rewrite app_nil_r. reflexivity.
  - destruct s as [|c t]; [simpl; rewrite app_nil_r; reflexivity|].
    assert (Hstep : lex_from (LString acc, toks)
                      ((escape_char c ++ quote_chars t) ++ 34%N :: rest)
                    = lex_from (LDefault, TString (rev acc ++ c :: t) :: toks) rest).
    { rewrite <- app_assoc, escape_char_read, IH by (simpl in Hn; lia).
      simpl rev. rewrite <- app_assoc. reflexivity. }
    destruct t as [|d t'].
    + simpl quote_chars. simpl quote_chars in Hstep. rewrite app_nil_r in Hstep.
      exact Hstep.
    + cbn [quote_chars].
      destruct (is_high_surrogate c && is_low_surrogate d) eqn:E; [|exact Hstep].
      apply andb_prop in E. destruct E as [Hc Hd].
      unfold is_high_surrogate in Hc. unfold is_low_surrogate in Hd.
      apply andb_prop in Hc, Hd. destruct Hc as [Hc _], Hd as [Hd _].
      apply N.leb_le in Hc, Hd.
      cbn [app lex_from]. rewrite !raw_char_read by lia.
      rewrite IH by (simpl in Hn; lia).
      simpl rev. rewrite <- !app_assoc. reflexivity.
Qed.

Lemma QuoteJSONString_read s toks rest :
  lex_from (LDefault, toks) (QuoteJSONString s ++ rest)
  = lex_from (LDefault, TString s :: toks) rest.
Proof.
  unfold QuoteJSONString. cbn [app lex_from].
  change (lex_step (LDefault, toks) 34) with (Some (LString [], toks)). cbv iota.
  rewrite <- app_assoc. apply (quote_chars_read (length s)). lia.
Qed.

(** *** Objects in property order *)

Lemma key_before_trans a b c : key_before a b -> key_before b c -> key_before a c.
Proof.
  unfold key_before.
  destruct (array_index a), (array_index b), (array_index c); try tauto; lia.
Qed.

Lemma str_eqb_sym a b : str_eqb a b = str_eqb b a.
Proof.
  destruct (str_eqb a b) eqn:E.
  - apply str_eqb_eq in E. subst. symmetry. apply str_eqb_eq. reflexivity.
  - destruct (str_eqb b a) eqn:E'; [|reflexivity].
    apply str_eqb_eq in E'. subst. rewrite (proj2 (str_eqb_eq a a) eq_refl) in E.
    discriminate.
Qed.

Lemma has_prop_insert k' k v : forall o,
  has_prop k' (insert_prop k v o) = str_eqb k' k || has_prop k' o.
Proof.
  induction o as [|[k1 v1] o IH]; simpl; [reflexivity|].
  destruct (array_index k) as [n|]; [destruct (array_index k1) as [n1|]|].
  - destruct (n <? n1)%Z; simpl; [reflexivity|].
    rewrite IH. destruct (str_eqb k' k1), (str_eqb k' k); reflexivity.
  - reflexivity.
  - simpl. rewrite IH. destruct (str_eqb k' k1), (str_eqb k' k); reflexivity.
Qed.

Lemma Forall_insert (P : jsstring * jsval -> Prop) k v : forall o,
  P (k, v) -> Forall P o -> Forall P (insert_prop k v o).
Proof.
  induction o as [|[k1 v1] o IH]; simpl; intros Hk Ho.
  - constructor; [exact Hk | constructor].
  - inversion Ho; subst.
    destruct (array_index k) as [n|]; [destruct (array_index k1) as [n1|]|].
    + destruct (n <? n1)%Z; constructor; auto.
    + constructor; auto.
    + constructor; auto.
Qed.

Lemma proper_insert k v : forall o,
  proper o -> has_prop k o = false -> proper (insert_prop k v o).
Proof.
  induction o as [|[k1 v1] o IH]; intros Ho Hk.
  - simpl. auto.
  - simpl in Ho, Hk. destruct Ho as (H1 & H2 & H3).
    apply orb_false_iff in Hk. destruct Hk as [Hk1 Hk].
    assert (Hlater : proper ((k1, v1) :: insert_prop k v o)
                     \/ ~ key_before k1 k).
    { destruct (array_index k1) as [n1|] eqn:E1, (array_index k) as [n|] eqn:E;
        try (left; simpl; split; [|split]; 
             [ rewrite has_prop_insert, str_eqb_sym, Hk1; exact H1
             | apply Forall_insert; [unfold key_before; simpl; rewrite E1, E; exact I | exact H2]
             | apply IH; assumption ]).
      - destruct (Z.leb_spec n1 n).
        + left. simpl. split; [|split].
          * rewrite has_prop_insert, str_eqb_sym, Hk1. exact H1.
          * apply Forall_insert; [unfold key_before; simpl; rewrite E1, E; assumption | exact H2].
          * apply IH; assumption.
        + right. unfold key_before. rewrite E1, E. lia.
      - right. unfold key_before. rewrite E1, E. tauto. }
    assert (Hfirst : key_before k k1 -> proper ((k, v) :: (k1, v1) :: o)).
    { intros Hb. simpl. split; [|split; [|auto]].
      - rewrite Hk1, Hk. reflexivity.
      - constructor; [exact Hb|].
        eapply Forall_impl; [|exact H2]. intros x Hx. simpl in Hx.
        eapply key_before_trans; eassumption. }
    cbn [insert_prop].
    destruct (array_index k) as [n|] eqn:E; [destruct (array_index k1) as [n1|] eqn:E1|].
    + destruct (Z.ltb_spec n n1).
      * apply Hfirst. unfold key_before. rewrite E, E1. lia.
      * destruct Hlater as [Hl|Hl]; [exact Hl|].
        exfalso. apply Hl. unfold key_before. rewrite E, E1. lia.
    + apply Hfirst. unfold key_before. rewrite E, E1. exact I.
    + destruct Hlater as [Hl|Hl]; [exact Hl|].
      exfalso. apply Hl. unfold key_before. rewrite E.
      destruct (array_index k1); exact I.
Qed.

Lemma keys_update k v : forall o,
  List.map fst (update_prop k v o) = List.map fst o.
Proof.
  induction o as [|[k1 v1] o IH]; simpl; [reflexivity|].
  destruct (str_eqb k k1); simpl; [reflexivity | rewrite IH; reflexivity].
Qed.

Lemma has_prop_keys k : forall o, has_prop k o = existsb (str_eqb k) (List.map fst o).
Proof.
  induction o as [|[k1 v1] o IH]; simpl; [reflexivity | rewrite IH; reflexivity].
Qed.

Lemma proper_keys : forall o o',
  List.map fst o = List.map fst o' -> proper o -> proper o'.
Proof.
  induction o as [|kv o IH]; intros [|kv' o'] E; try discriminate; [auto|].
  simpl in E. injection E as E1 E2. simpl. intros (H1 & H2 & H3).
  rewrite <- E1. split; [|split].
  - rewrite has_prop_keys, <- E2, <- has_prop_keys. exact H1.
  - apply Forall_forall. intros x Hx.
    apply (in_map fst) in Hx. rewrite <- E2 in Hx. apply in_map_iff in Hx.
    destruct Hx as (y & Hy & Hin). rewrite <- Hy.
    rewrite Forall_forall in H2. apply H2. exact Hin.
  - apply (IH o' E2 H3).
Qed.

Lemma proper_define k v o : proper o -> proper (define_prop k v o).
Proof.
  intros H. unfold define_prop. destruct (has_prop k o) eqn:E.
  - apply (proper_keys o); [symmetry; apply keys_update | exact H].
  - apply proper_insert; assumption.
Qed.

Lemma values_update (Q : jsval -> Prop) k v : forall o,
  Q v -> Forall (fun kv => Q (snd kv)) o -> Forall (fun kv => Q (snd kv)) (update_prop k v o).
Proof.
  induction o as [|[k1 v1] o IH]; simpl; intros Hv H; [exact H|].
  inversion H; subst. destruct (str_eqb k k1); constructor;
    try assumption; apply IH; assumption.
Qed.

Lemma values_define (Q : jsval -> Prop) k v o :
  Q v -> Forall (fun kv => Q (snd kv)) o -> Forall (fun kv => Q (snd kv)) (define_prop k v o).
Proof.
  intros Hv H. unfold define_prop. destruct (has_prop k o).
  - apply values_update; assumption.
  - apply Forall_insert; assumption.
Qed.

(** An assignment keeps the property order and what holds of all the
    values. *)
Lemma obj_set_kept (Q : jsval -> Prop) o k v :
  Q v -> proper o /\ Forall (fun kv => Q (snd kv)) o ->
  proper (obj_set o k v) /\ Forall (fun kv => Q (snd kv)) (obj_set o k v).
Proof.
  intros Hv [Hp Hs]. unfold obj_set. destruct (str_eqb k (lit "__proto__")); [auto|].
  split; [apply proper_define | apply values_define]; assumption.
Qed.

(** A key that may stand behind all the keys of an object is added at the
    end. *)
Lemma insert_last k v : forall o,
  Forall (fun x => key_before (fst x) k) o -> insert_prop k v o = o ++ [(k, v)].
Proof.
  induction o as [|[k1 v1] o IH]; intros H; [reflexivity|].
  inversion H as [|x l Hb Hl]; subst. simpl in Hb. unfold key_before in Hb.
  cbn [insert_prop app].
  destruct (array_index k) as [n|]; [destruct (array_index k1) as [n1|]|].
  - destruct (Z.ltb_spec n n1); [lia|]. rewrite IH by exact Hl. reflexivity.
  - contradiction.
  - rewrite IH by exact Hl. reflexivity.
Qed.

Lemma has_prop_app k a b : has_prop k (a ++ b) = has_prop k a || has_prop k b.
Proof.
  induction a as [|[k1 v1] a IH]; simpl; [reflexivity|].
  rewrite IH. apply orb_assoc.
Qed.

Lemma proper_middle : forall a kv b,
  proper (a ++ kv :: b) ->
  has_prop (fst kv) a = false /\ Forall (fun x => key_before (fst x) (fst kv)) a.
Proof.
  induction a as [|x a IH]; intros [k v] b H; [simpl; auto|].
  simpl in H. destruct H as (H1 & H2 & H3).
  destruct (IH (k, v) b H3) as [Ha Hb].
  rewrite has_prop_app in H1. apply orb_false_iff in H1. destruct H1 as [_ H1].
  simpl in H1. apply orb_false_iff in H1. destruct H1 as [H1 _].
  split.
  - destruct x as [k1 v1]. simpl. rewrite str_eqb_sym. simpl in H1. rewrite H1. exact Ha.
  - constructor; [|exact Hb].
    rewrite Forall_forall in H2. apply H2. apply in_or_app. right. left. reflexivity.
Qed.

(** Defining the properties of an object in property order, one after the
    other, gives that object. *)
Lemma define_in_order : forall o acc,
  proper (acc ++ o) ->
  fold_left (fun a kv => define_prop (fst kv) (snd kv) a) o acc = acc ++ o.
Proof.
  induction o as [|[k v] o IH]; intros acc H.
  - simpl. rewrite app_nil_r. reflexivity.
  - destruct (proper_middle acc (k, v) o H) as [Hk Hb].
    cbn [fold_left fst snd]. unfold define_prop at 2. simpl in Hk. rewrite Hk.
    rewrite insert_last by exact Hb.
    rewrite IH by (rewrite <- app_assoc; exact H).
    rewrite <- app_assoc. reflexivity.
Qed.

Lemma scan_matched r : forall inp skip pos m,
  In m (scan r skip pos inp) -> exists pos' inp', match_at r pos' inp' = Some m.
Proof.
  induction inp as [|c t IH]; intros skip pos m; destruct skip as [|n]; simpl.
  - destruct (match_at r pos []) as [m'|] eqn:E; simpl; [|tauto].
    intros [<-|[]]. eauto.
  - tauto.
  - destruct (match_at r pos (c :: t)) as [m'|] eqn:E; simpl.
    + intros [<-|H]; [eauto | eapply IH; exact H].
    + apply IH.
  - apply IH.
Qed.

(** ** Values that [JSON.stringify] writes and [JSON.parse] reads back *)

(** Induction on a value with the elements of arrays and the values of
    objects as smaller values. *)
Lemma jsval_nested_ind (P : jsval -> Prop) :
  P VUndefined -> P VNull -> (forall b, P (VBool b)) -> (forall n, P (VNumber n)) ->
  (forall s, P (VString s)) ->
  (forall l, Forall P l -> P (VArray l)) ->
  (forall o, Forall (fun kv => P (snd kv)) o -> P (VObject o)) ->
  forall v, P v.
Proof.
  intros Hu Hn Hb Hnum Hs Ha Ho. fix IH 1.
  intros [| |b|n|s|l|o];
    [exact Hu | exact Hn | apply Hb | apply Hnum | apply Hs | |].
  - apply Ha. induction l as [|x l IHl]; constructor; [apply IH | exact IHl].
  - apply Ho. induction o as [|[k x] o IHo]; constructor; [apply IH | exact IHo].
Qed.

Lemma word_end acc toks rest tok :
  word_token (rev acc) = Some tok -> delimited rest ->
  lex_from (LWord acc, toks) rest = lex_from (LDefault, tok :: toks) rest.
Proof.
  intros Hw Hd. destruct rest as [|c r].
  - simpl. rewrite Hw. reflexivity.
  - simpl in Hd. cbn [lex_from]. unfold lex_step at 1. cbn [flush]. rewrite Hw.
    destruct Hd as [->|[->| ->]]; reflexivity.
Qed.

Lemma number_end acc toks rest n :
  JSON_number (rev acc) = Some n -> delimited rest ->
  lex_from (LNumber acc, toks) rest = lex_from (LDefault, TValue (VNumber n) :: toks) rest.
Proof.
  intros Hn Hd. destruct rest as [|c r].
  - simpl. rewrite Hn. reflexivity.
  - simpl in Hd. cbn [lex_from]. unfold lex_step at 1. cbn [flush]. rewrite Hn.
    destruct Hd as [->|[->| ->]]; reflexivity.
Qed.

Lemma number_chars_read toks rest : forall s acc,
  forallb is_number_char s = true ->
  lex_from (LNumber acc, toks) (s ++ rest) = lex_from (LNumber (rev s ++ acc), toks) rest.
Proof.
  induction s as [|c s IH]; intros acc H; [reflexivity|].
  simpl in H. apply andb_prop in H. destruct H as [Hc Hs].
  cbn [app lex_from]. unfold lex_step at 1. rewrite Hc.
  rewrite IH by exact Hs. simpl rev. rewrite <- app_assoc. reflexivity.
Qed.

Lemma digit_is_number_char s :
  forallb is_digit s = true -> forallb is_number_char s = true.
Proof.
  apply forallb_weaken. intros c Hc. unfold is_number_char. rewrite Hc. reflexivity.
Qed.

(** The digits [JSON.stringify] writes for an integer of the safe range
    are a number of the JSON grammar, with that integer as value. *)
Lemma JSON_number_toString z :
  (Z.abs z <= 2 ^ 53)%Z -> JSON_number (Number_toString_int z) = Some (Int z).
Proof.
  intros Hz.
  assert (Hnat : forall n neg src,
             (Z.of_N n <= 2 ^ 53)%Z -> (neg = true -> n <> 0%N) ->
             match scan_decimal (decimal_digits n) with
             | Some d =>
                 let int_ok :=
                   match d_int d with
                   | [] => false
                   | [_] => true
                   | c :: _ => negb (c =? 48)%N
                   end in
                 let frac_ok :=
                   match d_dot d, d_frac d with
                   | true, [] => false
                   | _, _ => true
                   end in
                 if int_ok && frac_ok then Some (decimal_value neg src d) else None
             | None => None
             end = Some (Int (if neg then - Z.of_N n else Z.of_N n))).
  { intros n neg src Hn Hnz.
    rewrite scan_decimal_digits by apply decimal_digits_are_digits.
    cbn [d_int d_dot d_frac]. cbv zeta.
    assert (Hok : match decimal_digits n with
                  | [] => false
                  | [_] => true
                  | c :: _ => negb (c =? 48)%N
                  end = true).
    { pose proof (decimal_digits_nonempty n) as Hne.
      destruct (decimal_digits n) as [|c [|d t]] eqn:E; [congruence | reflexivity|].
      destruct (N.eqb_spec c 48) as [->|]; [|reflexivity].
      apply decimal_digits_leading in E. discriminate. }
    rewrite Hok. cbn [andb]. unfold decimal_value. cbn [d_int d_frac d_exp length].
    rewrite app_nil_r, decimal_digits_value. change (0 - Z.of_nat 0)%Z with 0%Z.
    rewrite classify_integer by lia.
    destruct neg; [|rewrite andb_false_r; reflexivity].
    destruct (Z.eqb_spec (Z.of_N n) 0) as [E|E]; [|reflexivity].
    exfalso. apply Hnz; [reflexivity | lia]. }
  unfold Number_toString_int, JSON_number.
  destruct (Z.ltb_spec z 0) as [Hneg|Hpos].
  - change (45 =? 45)%N with true. cbv iota.
    rewrite (Hnat (Z.to_N (- z)) true) by (try lia; intros _; lia).
    do 2 f_equal. lia.
  - assert (Hc : forall c u, decimal_digits (Z.to_N z) = c :: u -> (c =? 45)%N = false).
    { intros c u E. pose proof (decimal_digits_are_digits (Z.to_N z)) as H.
      rewrite E in H. simpl in H. apply andb_prop in H. destruct H as [H _].
      apply is_digit_range in H. apply N.eqb_neq. lia. }
    destruct (decimal_digits (Z.to_N z)) as [|c u] eqn:E.
    + exfalso. exact (decimal_digits_nonempty _ E).
    + rewrite (Hc c u eq_refl). rewrite <- E.
      rewrite (Hnat (Z.to_N z) false) by (try lia; discriminate).
      do 2 f_equal. lia.
Qed.

Lemma Number_toString_int_read z toks rest :
  (Z.abs z <= 2 ^ 53)%Z -> delimited rest ->
  lex_from (LDefault, toks) (Number_toString_int z ++ rest)
  = lex_from (LDefault, TValue (VNumber (Int z)) :: toks) rest.
Proof.
  intros Hz Hd.
  assert (Hchars : forallb is_number_char (Number_toString_int z) = true).
  { unfold Number_toString_int. destruct (z <? 0)%Z.
    - simpl. apply digit_is_number_char, decimal_digits_are_digits.
    - apply digit_is_number_char, decimal_digits_are_digits. }
  assert (Hhead : exists c u, Number_toString_int z = c :: u
                              /\ ((c =? 45) || is_digit c)%N = true).
  { unfold Number_toString_int. destruct (z <? 0)%Z; [eauto|].
    pose proof (decimal_digits_are_digits (Z.to_N z)) as H.
    destruct (decimal_digits (Z.to_N z)) as [|c u] eqn:E.
    - exfalso. exact (decimal_digits_nonempty _ E).
    - exists c, u. split; [reflexivity|]. simpl in H.
      apply andb_prop in H. destruct H as [-> _]. apply orb_true_r. }
  destruct Hhead as (c & u & E & Hc).
  pose proof (JSON_number_toString z Hz) as Hnum.
  rewrite E in *. simpl in Hchars. apply andb_prop in Hchars. destruct Hchars as [_ Hu].
  cbn [app lex_from].
  assert (Hstart : lex_step (LDefault, toks) c = Some (LNumber [c], toks)).
  { unfold lex_step, lex_default.
    assert (Hr : (c = 45 \/ 48 <= c <= 57)%N).
    { apply orb_prop in Hc. destruct Hc as [Hc|Hc];
        [apply N.eqb_eq in Hc; auto | apply is_digit_range in Hc; auto]. }
    unfold is_json_ws.
    repeat match goal with
           | |- context [N.eqb c ?k] =>
               lazymatch k with
               | 45%N => fail
               | _ => destruct (N.eqb_spec c k); [lia|]
               end
           end.
    cbn [orb]. rewrite Hc. reflexivity. }
  rewrite Hstart, number_chars_read by exact Hu.
  apply number_end; [|exact Hd].
  rewrite rev_app_distr, rev_involutive. exact Hnum.
Qed.

Section ReadBack.
Variable ft : jsstring -> jsstring.

Lemma reads_back_element v toks rest :
  reads_back ft v -> delimited rest ->
  lex_from (LDefault, toks) (element_text ft v ++ rest)
  = lex_from (LDefault, rev (json_tokens v) ++ toks) rest.
Proof.
  intros (s & Hs & H) Hd. unfold element_text. rewrite Hs. apply H. exact Hd.
Qed.

Lemma items_read : forall l toks rest,
  Forall (reads_back ft) l ->
  lex_from (LDefault, toks)
    (concat (List.map (fun b => lit "," ++ b) (List.map (element_text ft) l)) ++ 93%N :: rest)
  = lex_from
      (LDefault,
       rev (concat (List.map (fun b => TComma :: b) (List.map json_tokens l))) ++ toks)
      (93%N :: rest).
Proof.
  induction l as [|x l IH]; intros toks rest Hl; [reflexivity|].
  inversion Hl as [|y l' Hx Hl']; subst.
  cbn [List.map concat]. rewrite <- !app_assoc.
  change (lit "," ++ ?t) with (44%N :: t). cbn [lex_from].
  change (lex_step (LDefault, toks) 44) with (Some (LDefault, TComma :: toks)). cbv iota.
  rewrite reads_back_element;
    [ | exact Hx
      | destruct l; simpl; auto ].
  rewrite IH by exact Hl'.
  change (TComma :: json_tokens x ++ ?c) with ((TComma :: json_tokens x) ++ c).
  rewrite rev_app_distr. cbn [rev]. rewrite <- !app_assoc. reflexivity.
Qed.

Lemma array_reads_back l :
  Forall (reads_back ft) l -> reads_back ft (VArray l).
Proof.
  intros Hl. exists (lit "[" ++ join (lit ",") (List.map (element_text ft) l) ++ lit "]").
  split; [reflexivity|]. intros toks rest Hd.
  change (lit "[" ++ ?t) with (91%N :: t). cbn [app lex_from].
  change (lex_step (LDefault, toks) 91) with (Some (LDefault, TLBracket :: toks)). cbv iota.
  change (lit "]") with [93%N].
  destruct l as [|x l].
  - cbn [List.map join app lex_from].
    change (lex_step (LDefault, ?t) 93) with (Some (LDefault, TRBracket :: t)). cbv iota.
    reflexivity.
  - inversion Hl as [|y l' Hx Hl']; subst.
    cbn [List.map]. rewrite join_cons, <- !app_assoc.
    rewrite reads_back_element; [ | exact Hx | destruct l; simpl; auto ].
    change ([93%N] ++ rest) with (93%N :: rest).
    rewrite items_read by exact Hl'.
    cbn [lex_from].
    change (lex_step (LDefault, ?t) 93) with (Some (LDefault, TRBracket :: t)). cbv iota.
    f_equal. f_equal. cbn [json_tokens List.map separated].
    change (TLBracket :: ?a ++ [TRBracket]) with ([TLBracket] ++ a ++ [TRBracket]).
    rewrite !rev_app_distr. cbn [rev app]. rewrite <- !app_assoc. reflexivity.
Qed.

Lemma members_text : forall o,
  Forall (fun kv => reads_back ft (snd kv)) o ->
  List.flat_map
    (fun kv => match serialize ft (snd kv) with
               | Some s => [QuoteJSONString (fst kv) ++ lit ":" ++ s]
               | None => []
               end) o
  = List.map (member_text ft) o.
Proof.
  induction o as [|kv o IH]; intros H; [reflexivity|].
  inversion H as [|y l' (s & Hs & _) Ho]; subst.
  cbn [List.flat_map List.map]. unfold member_text at 1, element_text.
  rewrite Hs, IH by exact Ho. reflexivity.
Qed.

Lemma member_read kv toks rest :
  reads_back ft (snd kv) -> delimited rest ->
  lex_from (LDefault, toks) (member_text ft kv ++ rest)
  = lex_from (LDefault, rev (member_tokens kv) ++ toks) rest.
Proof.
  intros Hv Hd. unfold member_text, member_tokens.
  rewrite <- !app_assoc, QuoteJSONString_read.
  change (lit ":" ++ ?x) with (58%N :: x). cbn [lex_from].
  change (lex_step (LDefault, ?t) 58) with (Some (LDefault, TColon :: t)). cbv iota.
  rewrite reads_back_element by assumption.
  cbn [rev]. rewrite <- !app_assoc. reflexivity.
Qed.

Lemma members_read : forall o toks rest,
  Forall (fun kv => reads_back ft (snd kv)) o ->
  lex_from (LDefault, toks)
    (concat (List.map (fun b => lit "," ++ b) (List.map (member_text ft) o)) ++ 125%N :: rest)
  = lex_from
      (LDefault,
       rev (concat (List.map (fun b => TComma :: b) (List.map member_tokens o))) ++ toks)
      (125%N :: rest).
Proof.
  induction o as [|kv o IH]; intros toks rest Ho; [reflexivity|].
  inversion Ho as [|y l' Hkv Ho']; subst.
  cbn [List.map concat]. rewrite <- !app_assoc.
  change (lit "," ++ ?t) with (44%N :: t). cbn [lex_from].
  change (lex_step (LDefault, toks) 44) with (Some (LDefault, TComma :: toks)). cbv iota.
  rewrite member_read; [ | exact Hkv | destruct o; simpl; auto ].
  rewrite IH by exact Ho'.
  change (TComma :: member_tokens kv ++ ?c) with ((TComma :: member_tokens kv) ++ c).
  rewrite rev_app_distr. cbn [rev]. rewrite <- !app_assoc. reflexivity.
Qed.

Lemma object_reads_back o :
  Forall (fun kv => reads_back ft (snd kv)) o -> reads_back ft (VObject o).
Proof.
  intros Ho. exists (lit "{" ++ join (lit ",") (List.map (member_text ft) o) ++ lit "}").
  split; [cbn [serialize]; rewrite members_text by exact Ho; reflexivity|].
  intros toks rest Hd.
  change (lit "{" ++ ?t) with (123%N :: t). cbn [app lex_from].
  change (lex_step (LDefault, toks) 123) with (Some (LDefault, TLBrace :: toks)). cbv iota.
  change (lit "}") with [125%N].
  destruct o as [|kv o].
  - cbn [List.map join app lex_from].
    change (lex_step (LDefault, ?t) 125) with (Some (LDefault, TRBrace :: t)). cbv iota.
    reflexivity.
  - inversion Ho as [|y l' Hkv Ho']; subst.
    cbn [List.map]. rewrite join_cons, <- !app_assoc.
    rewrite member_read; [ | exact Hkv | destruct o; simpl; auto ].
    change ([125%N] ++ rest) with (125%N :: rest).
    rewrite members_read by exact Ho'.
    cbn [lex_from].
    change (lex_step (LDefault, ?t) 125) with (Some (LDefault, TRBrace :: t)). cbv iota.
    f_equal. f_equal. cbn [json_tokens List.map separated].
    fold (member_tokens kv). fold (List.map member_tokens o).
    change (TLBrace :: ?a ++ [TRBrace]) with ([TLBrace] ++ a ++ [TRBrace]).
    rewrite !rev_app_distr. cbn [rev app]. rewrite <- !app_assoc. reflexivity.
Qed.

Lemma clean_reads_back : forall v, json_clean v = true -> reads_back ft v.
Proof.
  apply (jsval_nested_ind (fun v => json_clean v = true -> reads_back ft v)).
  - discriminate.
  - intros _. exists (lit "null"). split; [reflexivity|]. intros toks rest Hd.
    change (lit "null" ++ rest) with (110%N :: 117%N :: 108%N :: 108%N :: rest).
    cbn [lex_from].
    change (lex_step (LDefault, toks) 110) with (Some (LWord [110%N], toks)). cbv iota.
    change (lex_step (LWord [110%N], toks) 117) with (Some (LWord [117; 110]%N, toks)).
    cbv iota.
    change (lex_step (LWord [117; 110]%N, toks) 108)
      with (Some (LWord [108; 117; 110]%N, toks)). cbv iota.
    change (lex_step (LWord [108; 117; 110]%N, toks) 108)
      with (Some (LWord [108; 108; 117; 110]%N, toks)). cbv iota.
    apply word_end; [reflexivity | exact Hd].
  - intros [|] _.
    + exists (lit "true"). split; [reflexivity|]. intros toks rest Hd.
      change (lit "true" ++ rest) with (116%N :: 114%N :: 117%N :: 101%N :: rest).
      cbn [lex_from].
      change (lex_step (LDefault, toks) 116) with (Some (LWord [116%N], toks)). cbv iota.
      change (lex_step (LWord [116%N], toks) 114) with (Some (LWord [114; 116]%N, toks)).
      cbv iota.
      change (lex_step (LWord [114; 116]%N, toks) 117)
        with (Some (LWord [117; 114; 116]%N, toks)). cbv iota.
      change (lex_step (LWord [117; 114; 116]%N, toks) 101)
        with (Some (LWord [101; 117; 114; 116]%N, toks)). cbv iota.
      apply word_end; [reflexivity | exact Hd].
    + exists (lit "false"). split; [reflexivity|]. intros toks rest Hd.
      change (lit "false" ++ rest)
        with (102%N :: 97%N :: 108%N :: 115%N :: 101%N :: rest).
      cbn [lex_from].
      change (lex_step (LDefault, toks) 102) with (Some (LWord [102%N], toks)). cbv iota.
      change (lex_step (LWord [102%N], toks) 97) with (Some (LWord [97; 102]%N, toks)).
      cbv iota.
      change (lex_step (LWord [97; 102]%N, toks) 108)
        with (Some (LWord [108; 97; 102]%N, toks)). cbv iota.
      change (lex_step (LWord [108; 97; 102]%N, toks) 115)
        with (Some (LWord [115; 108; 97; 102]%N, toks)). cbv iota.
      change (lex_step (LWord [115; 108; 97; 102]%N, toks) 101)
        with (Some (LWord [101; 115; 108; 97; 102]%N, toks)). cbv iota.
      apply word_end; [reflexivity | exact Hd].
  - intros [z| | | |]; try discriminate. intros Hz. simpl in Hz. apply Z.leb_le in Hz.
    exists (Number_toString_int z). split; [reflexivity|]. intros toks rest Hd.
    apply Number_toString_int_read; assumption.
  - intros s _. exists (QuoteJSONString s). split; [reflexivity|]. intros toks rest _.
    apply QuoteJSONString_read.
  - intros l IH Hl. apply array_reads_back.
    cbn [json_clean] in Hl. rewrite forallb_forall in Hl. rewrite Forall_forall in *.
    intros x Hx. apply IH; [exact Hx | apply Hl; exact Hx].
  - intros o IH Ho. apply object_reads_back.
    cbn [json_clean] in Ho. apply andb_prop in Ho. destruct Ho as [_ Ho].
    rewrite forallb_forall in Ho. rewrite Forall_forall in *.
    intros kv Hkv. apply IH; [exact Hkv | apply Ho; exact Hkv].
Qed.

(** The lexer turns the text of a clean value into its tokens. *)
Lemma lex_clean v s :
  json_clean v = true -> serialize ft v = Some s -> lex s = Some (json_tokens v).
Proof.
  intros Hc Hs. destruct (clean_reads_back v Hc) as (s' & Hs' & H).
  rewrite Hs in Hs'. injection Hs' as <-.
  unfold lex. rewrite <- (app_nil_r s), H by exact I.
  simpl. rewrite app_nil_r, rev_involutive. reflexivity.
Qed.

End ReadBack.

Lemma key_beforeb_spec k k' : key_beforeb k k' = true -> key_before k k'.
Proof.
  unfold key_beforeb, key_before.
  destruct (array_index k), (array_index k'); try discriminate; auto.
  intros H. apply Z.leb_le. exact H.
Qed.

Lemma properb_proper : forall o, properb o = true -> proper o.
Proof.
  induction o as [|kv o IH]; simpl; [auto|].
  intros H. apply andb_prop in H. destruct H as [H H3].
  apply andb_prop in H. destruct H as [H1 H2].
  apply negb_true_iff in H1. split; [exact H1|]. split; [|apply IH; exact H3].
  rewrite forallb_forall in H2. apply Forall_forall.
  intros x Hx. apply key_beforeb_spec, H2, Hx.
Qed.

Lemma first_element x stack rest :
  parse_from (PArrayStart stack) (json_tokens x ++ rest)
  = parse_from (PValue (FArray [] :: stack)) (json_tokens x ++ rest).
Proof. destruct x as [| |b|n|s|l|o]; reflexivity. Qed.

Lemma items_parsed stack rest : forall l items,
  Forall parses_back l ->
  parse_from (PArrayNext items stack)
    (concat (List.map (fun b => TComma :: b) (List.map json_tokens l)) ++ TRBracket :: rest)
  = parse_from (reduce (VArray (rev items ++ l)) stack) rest.
Proof.
  induction l as [|x l IH]; intros items Hl.
  - rewrite app_nil_r. reflexivity.
  - inversion Hl as [|y l' Hx Hl']; subst.
    cbn [List.map concat app parse_from parse_step].
    rewrite <- app_assoc, Hx. cbn [reduce].
    rewrite IH by exact Hl'. cbn [rev]. rewrite <- app_assoc. reflexivity.
Qed.

Lemma array_parses_back l : Forall parses_back l -> parses_back (VArray l).
Proof.
  intros Hl stack rest. cbn [json_tokens app parse_from parse_step begin_value].
  destruct l as [|x l]; [reflexivity|].
  inversion Hl as [|y l' Hx Hl']; subst.
  cbn [List.map separated]. rewrite <- !app_assoc.
  rewrite first_element, Hx. cbn [reduce].
  change ([TRBracket] ++ rest) with (TRBracket :: rest).
  rewrite items_parsed by exact Hl'. reflexivity.
Qed.

Lemma members_parsed stack rest : forall o acc,
  Forall (fun kv => parses_back (snd kv)) o ->
  parse_from (PObjectNext acc stack)
    (concat (List.map (fun b => TComma :: b) (List.map member_tokens o)) ++ TRBrace :: rest)
  = parse_from
      (reduce (VObject (fold_left (fun a kv => define_prop (fst kv) (snd kv) a) o acc)) stack)
      rest.
Proof.
  induction o as [|kv o IH]; intros acc Ho; [reflexivity|].
  inversion Ho as [|y l' Hkv Ho']; subst.
  cbn [List.map concat app parse_from parse_step member_tokens].
  rewrite <- app_assoc, Hkv. cbn [reduce].
  rewrite IH by exact Ho'. reflexivity.
Qed.

Lemma object_parses_back o :
  proper o -> Forall (fun kv => parses_back (snd kv)) o -> parses_back (VObject o).
Proof.
  intros Hp Ho stack rest. cbn [json_tokens app parse_from parse_step begin_value].
  destruct o as [|kv o]; [reflexivity|].
  inversion Ho as [|y l' Hkv Ho']; subst.
  cbn [List.map separated]. fold (member_tokens kv). fold (List.map member_tokens o).
  rewrite <- !app_assoc.
  unfold member_tokens at 1. cbn [app parse_from parse_step].
  rewrite Hkv. cbn [reduce].
  fold member_tokens.
  rewrite members_parsed by exact Ho'.
  change (define_prop (fst kv) (snd kv) [])
    with (fold_left (fun a kv0 => define_prop (fst kv0) (snd kv0) a) [kv] []).
  rewrite <- fold_left_app. change ([kv] ++ o) with (kv :: o).
  rewrite (define_in_order (kv :: o) [] Hp). reflexivity.
Qed.

Lemma clean_parses_back : forall v, json_clean v = true -> parses_back v.
Proof.
  apply (jsval_nested_ind (fun v => json_clean v = true -> parses_back v)).
  - discriminate.
  - intros _ stack rest. reflexivity.
  - intros b _ stack rest. reflexivity.
  - intros n _ stack rest. reflexivity.
  - intros s _ stack rest. reflexivity.
  - intros l IH Hl. apply array_parses_back.
    cbn [json_clean] in Hl. rewrite forallb_forall in Hl. rewrite Forall_forall in *.
    intros x Hx. apply IH; [exact Hx | apply Hl; exact Hx].
  - intros o IH Ho. cbn [json_clean] in Ho. apply andb_prop in Ho. destruct Ho as [Hp Ho].
    apply object_parses_back; [apply properb_proper; exact Hp|].
    rewrite forallb_forall in Ho. rewrite Forall_forall in *.
    intros kv Hkv. apply IH; [exact Hkv | apply Ho; exact Hkv].
Qed.

(** [JSON.parse] gives back a clean value from the text that
    [JSON.stringify] writes for it. *)
Lemma JSON_parse_stringify_clean ft v :
  json_clean v = true ->
  exists a, JSON_stringify ft v = VString a /\ JSON_parse a = Ok v.
Proof.
  intros Hc. destruct (clean_reads_back ft v Hc) as (s & Hs & _).
  exists s. unfold JSON_stringify. rewrite Hs. split; [reflexivity|].
  unfold JSON_parse. rewrite (lex_clean ft v s Hc Hs).
  pose proof (clean_parses_back v Hc [] []) as H. rewrite app_nil_r in H.
  rewrite H. reflexivity.
Qed.

Lemma parsed_integral_clean : forall v,
  json_parsed v = true -> integral v = true -> json_clean v = true.
Proof.
  apply (jsval_nested_ind
           (fun v => json_parsed v = true -> integral v = true -> json_clean v = true));
    try (intros; reflexivity); try discriminate.
  - intros [z| | | |]; simpl; auto; discriminate.
  - intros l IH Hp Hi. cbn [json_parsed integral json_clean] in *.
    rewrite forallb_forall in *. rewrite Forall_forall in IH. auto.
  - intros o IH Hp Hi. cbn [json_parsed integral json_clean] in *.
    apply andb_prop in Hp. destruct Hp as [Hp1 Hp2]. rewrite Hp1. simpl.
    rewrite forallb_forall in *. rewrite Forall_forall in IH. auto.
Qed.

Lemma key_before_spec k k' : key_before k k' -> key_beforeb k k' = true.
Proof.
  unfold key_beforeb, key_before.
  destruct (array_index k), (array_index k'); try tauto.
  intros H. apply Z.leb_le. exact H.
Qed.

Lemma proper_properb : forall o, proper o -> properb o = true.
Proof.
  induction o as [|kv o IH]; simpl; [auto|].
  intros (H1 & H2 & H3). rewrite H1, (IH H3). simpl. rewrite andb_true_r.
  apply forallb_forall. rewrite Forall_forall in H2.
  intros x Hx. apply key_before_spec, H2, Hx.
Qed.

(** *** The values of the lexer and of the parser *)

Lemma classify_parsed neg src D E :
  (0 <= D)%Z -> json_parsed (VNumber (classify neg src D E)) = true.
Proof.
  intros HD. unfold classify.
  set (num := (D * 10 ^ Z.max E 0)%Z). set (den := (10 ^ Z.max (- E) 0)%Z).
  assert (Hnum : (0 <= num)%Z) by (unfold num; apply Z.mul_nonneg_nonneg; [lia | apply Z.pow_nonneg; lia]).
  assert (Hden : (0 < den)%Z) by (unfold den; apply Z.pow_pos_nonneg; lia).
  destruct ((num =? 0) || (num * 2 ^ 1075 <=? den))%Z; [destruct neg; reflexivity|].
  destruct ((2 ^ 1024 - 2 ^ 970) * den <=? num)%Z; [reflexivity|].
  destruct ((num mod den =? 0) && (num / den <=? 2 ^ 53))%Z eqn:E1; [|reflexivity].
  apply andb_prop in E1. destruct E1 as [_ E1]. apply Z.leb_le in E1.
  assert (Hq : (0 <= num / den)%Z) by (apply Z.div_pos; lia).
  cbn [json_parsed]. apply Z.leb_le. destruct neg; lia.
Qed.

Lemma JSON_number_parsed s n :
  JSON_number s = Some n -> json_parsed (VNumber n) = true.
Proof.
  unfold JSON_number.
  destruct (match s with
            | [] => (false, s)
            | c :: u => if (c =? 45)%N then (true, u) else (false, s)
            end) as [neg u].
  destruct (scan_decimal u) as [d|]; [|discriminate].
  match goal with |- (if ?b then _ else _) = _ -> _ => destruct b end; [|discriminate].
  intros [= <-]. unfold decimal_value. apply classify_parsed, digits_value_nonneg.
Qed.

Lemma flush_ok m toks toks' :
  Forall token_ok toks -> flush m toks = Some toks' -> Forall token_ok toks'.
Proof.
  intros H. destruct m as [|acc|acc|acc hs|acc|acc]; simpl; try discriminate.
  - intros [= <-]. exact H.
  - destruct (JSON_number (rev acc)) as [n|] eqn:E; [|discriminate].
    intros [= <-]. constructor; [|exact H]. simpl. exact (JSON_number_parsed _ _ E).
  - unfold word_token.
    destruct (str_eqb (rev acc) (lit "true"));
      [intros [= <-]; constructor; [reflexivity | exact H]|].
    destruct (str_eqb (rev acc) (lit "false"));
      [intros [= <-]; constructor; [reflexivity | exact H]|].
    destruct (str_eqb (rev acc) (lit "null"));
      [intros [= <-]; constructor; [reflexivity | exact H] | discriminate].
Qed.

Lemma lex_default_ok toks c m' toks' :
  Forall token_ok toks -> lex_default toks c = Some (m', toks') -> Forall token_ok toks'.
Proof.
  intros H. unfold lex_default.
  repeat match goal with
         | |- (if ?b then _ else _) = _ -> _ =>
             destruct b; [intros [= <- <-]; repeat constructor; exact H|]
         end.
  discriminate.
Qed.

Lemma lex_step_ok m toks c m' toks' :
  Forall token_ok toks -> lex_step (m, toks) c = Some (m', toks') -> Forall token_ok toks'.
Proof.
  intros H. unfold lex_step. destruct m as [|acc|acc|acc hs|acc|acc].
  - apply lex_default_ok. exact H.
  - repeat match goal with
           | |- (if ?b then _ else _) = _ -> _ =>
               destruct b; [intros [=]; subst; repeat constructor; exact H|]
           end.
    intros [=]; subst; exact H.
  - destruct (unescape c); [intros [=]; subst; exact H|].
    destruct (c =? 117)%N; [intros [=]; subst; exact H | discriminate].
  - destruct (hex_value c); [|discriminate].
    destruct hs as [|a [|b [|d [|e hs]]]]; intros [=]; subst; exact H.
  - destruct (is_number_char c); [intros [=]; subst; exact H|].
    destruct (flush (LNumber acc) toks) as [t|] eqn:E; [|discriminate].
    apply lex_default_ok. exact (flush_ok _ _ _ H E).
  - destruct (is_lower c); [intros [=]; subst; exact H|].
    destruct (flush (LWord acc) toks) as [t|] eqn:E; [|discriminate].
    apply lex_default_ok. exact (flush_ok _ _ _ H E).
Qed.

Lemma lex_from_ok : forall s m toks out,
  Forall token_ok toks -> lex_from (m, toks) s = Some out -> Forall token_ok out.
Proof.
  induction s as [|c s IH]; intros m toks out H; cbn [lex_from fst snd].
  - destruct (flush m toks) as [t|] eqn:E; [|discriminate].
    intros [= <-]. apply Forall_rev. exact (flush_ok _ _ _ H E).
  - destruct (lex_step (m, toks) c) as [[m' toks']|] eqn:E; [|discriminate].
    apply IH. exact (lex_step_ok _ _ _ _ _ H E).
Qed.

Lemma object_parsed o : proper o -> values_ok o -> json_parsed (VObject o) = true.
Proof.
  intros Hp Hv. cbn [json_parsed]. rewrite (proper_properb o Hp). simpl.
  apply forallb_forall. unfold values_ok in Hv. rewrite Forall_forall in Hv. exact Hv.
Qed.

Lemma array_parsed items :
  Forall (fun v => json_parsed v = true) items -> json_parsed (VArray (rev items)) = true.
Proof.
  intros H. cbn [json_parsed]. apply forallb_forall. intros x Hx.
  apply in_rev in Hx. rewrite Forall_forall in H. auto.
Qed.

Lemma reduce_ok v stack :
  json_parsed v = true -> Forall frame_ok stack -> state_ok (reduce v stack).
Proof.
  intros Hv Hs. destruct stack as [|[items|o key] stack]; simpl; [exact Hv| |];
    inversion Hs as [|f l Hf Hl]; subst; simpl in Hf.
  - split; [constructor; assumption | exact Hl].
  - destruct Hf as [Hp Hvs]. split; [|exact Hl].
    split; [apply proper_define | apply (values_define (fun x => json_parsed x = true))]; assumption.
Qed.

Lemma begin_value_ok tok stack st :
  token_ok tok -> Forall frame_ok stack -> begin_value tok stack = Some st -> state_ok st.
Proof.
  intros Ht Hs. destruct tok; simpl; try discriminate; intros [= <-]; try exact Hs.
  - apply reduce_ok; [reflexivity | exact Hs].
  - apply reduce_ok; [exact Ht | exact Hs].
Qed.

Lemma parse_step_ok st tok st' :
  state_ok st -> token_ok tok -> parse_step st tok = Some st' -> state_ok st'.
Proof.
  intros Hst Ht. destruct st as [stack|stack|items stack|stack|o stack|o k stack|o stack|v];
    simpl in Hst; cbn [parse_step].
  - apply begin_value_ok; assumption.
  - assert (Hb : forall st0, begin_value tok (FArray [] :: stack) = Some st0 -> state_ok st0).
    { intros st0. apply begin_value_ok; [exact Ht|]. constructor; [constructor | exact Hst]. }
    destruct tok; try apply Hb.
    intros [= <-]. apply reduce_ok; [reflexivity | exact Hst].
  - destruct Hst as [Hi Hs]. destruct tok; try discriminate; intros [= <-].
    + apply reduce_ok; [apply array_parsed; exact Hi | exact Hs].
    + simpl. constructor; assumption.
  - destruct tok; try discriminate; intros [= <-].
    + apply reduce_ok; [reflexivity | exact Hst].
    + simpl. split; [split; [exact I | constructor] | exact Hst].
  - destruct tok; try discriminate; intros [= <-]. exact Hst.
  - destruct Hst as [Ho Hs]. destruct tok; try discriminate; intros [= <-].
    simpl. constructor; assumption.
  - destruct Hst as [[Hp Hv] Hs]. destruct tok; try discriminate; intros [= <-].
    + apply reduce_ok; [apply object_parsed; assumption | exact Hs].
    + simpl. auto.
  - discriminate.
Qed.

Lemma parse_from_ok : forall toks st v,
  state_ok st -> Forall token_ok toks -> parse_from st toks = Some v ->
  json_parsed v = true.
Proof.
  induction toks as [|t toks IH]; intros st v Hst Ht; cbn [parse_from].
  - destruct st; try discriminate. intros [= <-]. exact Hst.
  - inversion Ht as [|t0 l Htok Htoks]; subst.
    destruct (parse_step st t) as [st'|] eqn:E; [|discriminate].
    apply IH; [exact (parse_step_ok _ _ _ Hst Htok E) | exact Htoks].
Qed.

(** A value that [JSON.parse] returns. *)
Lemma JSON_parse_parsed s v : JSON_parse s = Ok v -> json_parsed v = true.
Proof.
  unfold JSON_parse, lex.
  destruct (lex_from (LDefault, []) s) as [toks|] eqn:E; [|discriminate].
  destruct (parse_from (PValue []) toks) as [v'|] eqn:E'; [|discriminate].
  intros [= <-].
  apply (parse_from_ok toks (PValue []) v'); [constructor | | exact E'].
  apply (lex_from_ok s LDefault [] toks); [constructor | exact E].
Qed.

(** ** The arguments of an invocation, read back *)

Lemma proper_values_clean o :
  proper o -> Forall (fun kv => json_clean (snd kv) = true) o ->
  json_clean (VObject o) = true.
Proof.
  intros Hp Hv. cbn [json_clean]. rewrite (proper_properb o Hp). simpl.
  apply forallb_forall. rewrite Forall_forall in Hv. exact Hv.
Qed.

Lemma code_parameters_strings region :
  proper (code_parameters region) /\ string_valued (code_parameters region).
Proof.
  unfold code_parameters, String_matchAll.
  assert (H : forall m, In m (scan parameter_regex 0 0 region) ->
                        exists g, group m 2 = Some g).
  { intros m Hm. destruct (scan_matched _ _ _ _ _ Hm) as (pos & inp & Hat).
    pose proof (match_at_binds parameter_regex pos inp m 2 Hat) as Hb.
    simpl. destruct (capture 2 (groups m)); [eauto|].
    exfalso. apply Hb; [simpl; tauto | reflexivity]. }
  assert (Hinit : proper [] /\ string_valued []) by (split; [exact I | constructor]).
  revert H Hinit. generalize (@nil (jsstring * jsval)).
  induction (scan parameter_regex 0 0 region) as [|m l IH]; intros o H Ho; [exact Ho|].
  cbn [fold_left]. apply IH; [intros; apply H; right; assumption|].
  destruct (H m (or_introl eq_refl)) as (g & ->).
  apply (obj_set_kept (fun v => exists s, v = VString s)); [simpl; eauto | exact Ho].
Qed.

Lemma string_valued_clean o :
  string_valued o -> Forall (fun kv => json_clean (snd kv) = true) o.
Proof.
  apply Forall_impl. intros kv (s & ->). reflexivity.
Qed.

(** X13: the arguments of a code-environment invocation are a JSON text
    that [JSON.parse] turns back into the object of the collected
    parameters, and every value of that object is a string. *)
Theorem code_arguments_parse_back :
  forall ft ent content pc t,
    call (parseCodeContent ft ent content) = Ok pc ->
    In t (invocations pc) ->
    exists region a,
      tag_body (lit "<code_env>") (lit "</code_env>") content = Some region
      /\ arguments (function t) = VString a
      /\ JSON_parse a = Ok (VObject (code_parameters region))
      /\ string_valued (code_parameters region).
Proof.
  intros ft ent content pc t Hcall Hin.
  apply (decoder_result CodeEnv) in Hcall. subst pc.
  rewrite invocations_result in Hin. simpl env_found in Hin.
  rewrite code_env_found_body in Hin.
  destruct (tag_body _ _ content) as [region|]; [|contradiction].
  destruct (String_match function_regex region) as [fm|]; [|contradiction].
  destruct Hin as [<-|[]].
  destruct (code_parameters_strings region) as [Hp Hs].
  destruct (JSON_parse_stringify_clean ft _
              (proper_values_clean _ Hp (string_valued_clean _ Hs)))
    as (a & Ha & Hparse).
  exists region, a. simpl. auto.
Qed.

(** The arguments decoded from [run_ls] parse back. *)
Lemma code_arguments_parse_back_witness :
  call (parseCodeContent literal_text sample_entropy run_ls) = Ok run_ls_result
  /\ exists region a,
      tag_body (lit "<code_env>") (lit "</code_env>") run_ls = Some region
      /\ arguments (function run_ls_call) = VString a
      /\ JSON_parse a = Ok (VObject (code_parameters region))
      /\ string_valued (code_parameters region).
Proof.
  assert (H : call (parseCodeContent literal_text sample_entropy run_ls) = Ok run_ls_result)
    by (vm_compute; reflexivity).
  split; [exact H|].
  exact (code_arguments_parse_back literal_text sample_entropy run_ls run_ls_result
           run_ls_call H (or_introl eq_refl)).
Defined.

(** *** The tool environment *)

Lemma tools_from_in ft ent rs : forall k t,
  In t (tools_from ft ent k rs) ->
  exists r, In r rs
            /\ function t = {| name := fst r; arguments := JSON_stringify ft (snd r) |}.
Proof.
  induction rs as [|r rs IH]; intros k t; simpl; [tauto|].
  intros [<-|H]; [eauto|]. destruct (IH _ _ H) as (r' & Hr & E). eauto.
Qed.

Lemma descriptors_in : forall l r,
  In r (descriptors l) ->
  exists d, In d l
            /\ r = (field d (lit "name"), field d (lit "parameters"))
            /\ truthy (snd r) = true.
Proof.
  induction l as [|c l IH]; intros r; simpl; [tauto|].
  destruct (is_nullish c) eqn:Hc.
  - destruct c; try discriminate; simpl; tauto.
  - rewrite !get_prop_field by exact Hc.
    destruct (truthy (field c (lit "name")) && truthy (field c (lit "parameters"))) eqn:E.
    + intros [<-|H].
      * apply andb_prop in E. destruct E as [_ E]. exists c. auto.
      * destruct (IH r H) as (d & Hd & Hr). exists d. auto.
    + intros H. destruct (IH r H) as (d & Hd & Hr). exists d. auto.
Qed.

Lemma lookup_prop_in k : forall o,
  lookup_prop k o = VUndefined \/ exists k', In (k', lookup_prop k o) o.
Proof.
  induction o as [|[k1 v1] o IH]; simpl; [auto|].
  destruct (str_eqb k k1); [right; eauto|].
  destruct IH as [IH|(k' & IH)]; [auto | right; eauto].
Qed.

(** A truthy field of a value that [JSON.parse] returned is such a value
    itself. *)
Lemma field_parsed d k :
  json_parsed d = true -> truthy (field d k) = true -> json_parsed (field d k) = true.
Proof.
  intros Hd Ht. destruct d as [| |b|n|s|l|o]; try discriminate Ht.
  simpl in *. apply andb_prop in Hd. destruct Hd as [_ Hd].
  destruct (lookup_prop_in k o) as [E|(k' & Hin)]; [rewrite E in Ht; discriminate|].
  rewrite forallb_forall in Hd. exact (Hd _ Hin).
Qed.

(** X14: for a tool-environment payload that parses to an array whose
    parameters hold, as their only numbers, integers of the safe range other
    than the negative zero, every invocation comes from a descriptor of the
    array: its name is the name of the descriptor and its arguments are a
    JSON text that [JSON.parse] turns back into the parameters of the
    descriptor. (A negative zero is written as [0] and read back as the
    positive zero.) *)
Theorem mcp_arguments_parse_back :
  forall ft ent content region payload l,
    tag_body (lit "<mcp_env>") (lit "</mcp_env>") content = Some region ->
    tag_body call_begin call_end region = Some payload ->
    JSON_parse (lit "[" ++ payload ++ lit "]") = Ok (VArray l) ->
    forallb (fun d => integral (field d (lit "parameters"))) l = true ->
    exists pc,
      call (parseMcpContent ft ent content) = Ok pc
      /\ Forall (fun t => exists d a,
                     In d l
                     /\ name (function t) = field d (lit "name")
                     /\ arguments (function t) = VString a
                     /\ JSON_parse a = Ok (field d (lit "parameters")))
           (invocations pc).
Proof.
  intros ft ent content region payload l Hregion Hpayload Hparse Hint.
  exists (result ft ent content (mcp_env_found content)).
  unfold call. rewrite parseMcpContent_run. split; [reflexivity|].
  rewrite invocations_result, mcp_env_found_body, Hregion, Hpayload, Hparse.
  apply Forall_forall. intros t Ht.
  destruct (tools_from_in _ _ _ _ _ Ht) as (r & Hr & Hf).
  destruct (descriptors_in _ _ Hr) as (d & Hd & -> & Htruthy). simpl in Htruthy, Hf.
  pose proof (JSON_parse_parsed _ _ Hparse) as Hl. cbn [json_parsed] in Hl.
  rewrite forallb_forall in Hl, Hint.
  destruct (JSON_parse_stringify_clean ft (field d (lit "parameters")))
    as (a & Ha & Hback).
  { apply parsed_integral_clean; [|exact (Hint d Hd)].
    apply field_parsed; [exact (Hl d Hd) | exact Htruthy]. }
  exists d, a. rewrite Hf. simpl. auto.
Qed.

(** The two invocations of [two_calls]. *)
Lemma mcp_arguments_parse_back_witness :
  tag_body (lit "<mcp_env>") (lit "</mcp_env>") two_calls = Some two_calls_region
  /\ tag_body call_begin call_end two_calls_region = Some two_calls_payload
  /\ JSON_parse (lit "[" ++ two_calls_payload ++ lit "]")
     = Ok (VArray [search_descriptor; open_descriptor])
  /\ exists pc,
      call (parseMcpContent literal_text sample_entropy two_calls) = Ok pc
      /\ Forall (fun t => exists d a,
                     In d [search_descriptor; open_descriptor]
                     /\ name (function t) = field d (lit "name")
                     /\ arguments (function t) = VString a
                     /\ JSON_parse a = Ok (field d (lit "parameters")))
           (invocations pc).
Proof.
  assert (H1 : tag_body (lit "<mcp_env>") (lit "</mcp_env>") two_calls
               = Some two_calls_region) by (vm_compute; reflexivity).
  assert (H2 : tag_body call_begin call_end two_calls_region = Some two_calls_payload)
    by (vm_compute; reflexivity).
  assert (H3 : JSON_parse (lit "[" ++ two_calls_payload ++ lit "]")
               = Ok (VArray [search_descriptor; open_descriptor]))
    by (vm_compute; reflexivity).
  split; [exact H1 | split; [exact H2 | split; [exact H3|]]].
  exact (mcp_arguments_parse_back literal_text sample_entropy two_calls
           two_calls_region two_calls_payload [search_descriptor; open_descriptor]
           H1 H2 H3 eq_refl).
Defined.

(** *** The pointer environment *)

Lemma other_param_clean o p : clean_props o -> clean_props (other_param o p).
Proof.
  intros Ho. unfold other_param. destruct (trim p) as [|c0 t0]; [exact Ho|].
  cbv zeta.
  destruct (nth_error _ 0) as [[|c1 k]|]; try exact Ho.
  destruct (nth_error _ 1) as [[|c2 v]|]; try exact Ho.
  apply (obj_set_kept (fun v => json_clean v = true)); [reflexivity | exact Ho].
Qed.

Lemma other_parameters_clean args o :
  clean_props o -> clean_props (other_parameters o args).
Proof.
  unfold other_parameters.
  generalize (split 44 (String_replace_first point_erase_regex args)).
  intros l. revert o. induction l as [|p l IH]; intros o Ho; [exact Ho|].
  simpl. apply IH, other_param_clean, Ho.
Qed.

Lemma pointer_parameters_clean args :
  whole_coordinates args = true -> clean_props (pointer_parameters args).
Proof.
  unfold whole_coordinates, pointer_parameters. intros H.
  apply other_parameters_clean.
  assert (Hnil : clean_props []) by (split; [exact I | constructor]).
  destruct (String_match point_regex args) as [pm|]; [|exact Hnil].
  destruct (group pm 1) as [p|]; [|exact Hnil].
  unfold point_parameter.
  destruct (List.map Number (split 32 p)) as [|[x| | | |] [|[y| | | |] xy]]; try discriminate.
  apply andb_prop in H. destruct H as [Hx Hy].
  change (obj_set [] (lit "point") ?v) with [(lit "point", v)].
  unfold element. cbn [nth_error].
  split; [simpl; repeat split; constructor|].
  constructor; [|constructor]. cbn [snd json_clean forallb].
  rewrite Hx, Hy. reflexivity.
Qed.

(** X15: the arguments of a pointer-environment invocation without a point,
    or with a point whose first two coordinates are integers of the safe
    range and not the negative zero, are a JSON text that [JSON.parse] turns
    back into the object of the decoded parameters. *)
Theorem pointer_arguments_parse_back :
  forall ft ent content region am args,
    tag_body (lit "<computer_env>") (lit "</computer_env>") content = Some region ->
    String_match action_regex (trim region) = Some am ->
    group am 2 = Some args ->
    whole_coordinates args = true ->
    exists pc t a,
      call (parseComputerContent ft ent content) = Ok pc
      /\ invocations pc = [t]
      /\ arguments (function t) = VString a
      /\ JSON_parse a = Ok (VObject (pointer_parameters args)).
Proof.
  intros ft ent content region am args Hregion Ham Hargs Hwhole.
  destruct (pointer_parameters_clean args Hwhole) as [Hp Hv].
  destruct (JSON_parse_stringify_clean ft _ (proper_values_clean _ Hp Hv))
    as (a & Ha & Hback).
  exists (result ft ent content (computer_env_found content)).
  unfold call. rewrite parseComputerContent_run.
  rewrite invocations_result, computer_env_found_body, Hregion, Ham, Hargs.
  eexists. exists a. split; [reflexivity|]. split; [reflexivity|].
  split; [exact Ha | exact Hback].
Qed.

(** The arguments decoded from [type_hello] parse back. *)
Lemma pointer_arguments_parse_back_witness :
  tag_body (lit "<computer_env>") (lit "</computer_env>") type_hello = Some type_hello_region
  /\ String_match action_regex (trim type_hello_region) = Some type_hello_match
  /\ pointer_parameters type_hello_args
     = [(lit "point", VObject [(lit "x", VNumber (Int 10)); (lit "y", VNumber (Int 20))]);
        (lit "text", VString (lit "hello"))]
  /\ exists pc t a,
      call (parseComputerContent literal_text sample_entropy type_hello) = Ok pc
      /\ invocations pc = [t]
      /\ arguments (function t) = VString a
      /\ JSON_parse a = Ok (VObject (pointer_parameters type_hello_args)).
Proof.
  assert (H1 : tag_body (lit "<computer_env>") (lit "</computer_env>") type_hello
               = Some type_hello_region) by (vm_compute; reflexivity).
  assert (H2 : String_match action_regex (trim type_hello_region) = Some type_hello_match)
    by (vm_compute; reflexivity).
  split; [exact H1 | split; [exact H2 | split; [vm_compute; reflexivity|]]].
  exact (pointer_arguments_parse_back literal_text sample_entropy type_hello
           type_hello_region type_hello_match type_hello_args H1 H2 eq_refl eq_refl).
Defined.

(** *** The negative zero *)

(** [Number] and [JSON.parse] read [-0] as the negative zero, which is
    falsy; [JSON.stringify] writes it as [0], which is read back as the
    positive zero. *)
Lemma negative_zero_written_as_zero ft :
  Number (lit "-0") = NegZero
  /\ JSON_parse (lit "-0") = Ok (VNumber NegZero)
  /\ truthy (VNumber NegZero) = false
  /\ JSON_stringify ft (VNumber NegZero) = VString (lit "0")
  /\ JSON_parse (lit "0") = Ok (VNumber (Int 0))
  /\ integral (VNumber NegZero) = false
  /\ whole_coordinates (lit "point='<point>-0 5</point>'") = false.
Proof. repeat split; vm_compute; reflexivity. Qed.

(** ** What every invocation is *)

Lemma search_matched r : forall inp pos m,
  search r pos inp = Some m -> exists pos' inp', match_at r pos' inp' = Some m.
Proof.
  induction inp as [|c t IH]; intros pos m; simpl;
    destruct (match_at r pos _) as [m'|] eqn:Hm.
  - intros [= <-]. eauto.
  - discriminate.
  - intros [= <-]. eauto.
  - apply IH.
Qed.

Lemma function_match_name pos inp m :
  match_at function_regex pos inp = Some m ->
  exists NAME, group m 1 = Some NAME /\ NAME <> []
               /\ forallb (not_char 62) NAME = true.
Proof.
  unfold match_at, function_regex. cbn [run].
  destruct (strip_prefix (lit "<function=") inp) as [rest|]; [|discriminate].
  destruct rest as [|c t]; [discriminate|].
  destruct (not_char 62 c) eqn:Hc; [|discriminate].
  match goal with
  | |- match ?g with _ => _ end = _ -> _ => destruct g as [[e cs]|] eqn:Hg; [|discriminate]
  end.
  intros [= <-].
  apply greedy_some in Hg. destruct Hg as (n & Hn & Hall & Hk).
  destruct (strip_prefix (lit ">") (skipn n t)); [|discriminate].
  unfold accept in Hk. injection Hk as _ <-.
  replace (match pos + 10 with 0 => S (pos + 10 + n) | S l => pos + 10 + n - l end)
    with (S n) by (destruct (pos + 10) eqn:E; lia).
  exists (c :: firstn n t). simpl. rewrite Hc, Hall.
  split; [reflexivity | split; [discriminate | reflexivity]].
Qed.

Lemma action_match_name pos inp m :
  match_at action_regex pos inp = Some m ->
  exists NAME, group m 1 = Some NAME /\ NAME <> []
               /\ forallb is_word_char NAME = true.
Proof.
  unfold match_at, action_regex. cbn [run].
  destruct (strip_prefix (lit "Action:") inp) as [rest|]; [|discriminate].
  match goal with
  | |- match ?g with _ => _ end = _ -> _ => destruct g as [[e cs]|] eqn:Hg; [|discriminate]
  end.
  intros [= <-].
  apply greedy_some in Hg. destruct Hg as (n0 & _ & _ & Hk).
  destruct (skipn n0 rest) as [|c t]; [discriminate|].
  destruct (is_word_char c) eqn:Hc; [|discriminate].
  apply greedy_some in Hk. destruct Hk as (n & Hn & Hall & Hk).
  destruct (strip_prefix (lit "(") (skipn n t)) as [rest2|]; [|discriminate].
  apply greedy_some in Hk. destruct Hk as (n2 & _ & _ & Hk).
  destruct (strip_prefix (lit ")") (skipn n2 rest2)); [|discriminate].
  unfold accept in Hk. injection Hk as _ <-.
  replace (match pos + 7 + n0 with 0 => S (pos + 7 + n0 + n) | S l => pos + 7 + n0 + n - l end)
    with (S n) by (destruct (pos + 7 + n0) eqn:E; lia).
  exists (c :: firstn n t). simpl. rewrite Hc, Hall.
  split; [reflexivity | split; [discriminate | reflexivity]].
Qed.

Lemma serialize_defined ft v : v <> VUndefined -> exists a, JSON_stringify ft v = VString a.
Proof.
  intros Hv. unfold JSON_stringify.
  destruct v as [| |[|]|[z| | |[|]|src]|s|l|o]; try congruence; simpl; eauto.
Qed.

(** X16: every invocation that a decoder emits has the type [function], a
    truthy name and a string as arguments; the name of the code-environment
    decoder is a string without [>], the name of the pointer-environment
    decoder a string of word characters. The tool-environment decoder
    takes the name as the payload gives it, a string or not. *)
Theorem invocations_well_formed :
  forall env ft ent content pc t,
    call (decoder env ft ent content) = Ok pc ->
    In t (invocations pc) ->
    type t = lit "function"
    /\ truthy (name (function t)) = true
    /\ (exists a, arguments (function t) = VString a)
    /\ match env with
       | CodeEnv =>
           exists NAME, name (function t) = VString NAME
                        /\ forallb (not_char 62) NAME = true
       | McpEnv => True
       | ComputerEnv =>
           exists NAME, name (function t) = VString NAME
                        /\ forallb is_word_char NAME = true
       end.
Proof.
  intros env ft ent content pc t Hcall Hin.
  apply decoder_result in Hcall. subst pc. rewrite invocations_result in Hin.
  assert (Hshape : forall k rs,
             In t (tools_from ft ent k rs) ->
             type t = lit "function"
             /\ exists r, In r rs /\ name (function t) = fst r
                          /\ arguments (function t) = JSON_stringify ft (snd r)).
  { intros k rs. revert k. induction rs as [|r rs IH]; intros k; simpl; [tauto|].
    intros [<-|H]; [simpl; eauto 6|].
    destruct (IH _ H) as (Ht & r' & Hr & Hn & Ha). eauto 7. }
  destruct (Hshape _ _ Hin) as (Htype & r & Hr & Hname & Hargs).
  split; [exact Htype|]. rewrite Hname, Hargs. clear Hshape Hin Hname Hargs Htype.
  destruct env; simpl env_found in Hr.
  - rewrite code_env_found_body in Hr.
    destruct (tag_body _ _ content) as [region|]; [|contradiction].
    destruct (String_match function_regex region) as [fm|] eqn:Hf; [|contradiction].
    destruct Hr as [<-|[]]. cbn [fst snd].
    destruct (search_matched _ _ _ _ Hf) as (pos & inp & Hat).
    destruct (function_match_name _ _ _ Hat) as (NAME & -> & Hne & Hall).
    destruct NAME as [|c NAME]; [congruence|]. cbn [to_val].
    split; [reflexivity|]. split; [apply serialize_defined; discriminate|]. eauto.
  - rewrite mcp_env_found_body in Hr.
    assert (H : forall l, In r (descriptors l) ->
                truthy (fst r) = true /\ truthy (snd r) = true).
    { induction l as [|c l IH]; simpl; [tauto|].
      destruct (get_prop c (lit "name")) as [n|]; [|intros []].
      destruct (get_prop c (lit "parameters")) as [p|]; [|intros []].
      destruct (truthy n && truthy p) eqn:E; [|exact IH].
      intros [<-|Hin]; [apply andb_prop in E; exact E | auto]. }
    assert (Hr' : truthy (fst r) = true /\ truthy (snd r) = true).
    { destruct (tag_body _ _ content) as [region|]; [|contradiction].
      destruct (tag_body call_begin call_end region) as [payload|]; [|contradiction].
      destruct (JSON_parse _) as [[| | | | |l|]|]; try contradiction; eauto. }
    destruct Hr' as [Hn Hp]. split; [exact Hn|]. split; [|exact I].
    apply serialize_defined. intros E. rewrite E in Hp. discriminate.
  - rewrite computer_env_found_body in Hr.
    destruct (tag_body _ _ content) as [region|]; [|contradiction].
    destruct (String_match action_regex (trim region)) as [am|] eqn:Ha; [|contradiction].
    destruct (group am 2) as [args|]; [|contradiction].
    destruct Hr as [<-|[]]. cbn [fst snd].
    destruct (search_matched _ _ _ _ Ha) as (pos & inp & Hat).
    destruct (action_match_name _ _ _ Hat) as (NAME & -> & Hne & Hall).
    destruct NAME as [|c NAME]; [congruence|]. cbn [to_val].
    split; [reflexivity|]. split; [apply serialize_defined; discriminate|]. eauto.
Qed.

(** The invocation [wait] decoded from [look_first]. *)
Lemma invocations_well_formed_witness :
  call (decoder ComputerEnv literal_text sample_entropy look_first) = Ok look_first_result
  /\ exists t,
      In t (invocations look_first_result)
      /\ type t = lit "function"
      /\ truthy (name (function t)) = true
      /\ (exists a, arguments (function t) = VString a)
      /\ exists NAME, name (function t) = VString NAME
                      /\ forallb is_word_char NAME = true.
Proof.
  assert (H : call (decoder ComputerEnv literal_text sample_entropy look_first)
              = Ok look_first_result) by (vm_compute; reflexivity).
  split; [exact H|].
  destruct (invocations look_first_result) as [|t l] eqn:E; [discriminate E|].
  exists t. split; [left; reflexivity|].
  refine (invocations_well_formed ComputerEnv literal_text sample_entropy
            look_first look_first_result t H _).
  rewrite E. left. reflexivity.
Defined.

(** ** The event loop *)

Section StreamingFacts.
Variable World : Type.
Variable onEvent : jsval -> World -> Exc unit * World.

(** The loop ends because no blank line is left, not for lack of fuel. *)
Lemma indexOf_bound p : forall s i,
  String_indexOf p s = Some i -> i + length p <= length s.
Proof.
  induction s as [|c t IH]; intros i; simpl.
  - destruct (strip_prefix p []) as [r|] eqn:E; [|discriminate].
    intros [= <-]. apply strip_prefix_app in E. destruct p; [simpl; lia | discriminate].
  - destruct (strip_prefix p (c :: t)) as [r|] eqn:E.
    + intros [= <-]. apply strip_prefix_app in E.
      apply (f_equal (@length _)) in E. rewrite length_app in E. simpl in *. lia.
    + destruct (String_indexOf p t) as [j|]; [|discriminate].
      intros [= <-]. specialize (IH j eq_refl). lia.
Qed.

Lemma drain_fuel : forall n m buffer st,
  length buffer < n -> length buffer < m -> drain onEvent n buffer st = drain onEvent m buffer st.
Proof.
  induction n as [|n IH]; intros m buffer st Hn Hm; [lia|].
  destruct m as [|m]; [lia|]. simpl.
  destruct (String_indexOf blank_line buffer) as [i|] eqn:E; [|reflexivity].
  apply indexOf_bound in E. simpl in E.
  apply IH; unfold slice_from; rewrite length_skipn; lia.
Qed.

Lemma drain_done : forall n buffer st,
  length buffer < n ->
  String_indexOf blank_line (fst (drain onEvent n buffer st)) = None.
Proof.
  induction n as [|n IH]; intros buffer st Hn; [lia|]. simpl.
  destruct (String_indexOf blank_line buffer) as [i|] eqn:E; [|exact E].
  apply indexOf_bound in E. simpl in E.
  apply IH. unfold slice_from. rewrite length_skipn. lia.
Qed.

Lemma strip_prefix_none_app p c : forall s,
  strip_prefix p s = None -> length p <= length s -> strip_prefix p (s ++ c) = None.
Proof.
  induction p as [|a p IH]; intros [|b s]; simpl; try discriminate; try lia.
  destruct (N.eqb a b); [|reflexivity]. intros H Hl. apply IH; [exact H | lia].
Qed.

Lemma strip_prefix_some_app p c : forall s r,
  strip_prefix p s = Some r -> strip_prefix p (s ++ c) = Some (r ++ c).
Proof.
  induction p as [|a p IH]; intros s r; simpl.
  - intros [= <-]. reflexivity.
  - destruct s as [|b s]; [discriminate|]. simpl.
    destruct (N.eqb a b); [apply IH | discriminate].
Qed.

(** The first occurrence in a text is the first occurrence in any
    extension of the text. *)
Lemma indexOf_app p c : forall s i,
  String_indexOf p s = Some i -> String_indexOf p (s ++ c) = Some i.
Proof.
  induction s as [|b s IH]; intros i.
  - simpl. destruct (strip_prefix p []) as [r|] eqn:E; [|discriminate].
    intros [= <-]. apply strip_prefix_app in E. destruct p; [|discriminate].
    destruct c; reflexivity.
  - cbn [String_indexOf app].
    destruct (strip_prefix p (b :: s)) as [r|] eqn:E.
    + intros [= <-].
      change (b :: s ++ c) with ((b :: s) ++ c).
      rewrite (strip_prefix_some_app _ _ _ _ E). reflexivity.
    + destruct (String_indexOf p s) as [j|] eqn:Ej; [|discriminate].
      intros [= <-].
      change (b :: s ++ c) with ((b :: s) ++ c).
      rewrite strip_prefix_none_app;
        [|exact E | apply indexOf_bound in Ej; simpl; lia].
      rewrite (IH j eq_refl). reflexivity.
Qed.

Lemma drained_step buffer st :
  drained onEvent buffer st
  = match String_indexOf blank_line buffer with
    | Some i => drained onEvent (slice_from (i + 2) buffer) (dispatch onEvent (slice 0 i buffer) st)
    | None => (buffer, st)
    end.
Proof.
  unfold drained at 1. cbn [drain].
  destruct (String_indexOf blank_line buffer) as [i|] eqn:E; [|reflexivity].
  apply indexOf_bound in E. simpl in E. unfold drained.
  apply drain_fuel; unfold slice_from; rewrite length_skipn; lia.
Qed.

(** Draining a buffer and then what it left with more text behind it is
    draining the buffer with that text behind it. *)
Lemma drained_app c : forall n buffer st,
  length buffer < n ->
  drained onEvent (buffer ++ c) st
  = drained onEvent (fst (drained onEvent buffer st) ++ c) (snd (drained onEvent buffer st)).
Proof.
  induction n as [|n IH]; intros buffer st Hn; [lia|].
  rewrite (drained_step buffer).
  destruct (String_indexOf blank_line buffer) as [i|] eqn:E; [|reflexivity].
  rewrite (drained_step (buffer ++ c)), (indexOf_app _ c _ _ E).
  pose proof (indexOf_bound _ _ _ E) as Hb. simpl in Hb.
  unfold slice_from, slice. rewrite !Nat.sub_0_r. simpl skipn at 2 4.
  rewrite skipn_app, firstn_app.
  replace (i + 2 - length buffer) with 0 by lia.
  replace (i - length buffer) with 0 by lia.
  simpl skipn at 2. simpl firstn at 2. rewrite app_nil_r.
  apply IH. rewrite length_skipn. lia.
Qed.

Lemma receive_drained : forall chunks buffer st,
  String_indexOf blank_line buffer = None ->
  receive onEvent chunks buffer st = drained onEvent (buffer ++ concat chunks) st.
Proof.
  induction chunks as [|value rest IH]; intros buffer st Hb.
  - simpl. rewrite app_nil_r, drained_step, Hb. reflexivity.
  - cbn [receive concat]. fold (drained onEvent (buffer ++ value) st).
    destruct (drained onEvent (buffer ++ value) st) as [b' st'] eqn:E.
    rewrite IH.
    + rewrite app_assoc.
      rewrite (drained_app (concat rest) (S (length (buffer ++ value))) (buffer ++ value) st)
        by lia.
      rewrite E. reflexivity.
    + pose proof (drain_done (S (length (buffer ++ value))) (buffer ++ value) st) as Hd.
      fold (drained onEvent (buffer ++ value) st) in Hd. rewrite E in Hd. apply Hd. lia.
Qed.

(** X17: the events that [sendStreamingQuery] hands to the callback, and the
    buffer that is left, do not depend on how the network cuts the text
    into chunks: any chunks give what their concatenation gives as one
    chunk. *)
Theorem events_independent_of_chunking :
  forall chunks st, receive onEvent chunks [] st = receive onEvent [concat chunks] [] st.
Proof.
  intros chunks st. rewrite !receive_drained by reflexivity.
  simpl. rewrite app_nil_r. reflexivity.
Qed.

Lemma indexOf_frame rest : forall f,
  forallb (not_char 10) f = true ->
  String_indexOf blank_line (f ++ blank_line ++ rest) = Some (length f).
Proof.
  induction f as [|c f IH]; intros H; [reflexivity|].
  simpl in H. apply andb_prop in H. destruct H as [Hc Hf].
  unfold not_char in Hc. apply negb_true_iff in Hc. rewrite N.eqb_sym in Hc.
  cbn [app String_indexOf]. unfold blank_line at 1. cbn [strip_prefix].
  rewrite Hc, (IH Hf). reflexivity.
Qed.

Lemma drained_frames tail : forall fs st,
  forallb (fun f => forallb (not_char 10) f) fs = true ->
  String_indexOf blank_line tail = None ->
  drained onEvent (concat (List.map event_frame fs) ++ tail) st
  = (tail, fold_left (fun st' f => dispatch onEvent f st') fs st).
Proof.
  induction fs as [|f fs IH]; intros st Hfs Htail.
  - simpl. rewrite drained_step, Htail. reflexivity.
  - simpl in Hfs. apply andb_prop in Hfs. destruct Hfs as [Hf Hfs].
    cbn [List.map concat fold_left]. unfold event_frame at 1.
    rewrite <- !app_assoc, drained_step, indexOf_frame by exact Hf.
    unfold slice, slice_from. rewrite Nat.sub_0_r. simpl skipn at 2.
    rewrite firstn_prefix.
    replace (f ++ blank_line ++ concat (List.map event_frame fs) ++ tail)
      with ((f ++ blank_line) ++ concat (List.map event_frame fs) ++ tail)
      by (rewrite <- app_assoc; reflexivity).
    replace (length f + 2) with (length (f ++ blank_line))
      by (rewrite length_app; reflexivity).
    rewrite skipn_prefix. apply IH; assumption.
Qed.

(** X18: when the text received is a sequence of events, each without a
    line feed and followed by a blank line, and a rest without a blank line,
    then every event is dispatched once, in order, however the text is cut
    into chunks, and the rest stays in the buffer undelivered. An event
    that does not start with [data: ], that [JSON.parse] rejects or at which
    the callback throws does not stop the events behind it. *)
Theorem complete_events_dispatched_in_order :
  forall chunks fs tail st,
    concat chunks = concat (List.map event_frame fs) ++ tail ->
    forallb (fun f => forallb (not_char 10) f) fs = true ->
    String_indexOf blank_line tail = None ->
    receive onEvent chunks [] st = (tail, fold_left (fun st' f => dispatch onEvent f st') fs st).
Proof.
  intros chunks fs tail st E Hfs Htail.
  rewrite receive_drained by reflexivity. simpl app. rewrite E.
  apply drained_frames; assumption.
Qed.

End StreamingFacts.

(** The events of [stream_chunks]: the first and the fourth reach the
    callback's record, the unfinished one stays in the buffer. *)
Lemma complete_events_dispatched_in_order_witness :
  concat stream_chunks = concat (List.map event_frame stream_events) ++ lit "data: 2"
  /\ receive record_event stream_chunks [] []
     = (lit "data: 2", [VObject [(lit "n", VNumber (Int 1))]; VBool true]).
Proof.
  assert (H : concat stream_chunks
              = concat (List.map event_frame stream_events) ++ lit "data: 2")
    by (vm_compute; reflexivity).
  split; [exact H|].
  exact (complete_events_dispatched_in_order (list jsval) record_event stream_chunks
           stream_events (lit "data: 2") [] H eq_refl eq_refl).
Defined.
